(** * dem2bvh: camera track extraction, resampling and BVH output

    A shallow embedding of [demo_analysis.py] and the properties of its
    resampling pipeline.

    Numbers.  The program computes on Python floats and NumPy [float64]
    arrays.  They are embedded as exact rationals ([Q]): comparisons,
    branches, indices and lengths are those of the code, while rounding,
    infinities, NaN and the sign of zero are not represented.  Where the
    code would leave the finite numbers (NumPy dividing by zero without
    raising) the embedding stops with [NonFinite].

    Objects.  The functions are embedded twice: on values (arrays as lists,
    an in-place update as a new list bound to the same name), which is what
    the functional properties are stated on, and in module [Heap] on a store
    of objects with array views, which is what the absence of mutation is
    stated on.  [resample_positions_refines] and
    [interpolate_angles_refines] relate the two. *)

From Stdlib Require Import String Ascii DecimalString.
From Stdlib Require Import QArith Qabs Qround Qpower ZArith List Bool Lia Lqa.
Import ListNotations.

Open Scope Q_scope.

(** ** Python exceptions *)

Inductive exn : Set :=
| IndexError
| ValueError
| ZeroDivisionError
| AttributeError
| TypeError
| OverflowError
| NonFinite.   (* not an exception: the float result would be inf or nan *)

Inductive result (A : Type) : Type :=
| Ok (a : A)
| Raise (e : exn).

Arguments Ok {A} a.
Arguments Raise {A} e.

Definition bind {A B : Type} (m : result A) (k : A -> result B) : result B :=
  match m with
  | Ok a => k a
  | Raise e => Raise e
  end.

Notation "x <- m ;; k" := (bind m (fun x => k))
  (at level 61, m at next level, right associativity).

(** [for b in l: a = f(a, b)], stopping at the first exception. *)
Fixpoint for_each {A B : Type} (l : list B) (f : A -> B -> result A) (a : A)
  : result A :=
  match l with
  | [] => Ok a
  | b :: l' => a' <- f a b ;; for_each l' f a'
  end.

(** ** Scalars *)

Definition Qltb (a b : Q) : bool := negb (Qle_bool b a).

(** Python's [a / b] on numbers. *)
Definition py_div (a b : Q) : result Q :=
  if Qeq_bool b 0 then Raise ZeroDivisionError else Ok (a / b).

(** [a % m] for a positive modulus: the remainder of floored division. *)
Definition py_mod (a m : Q) : Q := a - inject_Z (Qfloor (a / m)) * m.

Definition Q_of_nat (n : nat) : Q := inject_Z (Z.of_nat n).

(** ** NumPy, as far as the program uses it *)

Module np.

(** [np.arange(n)] *)
Definition arange_n (n : nat) : list Q := map Q_of_nat (seq 0 n).

(** [np.arange(start, stop, step)]: [ceil((stop - start) / step)] elements
    (none when that is negative), the k-th being [start + k * step]. *)
Definition arange_len (start stop step : Q) : nat :=
  Z.to_nat (Qceiling ((stop - start) / step)).

Definition arange (start stop step : Q) : result (list Q) :=
  if Qeq_bool step 0 then Raise NonFinite
  else Ok (map (fun k => start + Q_of_nat k * step)
               (seq 0 (arange_len start stop step))).

(** [arr / c] for an array and a Python scalar: NumPy divides element by
    element and does not raise; a zero divisor yields inf and nan. *)
Definition divide (arr : list Q) (c : Q) : result (list Q) :=
  match arr with
  | [] => Ok []
  | _ => if Qeq_bool c 0 then Raise NonFinite
         else Ok (map (fun a => a / c) arr)
  end.

(** [arr[-1]] *)
Definition last_item (arr : list Q) : result Q :=
  match arr with
  | [] => Raise IndexError
  | _ => Ok (nth (length arr - 1) arr 0)
  end.

(** [np.array(rows)] for a list of number sequences: the rows must have one
    length.  The empty list gives an empty one-dimensional array. *)
Definition same_width (rows : list (list Q)) : bool :=
  match rows with
  | [] => true
  | r :: rows' => forallb (fun r' => Nat.eqb (length r') (length r)) rows'
  end.

Definition array (rows : list (list Q)) : result (list (list Q)) :=
  if same_width rows then Ok rows else Raise ValueError.

(** [m[:, i]] *)
Definition column (m : list (list Q)) (i : nat) : result (list Q) :=
  match m with
  | [] => Raise IndexError
  | r :: _ => if Nat.ltb i (length r) then Ok (map (fun r' => nth i r' 0) m)
              else Raise IndexError
  end.

(** [np.zeros((n, w))] *)
Definition zeros (n w : nat) : list (list Q) := repeat (repeat 0 w) n.

Definition set_nth (i : nat) (v : Q) (r : list Q) : list Q :=
  firstn i r ++ v :: skipn (S i) r.

Fixpoint set_column_rows (m : list (list Q)) (i : nat) (v : list Q)
  : list (list Q) :=
  match m, v with
  | r :: m', x :: v' => set_nth i x r :: set_column_rows m' i v'
  | _, _ => m
  end.

(** [m[:, i] = v] for a column [i] of [m]: [v] has one value per row, or a
    single value that is broadcast. *)
Definition set_column (m : list (list Q)) (i : nat) (v : list Q)
  : result (list (list Q)) :=
  if Nat.eqb (length v) (length m) then Ok (set_column_rows m i v)
  else match v with
       | [x] => Ok (set_column_rows m i (repeat x (length m)))
       | _ => Raise ValueError
       end.

(** [arr[i:] += c], written as the new content of the array. *)
Definition slice_iadd (i : nat) (c : Q) (arr : list Q) : list Q :=
  firstn i arr ++ map (fun a => a + c) (skipn i arr).

(** [arr[i:] -= c] *)
Definition slice_isub (i : nat) (c : Q) (arr : list Q) : list Q :=
  firstn i arr ++ map (fun a => a - c) (skipn i arr).

(** [arr % m] *)
Definition remainder (arr : list Q) (m : Q) : list Q :=
  map (fun a => py_mod a m) arr.

(** *** [np.interp]

    The index search of the compiled interpolation: [len] above the last
    sample point, [-1] below the first, otherwise one less than the first
    index from 1 on whose sample point is greater than the key.  (NumPy
    bisects long arrays; on increasing sample points, which [np.interp]
    requires, that finds the same index.) *)
Fixpoint linear_search (key : Q) (arr : list Q) (i : nat) : nat :=
  match arr with
  | [] => i
  | a :: arr' => if Qle_bool a key then linear_search key arr' (S i) else i
  end.

Definition binary_search_with_guess (key : Q) (arr : list Q) : Z :=
  let len := length arr in
  if Qltb (nth (len - 1) arr 0) key then Z.of_nat len
  else if Qltb key (nth 0 arr 0) then (-1)%Z
  else (Z.of_nat (linear_search key (skipn 1 arr) 1) - 1)%Z.

Definition interp_at (xp fp : list Q) (x_val : Q) : result Q :=
  let lenxp := length xp in
  let lval := nth 0 fp 0 in
  let rval := nth (lenxp - 1) fp 0 in
  if Nat.eqb lenxp 1 then
    Ok (if Qltb x_val (nth 0 xp 0) then lval
        else if Qltb (nth 0 xp 0) x_val then rval
        else nth 0 fp 0)
  else
    let j := binary_search_with_guess x_val xp in
    if Z.eqb j (-1) then Ok lval
    else if Z.eqb j (Z.of_nat lenxp) then Ok rval
    else
      let j := Z.to_nat j in
      if Nat.eqb j (lenxp - 1) then Ok (nth j fp 0)
      else if Qeq_bool (nth j xp 0) x_val then Ok (nth j fp 0)
      else if Qeq_bool (nth (j + 1) xp 0 - nth j xp 0) 0 then Raise NonFinite
      else
        let slope :=
          (nth (j + 1) fp 0 - nth j fp 0) / (nth (j + 1) xp 0 - nth j xp 0) in
        Ok (slope * (x_val - nth j xp 0) + nth j fp 0).

Fixpoint map_result {A B : Type} (f : A -> result B) (l : list A)
  : result (list B) :=
  match l with
  | [] => Ok []
  | a :: l' => b <- f a ;; bs <- map_result f l' ;; Ok (b :: bs)
  end.

Definition interp (x xp fp : list Q) : result (list Q) :=
  match xp with
  | [] => Raise ValueError
  | _ => if Nat.eqb (length fp) (length xp) then map_result (interp_at xp fp) x
         else Raise ValueError
  end.

End np.

(** ** [interpolate_angles] *)

(** One pass of the loop body at index [i], on the current content of
    [angles]. *)
Definition unwrap_step (angles : list Q) (i : nat) : list Q :=
  let diff := nth i angles 0 - nth (i - 1) angles 0 in
  if Qltb 180 (Qabs diff) then
    if Qltb 0 diff then np.slice_isub i 360 angles
    else np.slice_iadd i 360 angles
  else angles.

(** [for i in range(1, len(angles)): ...] *)
Definition unwrap (angles : list Q) : list Q :=
  fold_left unwrap_step (seq 1 (length angles - 1)) angles.

Definition interpolate_angles (times angles target_times : list Q)
  : result (list Q) :=
  let angles := unwrap angles in
  v <- np.interp target_times times angles ;;
  Ok (np.remainder v 360).

(** ** [resample_positions] *)

Definition resample_positions (positions : list (list Q))
    (source_fps target_fps : Q) : result (list (list Q)) :=
  if Qeq_bool source_fps target_fps then Ok positions
  else
    pos_array <- np.array positions ;;
    original_times <- np.divide (np.arange_n (length positions)) source_fps ;;
    stop <- np.last_item original_times ;;
    step <- py_div 1 target_fps ;;
    target_times <- np.arange 0 stop step ;;
    let resampled := np.zeros (length target_times) 6 in
    resampled <-
      for_each [0; 1; 2]%nat
        (fun resampled i =>
           col <- np.column pos_array i ;;
           v <- np.interp target_times original_times col ;;
           np.set_column resampled i v)
        resampled ;;
    resampled <-
      for_each [3; 4; 5]%nat
        (fun resampled i =>
           col <- np.column pos_array i ;;
           v <- interpolate_angles original_times col target_times ;;
           np.set_column resampled i v)
        resampled ;;
    Ok resampled.

(** ** The parsed demo

    What [parse_demo] hands over: directories with a name, a frame count, a
    recorded time and frame records.  A frame record may or may not have a
    [client_data] attribute, and that may or may not carry a position and a
    rotation. *)

Module Demo.

Record vec3 : Set := { x : Q; y : Q; z : Q }.
Record angles : Set := { roll : Q; pitch : Q; yaw : Q }.

Record client_data_t : Set := {
  position : option vec3;
  rotation : option angles
}.

Record macro : Set := { client_data : option client_data_t }.

Record directory : Set := {
  name : string;
  frames : Z;
  time : Q;
  macros : list macro
}.

Record t : Set := { directories : list directory }.

End Demo.

(** Attribute access on an object that may lack the attribute. *)
Definition getattr {A B : Type} (field : A -> option B) (o : A) : result B :=
  match field o with
  | Some b => Ok b
  | None => Raise AttributeError
  end.

(** ** [analyze_demo]: extraction *)

(** The body of the [try] for one frame record; the result is [positions]
    after it. *)
Definition try_macro (positions : list (list Q)) (macro : Demo.macro)
  : result (list (list Q)) :=
  match Demo.client_data macro with
  | Some client_data =>
      pos <- getattr Demo.position client_data ;;
      rot <- getattr Demo.rotation client_data ;;
      Ok (positions ++
          [[- Demo.y pos; Demo.z pos + 16; - Demo.x pos;
            - Demo.roll rot; - Demo.pitch rot; Demo.yaw rot]])
  | None => Ok positions
  end.

(** [try: ... except: continue] *)
Definition macro_step (positions : list (list Q)) (macro : Demo.macro)
  : list (list Q) :=
  match try_macro positions macro with
  | Ok positions' => positions'
  | Raise _ => positions
  end.

(** The body of [for directory in demo.directories], on the pair of
    [positions] and [source_frame_time]. *)
Definition directory_step (st : list (list Q) * Q) (directory : Demo.directory)
  : result (list (list Q) * Q) :=
  let '(positions, source_frame_time) := st in
  if String.eqb (Demo.name directory) "Playback" then
    source_frame_time <-
      (if (0 <? Demo.frames directory)%Z
       then py_div (Demo.time directory) (inject_Z (Demo.frames directory))
       else Ok source_frame_time) ;;
    Ok (fold_left macro_step (Demo.macros directory) positions,
        source_frame_time)
  else Ok st.

(** Lines 59 to 77: the extracted track and the source frame time. *)
Definition extract (demo : Demo.t) : result (list (list Q) * Q) :=
  for_each (Demo.directories demo) directory_step ([], 1 / 60).

(** Lines 59 to 80: the extracted track and the source rate. *)
Definition source_track (demo : Demo.t) : result (list (list Q) * Q) :=
  st <- extract demo ;;
  let '(positions, source_frame_time) := st in
  source_fps <- py_div 1 source_frame_time ;;
  Ok (positions, source_fps).

(** ** [analyze_demo]: the BVH text *)

Definition nl : string := String "010"%char EmptyString.
Definition tab : string := String "009"%char EmptyString.

Definition str_of_nat (n : nat) : string :=
  NilZero.string_of_uint (Nat.to_uint n).

Definition str_of_Z (n : Z) : string :=
  NilZero.string_of_uint (N.to_uint (Z.to_N n)).

Definition digit (d : Z) : ascii := ascii_of_nat (48 + Z.to_nat (d mod 10)).

(** The last [k] decimal digits of [n], in front of [acc]. *)
Fixpoint digits_fixed (k : nat) (n : Z) (acc : string) : string :=
  match k with
  | O => acc
  | S k' => digits_fixed k' (n / 10) (String (digit n) acc)
  end.

Definition round_half_even (q : Q) : Z :=
  let f := Qfloor q in
  match Qcompare (q - inject_Z f) (1 # 2) with
  | Lt => f
  | Gt => (f + 1)%Z
  | Eq => if Z.even f then f else (f + 1)%Z
  end.

(** [f"{q:.6f}"]: sign, integer part, point, six digits; the value is
    rounded to the nearest millionth, ties to even. *)
Definition format_6f (q : Q) : string :=
  let n := round_half_even (Qabs q * 1000000) in
  ((if Qltb q 0 then "-" else "") ++
   str_of_Z (n / 1000000) ++ "." ++ digits_fixed 6 n "")%string.

(** [pos[k]] on a tuple or list. *)
Definition getitem (pos : list Q) (k : nat) : result Q :=
  match nth_error pos k with
  | Some v => Ok v
  | None => Raise IndexError
  end.

(** The text written for one pose, line 110 to 112. *)
Definition pose_line (pos : list Q) : result string :=
  p0 <- getitem pos 0 ;;
  p1 <- getitem pos 1 ;;
  p2 <- getitem pos 2 ;;
  p3 <- getitem pos 3 ;;
  p4 <- getitem pos 4 ;;
  p5 <- getitem pos 5 ;;
  Ok (format_6f p0 ++ " " ++ format_6f p1 ++ " " ++ format_6f p2 ++ " " ++
      format_6f p3 ++ " " ++ format_6f p4 ++ " " ++ format_6f p5 ++ nl)%string.

(** [out.write(s)] on the text written so far. *)
Definition write (out s : string) : string := (out ++ s)%string.

Definition write_header (out : string) : string :=
  let out := write out ("HIERARCHY" ++ nl) in
  let out := write out ("ROOT MdtCam" ++ nl) in
  let out := write out ("{" ++ nl) in
  let out := write out (tab ++ "OFFSET 0.00 0.00 0.00" ++ nl) in
  let out :=
    write out
      (tab ++
       "CHANNELS 6 Xposition Yposition Zposition Zrotation Xrotation Yrotation"
       ++ nl) in
  let out := write out (tab ++ "End Site" ++ nl) in
  let out := write out (tab ++ "{" ++ nl) in
  let out := write out (tab ++ tab ++ "OFFSET 0.00 0.00 -1.00" ++ nl) in
  let out := write out (tab ++ "}" ++ nl) in
  write out ("}" ++ nl).

Definition write_motion (out : string) (positions : list (list Q))
    (target_frame_time : Q) : result string :=
  let out := write out ("MOTION" ++ nl) in
  let out :=
    write out ("Frames: " ++ str_of_nat (length positions) ++ nl) in
  let out :=
    write out ("Frame Time: " ++ format_6f target_frame_time ++ nl) in
  for_each positions
    (fun out pos => line <- pose_line pos ;; Ok (write out line))
    out.

(** Lines 85 to 112: the content of the output file, when the writing gets
    to its end. *)
Definition write_bvh (positions : list (list Q)) (target_fps : Q)
  : result string :=
  target_frame_time <- py_div 1 target_fps ;;
  write_motion (write_header "") positions target_frame_time.

(** ** [analyze_demo]

    From the parsed demo to the content of the output file. *)
Definition analyze_demo (demo : Demo.t) (target_fps : Z) : result string :=
  st <- source_track demo ;;
  let '(positions, source_fps) := st in
  positions <-
    (if negb (Qeq_bool source_fps (inject_Z target_fps))
     then resample_positions positions source_fps (inject_Z target_fps)
     else Ok positions) ;;
  write_bvh positions (inject_Z target_fps).

(** ** The same functions on a store of objects

    Python lists and NumPy arrays are objects: a name is bound to a
    reference, [m[:, i]] is a view that shares the data of [m], and
    [a[i:] -= c] changes the object [a] refers to.  Here a reference is a
    location of a heap, [np.array] and the NumPy functions that return an
    array allocate, and a slice update writes through the handle it is given. *)

Module Heap.

Definition loc := nat.

Inductive obj : Type :=
| Vec (data : list Q)            (* a one-dimensional array *)
| Rows (rows : list (list Q)).   (* a list of poses, or a two-dimensional array *)

Definition heap := list obj.

(** One-dimensional data: an array of its own, or column [i] of the
    two-dimensional array at [l]. *)
Inductive arr : Set :=
| Own (l : loc)
| Col (l : loc) (i : nat).

Definition M (A : Type) : Type := heap -> heap * result A.

Definition ret {A : Type} (a : A) : M A := fun h => (h, Ok a).

Definition mbind {A B : Type} (m : M A) (k : A -> M B) : M B :=
  fun h =>
    match m h with
    | (h', Ok a) => k a h'
    | (h', Raise e) => (h', Raise e)
    end.

Notation "x <~ m ;; k" := (mbind m (fun x => k))
  (at level 61, m at next level, right associativity).

Definition lift {A : Type} (r : result A) : M A := fun h => (h, r).

Definition alloc (o : obj) : M loc := fun h => (h ++ [o], Ok (length h)).

Definition update (l : loc) (o : obj) (h : heap) : heap :=
  firstn l h ++ o :: skipn (S l) h.

Definition load_rows (l : loc) : M (list (list Q)) :=
  fun h =>
    match nth_error h l with
    | Some (Rows m) => (h, Ok m)
    | _ => (h, Raise TypeError)
    end.

Definition store_rows (l : loc) (m : list (list Q)) : M unit :=
  fun h =>
    match nth_error h l with
    | Some (Rows _) => (update l (Rows m) h, Ok tt)
    | _ => (h, Raise TypeError)
    end.

Definition load (a : arr) : M (list Q) :=
  fun h =>
    match a with
    | Own l =>
        match nth_error h l with
        | Some (Vec d) => (h, Ok d)
        | _ => (h, Raise TypeError)
        end
    | Col l i =>
        match nth_error h l with
        | Some (Rows m) => (h, np.column m i)
        | _ => (h, Raise TypeError)
        end
    end.

(** Writing through a handle: into the array, or into the column of the
    array the view belongs to. *)
Definition store_vec (a : arr) (d : list Q) : M unit :=
  fun h =>
    match a with
    | Own l =>
        match nth_error h l with
        | Some (Vec _) => (update l (Vec d) h, Ok tt)
        | _ => (h, Raise TypeError)
        end
    | Col l i =>
        match nth_error h l with
        | Some (Rows m) => (update l (Rows (np.set_column_rows m i d)) h, Ok tt)
        | _ => (h, Raise TypeError)
        end
    end.

Fixpoint for_each {B : Type} (l : list B) (f : B -> M unit) : M unit :=
  match l with
  | [] => ret tt
  | b :: l' => _ <~ f b ;; for_each l' f
  end.

(** [np.array(a)]: a new array holding a copy of the data of [a]. *)
Definition np_array (a : arr) : M arr :=
  d <~ load a ;; l <~ alloc (Vec d) ;; ret (Own l).

Definition len (a : arr) : M nat := d <~ load a ;; ret (length d).

Definition item (a : arr) (i : nat) : M Q := d <~ load a ;; ret (nth i d 0).

(** [a[i:] -= c] and [a[i:] += c], in place. *)
Definition slice_isub (a : arr) (i : nat) (c : Q) : M unit :=
  d <~ load a ;; store_vec a (np.slice_isub i c d).

Definition slice_iadd (a : arr) (i : nat) (c : Q) : M unit :=
  d <~ load a ;; store_vec a (np.slice_iadd i c d).

Definition np_interp (x xp fp : arr) : M arr :=
  xv <~ load x ;;
  xpv <~ load xp ;;
  fpv <~ load fp ;;
  v <~ lift (np.interp xv xpv fpv) ;;
  l <~ alloc (Vec v) ;;
  ret (Own l).

Definition np_remainder (a : arr) (m : Q) : M arr :=
  d <~ load a ;; l <~ alloc (Vec (np.remainder d m)) ;; ret (Own l).

Definition unwrap_step (angles : arr) (i : nat) : M unit :=
  ai <~ item angles i ;;
  ap <~ item angles (i - 1) ;;
  let diff := ai - ap in
  if Qltb 180 (Qabs diff) then
    if Qltb 0 diff then slice_isub angles i 360
    else slice_iadd angles i 360
  else ret tt.

Definition interpolate_angles (times angles target_times : arr) : M arr :=
  angles <~ np_array angles ;;
  n <~ len angles ;;
  _ <~ for_each (seq 1 (n - 1)) (unwrap_step angles) ;;
  v <~ np_interp target_times times angles ;;
  np_remainder v 360.

(** [m[:, i]] as a view. *)
Definition view_column (m : loc) (i : nat) : M arr :=
  rows <~ load_rows m ;; _ <~ lift (np.column rows i) ;; ret (Col m i).

(** [m[:, i] = v] *)
Definition assign_column (m : loc) (i : nat) (v : arr) : M unit :=
  d <~ load v ;;
  rows <~ load_rows m ;;
  rows' <~ lift (np.set_column rows i d) ;;
  store_rows m rows'.

Definition resample_positions (positions : loc) (source_fps target_fps : Q)
  : M loc :=
  if Qeq_bool source_fps target_fps then ret positions
  else
    rows <~ load_rows positions ;;
    m <~ lift (np.array rows) ;;
    pos_array <~ alloc (Rows m) ;;
    ot <~ lift (np.divide (np.arange_n (length rows)) source_fps) ;;
    original_times <~ alloc (Vec ot) ;;
    stop <~ lift (np.last_item ot) ;;
    step <~ lift (py_div 1 target_fps) ;;
    grid <~ lift (np.arange 0 stop step) ;;
    target_times <~ alloc (Vec grid) ;;
    resampled <~ alloc (Rows (np.zeros (length grid) 6)) ;;
    _ <~ for_each [0; 1; 2]%nat
           (fun i =>
              col <~ view_column pos_array i ;;
              v <~ np_interp (Own target_times) (Own original_times) col ;;
              assign_column resampled i v) ;;
    _ <~ for_each [3; 4; 5]%nat
           (fun i =>
              col <~ view_column pos_array i ;;
              v <~ interpolate_angles (Own original_times) col
                     (Own target_times) ;;
              assign_column resampled i v) ;;
    rows <~ load_rows resampled ;;
    alloc (Rows rows).

(** The loop of [interpolate_angles] run on the caller's array itself, as
    the function would be without its first line. *)
Definition unwrap_in_place (angles : arr) : M unit :=
  n <~ len angles ;;
  for_each (seq 1 (n - 1)) (unwrap_step angles).

End Heap.

(** ** Reading the extraction and the output text

    [exposed_pose] is the pose a frame record contributes, if any, and
    [frame_time_step] the source frame time after a directory; [lines] cuts
    a text at its line ends. *)
Definition exposed_pose (macro : Demo.macro) : list (list Q) :=
  match Demo.client_data macro with
  | Some {| Demo.position := Some pos; Demo.rotation := Some rot |} =>
      [[- Demo.y pos; Demo.z pos + 16; - Demo.x pos;
        - Demo.roll rot; - Demo.pitch rot; Demo.yaw rot]]
  | _ => []
  end.

Definition exposes (macro : Demo.macro) : bool :=
  match Demo.client_data macro with
  | Some {| Demo.position := Some _; Demo.rotation := Some _ |} => true
  | _ => false
  end.

Definition playback_poses (directory : Demo.directory) : list (list Q) :=
  if String.eqb (Demo.name directory) "Playback"
  then flat_map exposed_pose (Demo.macros directory)
  else [].

Definition frame_time_step (source_frame_time : Q) (directory : Demo.directory)
  : Q :=
  if String.eqb (Demo.name directory) "Playback" then
    if (0 <? Demo.frames directory)%Z
    then Demo.time directory / inject_Z (Demo.frames directory)
    else source_frame_time
  else source_frame_time.

Fixpoint lines_from (cur s : string) : list string :=
  match s with
  | EmptyString => match cur with EmptyString => [] | _ => [cur] end
  | String c s' =>
      if Ascii.eqb c "010" then cur :: lines_from "" s'
      else lines_from (cur ++ String c "") s'
  end.

Definition lines (s : string) : list string := lines_from "" s.

(** The text made of the given lines, each closed by a line end. *)
Fixpoint unlines (ls : list string) : string :=
  match ls with
  | [] => ""
  | l :: ls' => (l ++ nl ++ unlines ls')%string
  end.

Fixpoint no_newline (s : string) : bool :=
  match s with
  | EmptyString => true
  | String c s' => negb (Ascii.eqb c "010") && no_newline s'
  end.

Definition header_lines : list string :=
  ["HIERARCHY";
   "ROOT MdtCam";
   "{";
   tab ++ "OFFSET 0.00 0.00 0.00";
   tab ++
   "CHANNELS 6 Xposition Yposition Zposition Zrotation Xrotation Yrotation";
   tab ++ "End Site";
   tab ++ "{";
   tab ++ tab ++ "OFFSET 0.00 0.00 -1.00";
   tab ++ "}";
   "}"]%string.

(** A pose as its line of text: the values separated by single spaces. *)
Definition pose_text (pos : list Q) : string :=
  String.concat " " (map format_6f pos).

(** ** Frames on the heap

    [kept h0 h]: the heap [h] still begins with the objects of [h0],
    unchanged.  [keeps h0 m P]: from any such heap, [m] leads to such a heap,
    and a value it returns satisfies [P].  A handle is [fresh] when its
    object was allocated after [h0]. *)
Definition kept (h0 h : Heap.heap) : Prop := firstn (length h0) h = h0.

Definition fresh (h0 : Heap.heap) (a : Heap.arr) : Prop :=
  match a with
  | Heap.Own l => (length h0 <= l)%nat
  | Heap.Col l _ => (length h0 <= l)%nat
  end.

Definition keeps {A : Type} (h0 : Heap.heap) (m : Heap.M A) (P : A -> Prop)
  : Prop :=
  forall h, kept h0 h ->
            kept h0 (fst (m h)) /\ forall a, snd (m h) = Ok a -> P a.

(** ** Reading the heap

    The content a handle or a location stands for, and the heaps in which
    the result array of [resample_positions] sits right after [base]. *)
Definition read (h : Heap.heap) (a : Heap.arr) : result (list Q) :=
  snd (Heap.load a h).

Definition read_rows (h : Heap.heap) (l : Heap.loc)
  : result (list (list Q)) :=
  snd (Heap.load_rows l h).

Definition shaped (base : Heap.heap) (res : list (list Q)) (h : Heap.heap)
  : Prop :=
  exists junk, h = base ++ Heap.Rows res :: junk.

(** [m], run on a heap that holds the result array [res], does to it what
    [f] does to [res], and fails as [f] fails. *)
Definition simulates (base : Heap.heap)
    (f : list (list Q) -> result (list (list Q))) (m : Heap.M unit) : Prop :=
  forall res h,
    shaped base res h ->
    match f res with
    | Ok res' => exists h', m h = (h', Ok tt) /\ shaped base res' h'
    | Raise e => exists h', m h = (h', Raise e)
    end.

(** ** The unwrap step, as the specification words it

    Walking the samples in order: where the difference between two
    consecutive raw values exceeds 180 in absolute value, -360 (for a
    positive jump) or +360 (for a negative one) is added to every sample
    from there on. *)
Definition unwrap_spec_step (raw acc : list Q) (i : nat) : list Q :=
  let jump := nth i raw 0 - nth (i - 1) raw 0 in
  if Qltb 180 (Qabs jump) then
    if Qltb 0 jump then np.slice_iadd i (-360) acc
    else np.slice_iadd i 360 acc
  else acc.

Definition unwrap_spec (raw : list Q) : list Q :=
  fold_left (unwrap_spec_step raw) (seq 1 (length raw - 1)) raw.

(** [np.arange(n) / s], for a nonzero [s]: the source times. *)
Definition source_times (n : nat) (s : Q) : list Q :=
  map (fun k => Q_of_nat k / s) (seq 0 n).

(** ** The result of a resampling, step by step

    [zip6] puts six columns side by side; [Resampled] names every
    intermediate value of the general path of [resample_positions]. *)
Fixpoint zip6 (a b c d e f : list Q) : list (list Q) :=
  match a, b, c, d, e, f with
  | x0 :: a', x1 :: b', x2 :: c', x3 :: d', x4 :: e', x5 :: f' =>
      [x0; x1; x2; x3; x4; x5] :: zip6 a' b' c' d' e' f'
  | _, _, _, _, _, _ => []
  end.

Inductive Resampled (positions : list (list Q)) (source_fps target_fps : Q)
    (out : list (list Q)) : Prop :=
| Resampled_intro
    (original_times target_times : list Q) (stop step : Q)
    (c0 c1 c2 c3 c4 c5 v0 v1 v2 v3 v4 v5 : list Q)
    (R_width : np.same_width positions = true)
    (R_times : np.divide (np.arange_n (length positions)) source_fps
               = Ok original_times)
    (R_stop : np.last_item original_times = Ok stop)
    (R_step : py_div 1 target_fps = Ok step)
    (R_grid : np.arange 0 stop step = Ok target_times)
    (R_c0 : np.column positions 0 = Ok c0)
    (R_v0 : np.interp target_times original_times c0 = Ok v0)
    (R_c1 : np.column positions 1 = Ok c1)
    (R_v1 : np.interp target_times original_times c1 = Ok v1)
    (R_c2 : np.column positions 2 = Ok c2)
    (R_v2 : np.interp target_times original_times c2 = Ok v2)
    (R_c3 : np.column positions 3 = Ok c3)
    (R_v3 : interpolate_angles original_times c3 target_times = Ok v3)
    (R_c4 : np.column positions 4 = Ok c4)
    (R_v4 : interpolate_angles original_times c4 target_times = Ok v4)
    (R_c5 : np.column positions 5 = Ok c5)
    (R_v5 : interpolate_angles original_times c5 target_times = Ok v5)
    (R_out : out = zip6 v0 v1 v2 v3 v4 v5).

(** ** What the unwrap adds to a sample

    [correction raw i] is what the loop adds from index [i] on, and
    [offset raw j] what it has added to sample [j] in the end. *)
Definition correction (raw : list Q) (i : nat) : Q :=
  let jump := nth i raw 0 - nth (i - 1) raw 0 in
  if Qltb 180 (Qabs jump) then
    if Qltb 0 jump then - (360) else 360
  else 0.

Fixpoint offset (raw : list Q) (j : nat) : Q :=
  match j with
  | O => 0
  | S j' => offset raw j' + correction raw j
  end.

(** ** One output pose

    [PoseAt positions s x pose]: [pose] is what the general path of
    [resample_positions] computes for the target time [x], channel by
    channel, from a track sampled at rate [s]. *)
Inductive PoseAt (positions : list (list Q)) (s x : Q) (pose : list Q)
  : Prop :=
| PoseAt_intro
    (c0 c1 c2 c3 c4 c5 : list Q) (y0 y1 y2 w3 w4 w5 : Q)
    (P_c0 : np.column positions 0 = Ok c0)
    (P_c1 : np.column positions 1 = Ok c1)
    (P_c2 : np.column positions 2 = Ok c2)
    (P_c3 : np.column positions 3 = Ok c3)
    (P_c4 : np.column positions 4 = Ok c4)
    (P_c5 : np.column positions 5 = Ok c5)
    (P_y0 : np.interp_at (source_times (length positions) s) c0 x = Ok y0)
    (P_y1 : np.interp_at (source_times (length positions) s) c1 x = Ok y1)
    (P_y2 : np.interp_at (source_times (length positions) s) c2 x = Ok y2)
    (P_w3 : np.interp_at (source_times (length positions) s) (unwrap c3) x
            = Ok w3)
    (P_w4 : np.interp_at (source_times (length positions) s) (unwrap c4) x
            = Ok w4)
    (P_w5 : np.interp_at (source_times (length positions) s) (unwrap c5) x
            = Ok w5)
    (P_pose : pose = [y0; y1; y2; py_mod w3 360; py_mod w4 360;
                      py_mod w5 360]).

(** ** A small demo

    Two directories; the one named Playback has three frame records, the
    second of them without [client_data]. *)
Definition two_frame_demo : Demo.t :=
  {| Demo.directories :=
       [{| Demo.name := "LOADING"; Demo.frames := 9; Demo.time := 1;
           Demo.macros := [] |};
        {| Demo.name := "Playback"; Demo.frames := 2; Demo.time := 1 # 15;
           Demo.macros :=
             [{| Demo.client_data :=
                   Some {| Demo.position :=
                             Some {| Demo.x := 1; Demo.y := 2; Demo.z := 3 |};
                           Demo.rotation :=
                             Some {| Demo.roll := 5; Demo.pitch := 10;
                                     Demo.yaw := 350 |} |} |};
              {| Demo.client_data := None |};
              {| Demo.client_data :=
                   Some {| Demo.position :=
                             Some {| Demo.x := 2; Demo.y := 2; Demo.z := 3 |};
                           Demo.rotation :=
                             Some {| Demo.roll := 5; Demo.pitch := 10;
                                     Demo.yaw := 10 |} |} |}] |}] |}.

(** ** Binary64

    A Python float and a NumPy [float64] is an IEEE 754 binary64 number:
    NaN, an infinity, or [(-1)^neg * m * 2^e] with [m < 2^53] and
    [-1074 <= e <= 971], where [m >= 2^52] unless [e = -1074].  Every
    operation returns the representable number nearest to the exact result,
    ties to the even mantissa: [round] writes the rounding out on the exact
    rational. *)

Module B64.

Inductive float : Set :=
| NaN
| Inf (neg : bool)
| Fin (neg : bool) (m e : Z).

Definition pow2 (e : Z) : Q := Qpower 2 e.

Definition mag (m e : Z) : Q := inject_Z m * pow2 e.

(** The number a finite float stands for (0 for the others). *)
Definition val (x : float) : Q :=
  match x with
  | Fin s m e => if s then - mag m e else mag m e
  | _ => 0
  end.

Definition zero (s : bool) : float := Fin s 0 (-1074).

Definition is_nan (x : float) : bool :=
  match x with NaN => true | _ => false end.

Definition is_finite (x : float) : bool :=
  match x with Fin _ _ _ => true | _ => false end.

Definition valid (x : float) : bool :=
  match x with
  | Fin _ m e =>
      (0 <=? m)%Z && (m <? 2 ^ 53)%Z && (-1074 <=? e)%Z && (e <=? 971)%Z
      && ((2 ^ 52 <=? m)%Z || (e =? -1074)%Z)
  | _ => true
  end.

(** [floor (log2 q)] for a positive [q]. *)
Definition ilog2 (q : Q) : Z :=
  let l := (Z.log2 (Qnum q) - Z.log2 (Zpos (Qden q)))%Z in
  if Qle_bool (pow2 l) q then l else (l - 1)%Z.

(** The float of sign [s] nearest to the magnitude [q >= 0]: 53 significant
    bits, no bit below [2^-1074], an infinity from [2^1024 - 2^970] on. *)
Definition round (s : bool) (q : Q) : float :=
  if Qeq_bool q 0 then zero s
  else
    let e := Z.max (ilog2 q - 52) (-1074) in
    let m := round_half_even (q / pow2 e) in
    let '(m, e) := if (m =? 2 ^ 53)%Z then (2 ^ 52, e + 1)%Z else (m, e) in
    if (971 <? e)%Z then Inf s else Fin s m e.

Definition of_Q (q : Q) : float := round (Qltb q 0) (Qabs q).

Definition of_Z (n : Z) : float := of_Q (inject_Z n).

Definition of_nat (n : nat) : float := of_Z (Z.of_nat n).

Definition opp (x : float) : float :=
  match x with
  | NaN => NaN
  | Inf s => Inf (negb s)
  | Fin s m e => Fin (negb s) m e
  end.

Definition abs (x : float) : float :=
  match x with
  | NaN => NaN
  | Inf _ => Inf false
  | Fin _ m e => Fin false m e
  end.

Definition add (x y : float) : float :=
  match x, y with
  | NaN, _ | _, NaN => NaN
  | Inf s, Inf s' => if Bool.eqb s s' then Inf s else NaN
  | Inf s, Fin _ _ _ => Inf s
  | Fin _ _ _, Inf s => Inf s
  | Fin s _ _, Fin s' _ _ =>
      let q := val x + val y in
      if Qeq_bool q 0 then zero (s && s') else of_Q q
  end.

Definition sub (x y : float) : float := add x (opp y).

Definition mul (x y : float) : float :=
  match x, y with
  | NaN, _ | _, NaN => NaN
  | Inf s, Inf s' => Inf (xorb s s')
  | Inf s, Fin s' m _ | Fin s' m _, Inf s =>
      if (m =? 0)%Z then NaN else Inf (xorb s s')
  | Fin s _ _, Fin s' _ _ => round (xorb s s') (Qabs (val x * val y))
  end.

Definition div (x y : float) : float :=
  match x, y with
  | NaN, _ | _, NaN => NaN
  | Inf _, Inf _ => NaN
  | Inf s, Fin s' _ _ => Inf (xorb s s')
  | Fin s _ _, Inf s' => zero (xorb s s')
  | Fin s m _, Fin s' m' _ =>
      if (m' =? 0)%Z then (if (m =? 0)%Z then NaN else Inf (xorb s s'))
      else round (xorb s s') (Qabs (val x / val y))
  end.

Definition ltb (x y : float) : bool :=
  match x, y with
  | NaN, _ | _, NaN => false
  | Inf s, Inf s' => s && negb s'
  | Inf s, Fin _ _ _ => s
  | Fin _ _ _, Inf s => negb s
  | Fin _ _ _, Fin _ _ _ => Qltb (val x) (val y)
  end.

Definition eqb (x y : float) : bool :=
  match x, y with
  | NaN, _ | _, NaN => false
  | Inf s, Inf s' => Bool.eqb s s'
  | Fin _ _ _, Fin _ _ _ => Qeq_bool (val x) (val y)
  | _, _ => false
  end.

Definition leb (x y : float) : bool := ltb x y || eqb x y.

(** C's [fmod]: the exact remainder of the division truncated towards
    zero, with the sign of [x]. *)
Definition fmod (x y : float) : float :=
  match x, y with
  | NaN, _ | _, NaN => NaN
  | Inf _, _ => NaN
  | Fin _ _ _, Inf _ => x
  | Fin s _ _, Fin _ m' _ =>
      if (m' =? 0)%Z then NaN
      else
        let a := Qabs (val x) in
        let b := Qabs (val y) in
        round s (a - inject_Z (Qfloor (a / b)) * b)
  end.

(** [x % y] on floats, in Python and in NumPy: [fmod], moved by [y] when
    its sign differs from the sign of [y]; a zero result takes the sign of
    [y]. *)
Definition remainder (x y : float) : float :=
  let r := fmod x y in
  if eqb y (zero false) then r
  else if negb (eqb r (zero false)) then
    if xorb (ltb y (zero false)) (ltb r (zero false)) then add r y else r
  else
    match y with
    | Fin s _ _ | Inf s => zero s
    | NaN => zero false
    end.

End B64.

(** ** The program on binary64

    The same functions as above, computing as the program does: every
    arithmetic step is a binary64 operation, infinities and NaN are values,
    and only what Python raises is an exception.  The compiled loop of
    [np.interp] is taken without fused multiply-add. *)

Module Fl.

Definition float : Set := B64.float.

(** A literal, or the float of a decimal numeral. *)
Definition lit (q : Q) : float := B64.of_Q q.

Definition f0 : float := B64.zero false.

(** [float(n)] for a Python int, as in [x / n]. *)
Definition float_of_int (n : Z) : result float :=
  match B64.of_Z n with
  | B64.Fin s m e => Ok (B64.Fin s m e)
  | _ => Raise OverflowError
  end.

(** [a / b] on Python floats. *)
Definition float_div (a b : float) : result float :=
  if B64.eqb b f0 then Raise ZeroDivisionError else Ok (B64.div a b).

(** [a / b] on Python ints: the float nearest to the quotient. *)
Definition int_div (a b : Z) : result float :=
  if (b =? 0)%Z then Raise ZeroDivisionError
  else
    match B64.round (xorb (a <? 0)%Z (b <? 0)%Z)
                    (Qabs (inject_Z a / inject_Z b)) with
    | B64.Fin s m e => Ok (B64.Fin s m e)
    | _ => Raise OverflowError
    end.

(** [x == n] for a float and an int: Python compares the exact values. *)
Definition float_eq_int (x : float) (n : Z) : bool :=
  match x with
  | B64.Fin _ _ _ => Qeq_bool (B64.val x) (inject_Z n)
  | _ => false
  end.

Module np.

(** [np.arange(n)], an array of ints. *)
Definition arange_n (n : nat) : list nat := seq 0 n.

(** [arr / c] for an int array and a float: element by element, without
    raising. *)
Definition divide (arr : list nat) (c : float) : list float :=
  map (fun a => B64.div (B64.of_nat a) c) arr.

(** [arr[-1]] *)
Definition last_item (arr : list float) : result float :=
  match arr with
  | [] => Raise IndexError
  | _ => Ok (nth (length arr - 1) arr f0)
  end.

(** The length of [np.arange(start, stop, step)]: the ceiling of the
    binary64 quotient [(stop - start) / step], which must be a number within
    the range of an index; nothing when it is not positive. *)
Definition arange_len (start stop step : float) : result nat :=
  match B64.div (B64.sub stop start) step with
  | B64.NaN => Raise ValueError
  | B64.Inf _ => Raise OverflowError
  | B64.Fin s m e =>
      let n := Qceiling (B64.val (B64.Fin s m e)) in
      if (n <? - 2 ^ 63)%Z || (2 ^ 63 <? n)%Z then Raise OverflowError
      else Ok (Z.to_nat n)
  end.

(** [np.arange(start, stop, step)]: the first two elements are [start] and
    [start + step], the others [start + k * delta] with [delta] the
    difference of the first two. *)
Definition arange (start stop step : float) : result (list float) :=
  n <- arange_len start stop step ;;
  let next := B64.add start step in
  let delta := B64.sub next start in
  Ok (map (fun k =>
             match k with
             | O => start
             | S O => next
             | _ => B64.add start (B64.mul (B64.of_nat k) delta)
             end)
          (seq 0 n)).

Definition same_width (rows : list (list float)) : bool :=
  match rows with
  | [] => true
  | r :: rows' => forallb (fun r' => Nat.eqb (length r') (length r)) rows'
  end.

(** [np.array(rows)] *)
Definition array (rows : list (list float)) : result (list (list float)) :=
  if same_width rows then Ok rows else Raise ValueError.

(** [m[:, i]] *)
Definition column (m : list (list float)) (i : nat) : result (list float) :=
  match m with
  | [] => Raise IndexError
  | r :: _ => if Nat.ltb i (length r) then Ok (map (fun r' => nth i r' f0) m)
              else Raise IndexError
  end.

(** [np.zeros((n, w))] *)
Definition zeros (n w : nat) : list (list float) := repeat (repeat f0 w) n.

Definition set_nth (i : nat) (v : float) (r : list float) : list float :=
  firstn i r ++ v :: skipn (S i) r.

Fixpoint set_column_rows (m : list (list float)) (i : nat) (v : list float)
  : list (list float) :=
  match m, v with
  | r :: m', x :: v' => set_nth i x r :: set_column_rows m' i v'
  | _, _ => m
  end.

(** [m[:, i] = v] *)
Definition set_column (m : list (list float)) (i : nat) (v : list float)
  : result (list (list float)) :=
  if Nat.eqb (length v) (length m) then Ok (set_column_rows m i v)
  else match v with
       | [x] => Ok (set_column_rows m i (repeat x (length m)))
       | _ => Raise ValueError
       end.

(** [arr[i:] += c] and [arr[i:] -= c] *)
Definition slice_iadd (i : nat) (c : float) (arr : list float) : list float :=
  firstn i arr ++ map (fun a => B64.add a c) (skipn i arr).

Definition slice_isub (i : nat) (c : float) (arr : list float) : list float :=
  firstn i arr ++ map (fun a => B64.sub a c) (skipn i arr).

(** [arr % m] *)
Definition remainder (arr : list float) (m : float) : list float :=
  map (fun a => B64.remainder a m) arr.

(** The index search of [np.interp], as in the exact embedding. *)
Fixpoint linear_search (key : float) (arr : list float) (i : nat) : nat :=
  match arr with
  | [] => i
  | a :: arr' => if B64.leb a key then linear_search key arr' (S i) else i
  end.

Definition binary_search_with_guess (key : float) (arr : list float) : Z :=
  let len := length arr in
  if B64.ltb (nth (len - 1) arr f0) key then Z.of_nat len
  else if B64.ltb key (nth 0 arr f0) then (-1)%Z
  else (Z.of_nat (linear_search key (skipn 1 arr) 1) - 1)%Z.

(** One value of [np.interp].  A NaN key is returned as it is; where the
    line through the left sample gives NaN, the line through the right
    sample is tried. *)
Definition interp_at (xp fp : list float) (x_val : float) : float :=
  let lenxp := length xp in
  let lval := nth 0 fp f0 in
  let rval := nth (lenxp - 1) fp f0 in
  if Nat.eqb lenxp 1 then
    if B64.ltb x_val (nth 0 xp f0) then lval
    else if B64.ltb (nth 0 xp f0) x_val then rval
    else nth 0 fp f0
  else if B64.is_nan x_val then x_val
  else
    let j := binary_search_with_guess x_val xp in
    if Z.eqb j (-1) then lval
    else if Z.eqb j (Z.of_nat lenxp) then rval
    else
      let j := Z.to_nat j in
      if Nat.eqb j (lenxp - 1) then nth j fp f0
      else if B64.eqb (nth j xp f0) x_val then nth j fp f0
      else
        let slope :=
          B64.div (B64.sub (nth (j + 1) fp f0) (nth j fp f0))
                  (B64.sub (nth (j + 1) xp f0) (nth j xp f0)) in
        let r :=
          B64.add (B64.mul slope (B64.sub x_val (nth j xp f0))) (nth j fp f0) in
        if B64.is_nan r then
          let r' :=
            B64.add (B64.mul slope (B64.sub x_val (nth (j + 1) xp f0)))
                    (nth (j + 1) fp f0) in
          if B64.is_nan r' && B64.eqb (nth j fp f0) (nth (j + 1) fp f0)
          then nth j fp f0
          else r'
        else r.

Definition interp (x xp fp : list float) : result (list float) :=
  match xp with
  | [] => Raise ValueError
  | _ => if Nat.eqb (length fp) (length xp) then Ok (map (interp_at xp fp) x)
         else Raise ValueError
  end.

End np.

(** *** [interpolate_angles] *)

Definition unwrap_step (angles : list float) (i : nat) : list float :=
  let diff := B64.sub (nth i angles f0) (nth (i - 1) angles f0) in
  if B64.ltb (lit 180) (B64.abs diff) then
    if B64.ltb f0 diff then np.slice_isub i (lit 360) angles
    else np.slice_iadd i (lit 360) angles
  else angles.

Definition unwrap (angles : list float) : list float :=
  fold_left unwrap_step (seq 1 (length angles - 1)) angles.

Definition interpolate_angles (times angles target_times : list float)
  : result (list float) :=
  let angles := unwrap angles in
  v <- np.interp target_times times angles ;;
  Ok (np.remainder v (lit 360)).

(** *** [resample_positions] *)

Definition resample_positions (positions : list (list float))
    (source_fps : float) (target_fps : Z) : result (list (list float)) :=
  if float_eq_int source_fps target_fps then Ok positions
  else
    pos_array <- np.array positions ;;
    let original_times :=
      np.divide (np.arange_n (length positions)) source_fps in
    stop <- np.last_item original_times ;;
    step <- int_div 1 target_fps ;;
    target_times <- np.arange f0 stop step ;;
    let resampled := np.zeros (length target_times) 6 in
    resampled <-
      for_each [0; 1; 2]%nat
        (fun resampled i =>
           col <- np.column pos_array i ;;
           v <- np.interp target_times original_times col ;;
           np.set_column resampled i v)
        resampled ;;
    resampled <-
      for_each [3; 4; 5]%nat
        (fun resampled i =>
           col <- np.column pos_array i ;;
           v <- interpolate_angles original_times col target_times ;;
           np.set_column resampled i v)
        resampled ;;
    Ok resampled.

(** *** The BVH text *)

(** The decimal numeral of [n >= 0]: the last digit of [n] is put in front
    of [acc], then the digits of [n / 10]. *)
Fixpoint decimal_from (fuel : nat) (n : Z) (acc : string) : string :=
  match fuel with
  | O => acc
  | S fuel' =>
      let acc := String (digit n) acc in
      if (n <? 10)%Z then acc else decimal_from fuel' (n / 10) acc
  end.

(** [str(n)] for an int [n >= 0]. *)
Definition decimal (n : Z) : string :=
  decimal_from (S (Z.to_nat (Z.log2 n))) n "".

(** [f"{x:.6f}"]: the decimal expansion of the exact value of [x] rounded
    to six places, ties to even, after the sign of [x]; [nan] and [inf] for
    the others. *)
Definition format_6f (x : float) : string :=
  match x with
  | B64.NaN => "nan"
  | B64.Inf s => if s then "-inf" else "inf"
  | B64.Fin s m e =>
      let n := round_half_even (B64.mag m e * 1000000) in
      ((if s then "-" else "") ++
       decimal (n / 1000000) ++ "." ++ digits_fixed 6 n "")%string
  end.

Definition getitem (pos : list float) (k : nat) : result float :=
  match nth_error pos k with
  | Some v => Ok v
  | None => Raise IndexError
  end.

Definition pose_line (pos : list float) : result string :=
  p0 <- getitem pos 0 ;;
  p1 <- getitem pos 1 ;;
  p2 <- getitem pos 2 ;;
  p3 <- getitem pos 3 ;;
  p4 <- getitem pos 4 ;;
  p5 <- getitem pos 5 ;;
  Ok (format_6f p0 ++ " " ++ format_6f p1 ++ " " ++ format_6f p2 ++ " " ++
      format_6f p3 ++ " " ++ format_6f p4 ++ " " ++ format_6f p5 ++ nl)%string.

Definition write_motion (out : string) (positions : list (list float))
    (target_frame_time : float) : result string :=
  let out := write out ("MOTION" ++ nl) in
  let out :=
    write out ("Frames: " ++ decimal (Z.of_nat (length positions)) ++ nl) in
  let out :=
    write out ("Frame Time: " ++ format_6f target_frame_time ++ nl) in
  for_each positions
    (fun out pos => line <- pose_line pos ;; Ok (write out line))
    out.

(** Lines 85 to 112, with [target_frame_time = 1.0 / target_fps]. *)
Definition write_bvh (positions : list (list float)) (target_fps : Z)
  : result string :=
  fps <- float_of_int target_fps ;;
  target_frame_time <- float_div (lit 1) fps ;;
  write_motion (write_header "") positions target_frame_time.

(** A pose as its line of text. *)
Definition pose_text (pos : list float) : string :=
  String.concat " " (map format_6f pos).

(** *** Reading a run

    [zip6] and [Resampled] are those of the exact embedding; [unwrap_raw] is
    the unwrap decided on the raw samples, and [unwrap_scan] the unwrap as
    one pass that carries the corrections made so far ([true] for [- 360],
    [false] for [+ 360]). *)
Fixpoint zip6 (a b c d e f : list float) : list (list float) :=
  match a, b, c, d, e, f with
  | x0 :: a', x1 :: b', x2 :: c', x3 :: d', x4 :: e', x5 :: f' =>
      [x0; x1; x2; x3; x4; x5] :: zip6 a' b' c' d' e' f'
  | _, _, _, _, _, _ => []
  end.

Inductive Resampled (positions : list (list float)) (source_fps : float)
    (target_fps : Z) (out : list (list float)) : Prop :=
| Resampled_intro
    (target_times : list float) (stop step : float)
    (c0 c1 c2 c3 c4 c5 v0 v1 v2 v3 v4 v5 : list float)
    (R_width : np.same_width positions = true)
    (R_stop : np.last_item
                (np.divide (np.arange_n (length positions)) source_fps)
              = Ok stop)
    (R_step : int_div 1 target_fps = Ok step)
    (R_grid : np.arange f0 stop step = Ok target_times)
    (R_c0 : np.column positions 0 = Ok c0)
    (R_v0 : np.interp target_times
              (np.divide (np.arange_n (length positions)) source_fps) c0
            = Ok v0)
    (R_c1 : np.column positions 1 = Ok c1)
    (R_v1 : np.interp target_times
              (np.divide (np.arange_n (length positions)) source_fps) c1
            = Ok v1)
    (R_c2 : np.column positions 2 = Ok c2)
    (R_v2 : np.interp target_times
              (np.divide (np.arange_n (length positions)) source_fps) c2
            = Ok v2)
    (R_c3 : np.column positions 3 = Ok c3)
    (R_v3 : interpolate_angles
              (np.divide (np.arange_n (length positions)) source_fps) c3
              target_times
            = Ok v3)
    (R_c4 : np.column positions 4 = Ok c4)
    (R_v4 : interpolate_angles
              (np.divide (np.arange_n (length positions)) source_fps) c4
              target_times
            = Ok v4)
    (R_c5 : np.column positions 5 = Ok c5)
    (R_v5 : interpolate_angles
              (np.divide (np.arange_n (length positions)) source_fps) c5
              target_times
            = Ok v5)
    (R_out : out = zip6 v0 v1 v2 v3 v4 v5).

Definition unwrap_raw_step (raw acc : list float) (i : nat) : list float :=
  let jump := B64.sub (nth i raw f0) (nth (i - 1) raw f0) in
  if B64.ltb (lit 180) (B64.abs jump) then
    if B64.ltb f0 jump then np.slice_isub i (lit 360) acc
    else np.slice_iadd i (lit 360) acc
  else acc.

Definition unwrap_raw (raw : list float) : list float :=
  fold_left (unwrap_raw_step raw) (seq 1 (length raw - 1)) raw.

Definition correct (a : float) (down : bool) : float :=
  if down then B64.sub a (lit 360) else B64.add a (lit 360).

Fixpoint scan (prev : float) (made : list bool) (rest : list float)
  : list float :=
  match rest with
  | [] => []
  | a :: rest' =>
      let cur := fold_left correct made a in
      let diff := B64.sub cur prev in
      if B64.ltb (lit 180) (B64.abs diff) then
        let down := B64.ltb f0 diff in
        correct cur down :: scan (correct cur down) (made ++ [down]) rest'
      else cur :: scan cur made rest'
  end.

Definition unwrap_scan (angles : list float) : list float :=
  match angles with
  | [] => []
  | a :: rest => a :: scan a [] rest
  end.

(** A track that only turns: the given rotations in channel 3. *)
Definition rot_track (l : list Q) : list (list float) :=
  map (fun r => [f0; f0; f0; lit r; f0; f0]) l.

(** A rotation value after [% 360]: NaN, or a number from 0 to 360, both
    included. *)
Definition in_turn (v : float) : Prop :=
  v = B64.NaN \/ (B64.leb f0 v = true /\ B64.leb v (lit 360) = true).

End Fl.

(** ** Reading the written numbers

    What a reader of the file sees: [read_nat] reads a decimal numeral,
    [read_6f] a number written with a point and six decimals (the sign and
    the count of millionths), [fields] cuts a line at its spaces.
    [six_decimals x field]: the field is the value [x] written with six
    decimals, that is, it reads as the sign of [x] and the whole number of
    millionths nearest to [x]. *)
Definition digit_value (c : ascii) : option Z :=
  let n := nat_of_ascii c in
  if ((48 <=? n) && (n <=? 57))%nat then Some (Z.of_nat (n - 48)) else None.

Fixpoint read_digits (s : string) (acc : Z) : option Z :=
  match s with
  | EmptyString => Some acc
  | String c s' =>
      match digit_value c with
      | Some d => read_digits s' (10 * acc + d)
      | None => None
      end
  end.

Definition read_nat (s : string) : option Z :=
  match s with
  | EmptyString => None
  | _ => read_digits s 0
  end.

Fixpoint cut_at (c : ascii) (s : string) : option (string * string) :=
  match s with
  | EmptyString => None
  | String c' s' =>
      if Ascii.eqb c' c then Some (EmptyString, s')
      else match cut_at c s' with
           | Some (a, b) => Some (String c' a, b)
           | None => None
           end
  end.

Definition read_6f (s : string) : option (bool * Z) :=
  let '(neg, body) :=
    match s with
    | String c s' => if Ascii.eqb c "-" then (true, s') else (false, s)
    | EmptyString => (false, s)
    end in
  match cut_at "." body with
  | Some (whole, frac) =>
      if Nat.eqb (String.length frac) 6 then
        match read_nat whole, read_nat frac with
        | Some w, Some f => Some (neg, (w * 1000000 + f)%Z)
        | _, _ => None
        end
      else None
  | None => None
  end.

Fixpoint digits_only (s : string) : bool :=
  match s with
  | EmptyString => true
  | String c s' =>
      match digit_value c with
      | Some _ => digits_only s'
      | None => false
      end
  end.

Fixpoint lacks (c : ascii) (s : string) : bool :=
  match s with
  | EmptyString => true
  | String c' s' => negb (Ascii.eqb c' c) && lacks c s'
  end.

Fixpoint fields_from (cur s : string) : list string :=
  match s with
  | EmptyString => [cur]
  | String c s' =>
      if Ascii.eqb c " " then cur :: fields_from "" s'
      else fields_from (cur ++ String c "") s'
  end.

Definition fields (s : string) : list string := fields_from "" s.

Definition six_decimals (x : B64.float) (field : string) : Prop :=
  match x with
  | B64.NaN => field = "nan"%string
  | B64.Inf s => field = (if s then "-inf" else "inf")%string
  | B64.Fin s m e =>
      exists n : Z,
        read_6f field = Some (s, n)
        /\ Qabs (inject_Z n - B64.mag m e * 1000000) <= 1 # 2
  end.


(** * Properties *)

(** ** Comparisons *)

Lemma Qltb_lt (a b : Q) : Qltb a b = true <-> a < b.
Proof.
  unfold Qltb. rewrite negb_true_iff.
  split; intro H.
  - apply Qnot_le_lt. intro Hle. apply Qle_bool_iff in Hle. congruence.
  - destruct (Qle_bool b a) eqn:E; [|reflexivity].
    apply Qle_bool_iff in E. exfalso. exact (Qlt_not_le _ _ H E).
Qed.

Lemma Qltb_ge (a b : Q) : Qltb a b = false <-> b <= a.
Proof.
  unfold Qltb. rewrite negb_false_iff. apply Qle_bool_iff.
Qed.

Lemma Qltb_comp (a a' b b' : Q) : a == a' -> b == b' -> Qltb a b = Qltb a' b'.
Proof.
  intros Ha Hb. unfold Qltb. now rewrite Ha, Hb.
Qed.

Lemma Qeq_bool_false (a b : Q) : ~ a == b -> Qeq_bool a b = false.
Proof.
  intro H. destruct (Qeq_bool a b) eqn:E; [|reflexivity].
  apply Qeq_bool_iff in E. contradiction.
Qed.

(** ** Slice updates *)

Lemma slice_iadd_length (i : nat) (c : Q) (l : list Q) :
  length (np.slice_iadd i c l) = length l.
Proof.
  unfold np.slice_iadd.
  rewrite length_app, length_map, <- length_app, firstn_skipn. reflexivity.
Qed.

Lemma slice_iadd_nth (i j : nat) (c : Q) (l : list Q) :
  (i <= j < length l)%nat ->
  nth j (np.slice_iadd i c l) 0 = nth j l 0 + c.
Proof.
  intros [Hij Hj]. unfold np.slice_iadd.
  assert (Hlen : length (firstn i l) = i) by (apply firstn_length_le; lia).
  rewrite app_nth2 by lia. rewrite Hlen.
  rewrite (nth_indep _ 0 (0 + c)) by (rewrite length_map, length_skipn; lia).
  rewrite (map_nth (fun a => a + c)).
  rewrite nth_skipn. f_equal. f_equal. lia.
Qed.

Lemma slice_isub_iadd (i : nat) (c : Q) (l : list Q) :
  np.slice_isub i c l = np.slice_iadd i (- c) l.
Proof. reflexivity. Qed.

(** ** The loop of [interpolate_angles] decides on raw differences

    When the loop reaches index [i], the samples from [i - 1] on carry one
    common offset, so the difference it reads is the raw one. *)
Lemma unwrap_loop_raw (raw : list Q) :
  forall (k i : nat) (cur : list Q) (off : Q),
    (1 <= i)%nat -> (i + k <= length raw)%nat ->
    length cur = length raw ->
    (forall j, (i - 1 <= j < length raw)%nat ->
               nth j cur 0 == nth j raw 0 + off) ->
    fold_left unwrap_step (seq i k) cur =
    fold_left (unwrap_spec_step raw) (seq i k) cur.
Proof.
  induction k as [|k IH]; intros i cur off Hi Hk Hlen Hoff; [reflexivity|].
  cbn [seq fold_left].
  assert (Hd : nth i cur 0 - nth (i - 1) cur 0 ==
               nth i raw 0 - nth (i - 1) raw 0).
  { rewrite (Hoff i) by lia. rewrite (Hoff (i - 1)%nat) by lia. ring. }
  assert (Hstep : unwrap_step cur i = unwrap_spec_step raw cur i).
  { unfold unwrap_step, unwrap_spec_step. cbv zeta.
    rewrite (Qltb_comp 180 180 _ _ (Qeq_refl _) (Qabs_wd _ _ Hd)).
    rewrite (Qltb_comp 0 0 _ _ (Qeq_refl _) Hd).
    reflexivity. }
  rewrite Hstep.
  unfold unwrap_spec_step at 1 3. cbv zeta.
  destruct (Qltb 180 (Qabs _)); [destruct (Qltb 0 _)|].
  - apply (IH (S i) _ (off + - 360)); try lia.
    + now rewrite slice_iadd_length.
    + intros j Hj. rewrite slice_iadd_nth by lia.
      rewrite (Hoff j) by lia. ring.
  - apply (IH (S i) _ (off + 360)); try lia.
    + now rewrite slice_iadd_length.
    + intros j Hj. rewrite slice_iadd_nth by lia.
      rewrite (Hoff j) by lia. ring.
  - apply (IH (S i) _ off); try lia. intros j Hj. apply Hoff. lia.
Qed.

Lemma unwrap_is_unwrap_spec (angles : list Q) :
  unwrap angles = unwrap_spec angles.
Proof.
  unfold unwrap, unwrap_spec.
  destruct angles as [|a angles]; [reflexivity|].
  apply (unwrap_loop_raw _ _ _ _ 0); cbn [length]; try lia.
  intros j _. ring.
Qed.

(** The loop never touches the first sample. *)
Lemma unwrap_step_head (angles : list Q) (i : nat) :
  (1 <= i)%nat -> hd_error (unwrap_step angles i) = hd_error angles.
Proof.
  intro Hi. unfold unwrap_step. cbv zeta.
  destruct i as [|i]; [lia|].
  destruct (Qltb 180 _); [destruct (Qltb 0 _)|]; try reflexivity;
    destruct angles; reflexivity.
Qed.

Lemma unwrap_step_length (angles : list Q) (i : nat) :
  length (unwrap_step angles i) = length angles.
Proof.
  unfold unwrap_step. cbv zeta.
  destruct (Qltb 180 _); [destruct (Qltb 0 _)|]; try reflexivity;
    [rewrite slice_isub_iadd|]; apply slice_iadd_length.
Qed.

Lemma unwrap_loop_head (k i : nat) (angles : list Q) :
  (1 <= i)%nat ->
  hd_error (fold_left unwrap_step (seq i k) angles) = hd_error angles.
Proof.
  revert i angles. induction k as [|k IH]; intros i angles Hi; [reflexivity|].
  cbn [seq fold_left]. rewrite IH by lia. now apply unwrap_step_head.
Qed.

Lemma unwrap_loop_length (idx : list nat) (angles : list Q) :
  length (fold_left unwrap_step idx angles) = length angles.
Proof.
  revert angles. induction idx as [|i idx IH]; intro angles; [reflexivity|].
  cbn [fold_left]. rewrite IH. apply unwrap_step_length.
Qed.

Lemma unwrap_length (angles : list Q) : length (unwrap angles) = length angles.
Proof. apply unwrap_loop_length. Qed.

Lemma unwrap_head (angles : list Q) : hd_error (unwrap angles) = hd_error angles.
Proof. apply unwrap_loop_head. lia. Qed.

(** ** The error monad *)

Lemma bind_Ok {A B : Type} (m : result A) (k : A -> result B) (b : B) :
  bind m k = Ok b -> exists a, m = Ok a /\ k a = Ok b.
Proof.
  destruct m as [a|e]; cbn; intro H; [eauto | discriminate].
Qed.

Ltac bind_inv H :=
  let a := fresh "a" in
  let Ha := fresh "E" in
  apply bind_Ok in H; destruct H as (a & Ha & H).

Tactic Notation "bind_split" hyp(H) "as" ident(a) ident(Ha) :=
  apply bind_Ok in H; destruct H as (a & Ha & H).

Lemma map_result_length {A B : Type} (f : A -> result B) (l : list A)
    (v : list B) :
  np.map_result f l = Ok v -> length v = length l.
Proof.
  revert v. induction l as [|a l IH]; intros v H; cbn in H.
  - now inversion H.
  - bind_inv H. bind_inv H. inversion H; subst. cbn. f_equal. now apply IH.
Qed.

Lemma map_result_defined {A B : Type} (f : A -> result B) (l : list A) :
  (forall a, exists b, f a = Ok b) -> exists v, np.map_result f l = Ok v.
Proof.
  intro Hf. induction l as [|a l [v IH]]; cbn; [eauto|].
  destruct (Hf a) as [b Hb]. rewrite Hb, IH. cbn. eauto.
Qed.

(** ** Lengths and ranges of the interpolated columns *)

Lemma interp_length (x xp fp v : list Q) :
  np.interp x xp fp = Ok v -> length v = length x.
Proof.
  unfold np.interp. destruct xp; [discriminate|].
  destruct (Nat.eqb _ _); [|discriminate].
  apply map_result_length.
Qed.

Lemma py_mod_360_range (a : Q) : 0 <= py_mod a 360 < 360.
Proof.
  unfold py_mod.
  pose proof (Qfloor_le (a / 360)) as Hlo.
  pose proof (Qlt_floor (a / 360)) as Hhi.
  rewrite inject_Z_plus in Hhi.
  set (f := inject_Z (Qfloor (a / 360))) in *.
  assert (Ha : a == (a / 360) * 360) by (field).
  split.
  - rewrite Ha at 1. lra.
  - rewrite Ha at 1. change (inject_Z 1) with 1 in Hhi. lra.
Qed.

Lemma interpolate_angles_length (times angles target_times v : list Q) :
  interpolate_angles times angles target_times = Ok v ->
  length v = length target_times.
Proof.
  unfold interpolate_angles. intro H. bind_inv H. inversion H; subst.
  unfold np.remainder. rewrite length_map. now apply interp_length in E.
Qed.

Lemma interpolate_angles_range (times angles target_times v : list Q) :
  interpolate_angles times angles target_times = Ok v ->
  Forall (fun r => 0 <= r < 360) v.
Proof.
  unfold interpolate_angles. intro H. bind_inv H. inversion H; subst.
  unfold np.remainder. apply Forall_map, Forall_forall.
  intros r _. apply py_mod_360_range.
Qed.

(** ** Column assignment *)

Lemma set_column_same (m : list (list Q)) (i : nat) (v : list Q) :
  length v = length m -> np.set_column m i v = Ok (np.set_column_rows m i v).
Proof.
  intro H. unfold np.set_column. now rewrite H, Nat.eqb_refl.
Qed.

Lemma set_column_rows_length (m : list (list Q)) (i : nat) (v : list Q) :
  length (np.set_column_rows m i v) = length m.
Proof.
  revert v. induction m as [|r m IH]; intro v; [reflexivity|].
  destruct v; cbn; [reflexivity|]. now rewrite IH.
Qed.

Lemma zeros_length (n w : nat) : length (np.zeros n w) = n.
Proof. apply repeat_length. Qed.

Lemma zip6_of_columns (n : nat) :
  forall v0 v1 v2 v3 v4 v5 : list Q,
    length v0 = n -> length v1 = n -> length v2 = n ->
    length v3 = n -> length v4 = n -> length v5 = n ->
    np.set_column_rows
      (np.set_column_rows
         (np.set_column_rows
            (np.set_column_rows
               (np.set_column_rows
                  (np.set_column_rows (np.zeros n 6) 0 v0) 1 v1) 2 v2) 3 v3)
         4 v4) 5 v5
    = zip6 v0 v1 v2 v3 v4 v5.
Proof.
  induction n as [|n IH]; intros v0 v1 v2 v3 v4 v5 H0 H1 H2 H3 H4 H5;
    destruct v0, v1, v2, v3, v4, v5; try discriminate; [reflexivity|].
  cbn in H0, H1, H2, H3, H4, H5.
  cbn. f_equal. apply IH; congruence.
Qed.

Lemma zip6_length (n : nat) :
  forall v0 v1 v2 v3 v4 v5 : list Q,
    length v0 = n -> length v1 = n -> length v2 = n ->
    length v3 = n -> length v4 = n -> length v5 = n ->
    length (zip6 v0 v1 v2 v3 v4 v5) = n.
Proof.
  induction n as [|n IH]; intros v0 v1 v2 v3 v4 v5 H0 H1 H2 H3 H4 H5;
    destruct v0, v1, v2, v3, v4, v5; try discriminate; [reflexivity|].
  cbn in *. f_equal. apply IH; congruence.
Qed.

Lemma zip6_rows (v0 v1 v2 v3 v4 v5 : list Q) (P : list Q -> Prop) :
  (forall x0 x1 x2 x3 x4 x5,
      In x0 v0 -> In x1 v1 -> In x2 v2 -> In x3 v3 -> In x4 v4 -> In x5 v5 ->
      P [x0; x1; x2; x3; x4; x5]) ->
  Forall P (zip6 v0 v1 v2 v3 v4 v5).
Proof.
  revert v1 v2 v3 v4 v5.
  induction v0 as [|x0 v0 IH]; intros v1 v2 v3 v4 v5 H; [constructor|].
  destruct v1, v2, v3, v4, v5; try constructor.
  - apply H; now left.
  - apply IH. intros. apply H; now right.
Qed.

(** ** The general path of [resample_positions] *)

Lemma array_Ok (rows m : list (list Q)) :
  np.array rows = Ok m -> m = rows /\ np.same_width rows = true.
Proof.
  unfold np.array. destruct (np.same_width rows); [|discriminate].
  intro H. inversion H. auto.
Qed.

Lemma set_column_Ok (m m' : list (list Q)) (i : nat) (v : list Q) :
  length v = length m -> np.set_column m i v = Ok m' ->
  m' = np.set_column_rows m i v /\ length m' = length m.
Proof.
  intros Hlen H. rewrite set_column_same in H by assumption.
  inversion H. split; [reflexivity|]. apply set_column_rows_length.
Qed.

Lemma resample_positions_general (positions : list (list Q)) (s t : Q)
    (out : list (list Q)) :
  ~ s == t -> resample_positions positions s t = Ok out ->
  Resampled positions s t out.
Proof.
  intros Hst H. unfold resample_positions in H.
  rewrite (Qeq_bool_false _ _ Hst) in H.
  bind_split H as m Hm. apply array_Ok in Hm as [-> Hw].
  bind_split H as ot Hot. bind_split H as stop Hstop.
  bind_split H as step Hstep. bind_split H as grid Hgrid.
  bind_split H as r3 Hpos. bind_split H as r6 Hrot. inversion H; subst r6.
  cbn [for_each] in Hpos, Hrot.
  bind_split Hpos as r1 H0. bind_split H0 as c0 Hc0. bind_split H0 as v0 Hv0.
  bind_split Hpos as r2 H1. bind_split H1 as c1 Hc1. bind_split H1 as v1 Hv1.
  bind_split Hpos as r3' H2. bind_split H2 as c2 Hc2. bind_split H2 as v2 Hv2.
  inversion Hpos; subst r3'.
  bind_split Hrot as r4 H3. bind_split H3 as c3 Hc3. bind_split H3 as v3 Hv3.
  bind_split Hrot as r5 H4. bind_split H4 as c4 Hc4. bind_split H4 as v4 Hv4.
  bind_split Hrot as r6 H5. bind_split H5 as c5 Hc5. bind_split H5 as v5 Hv5.
  inversion Hrot; subst r6.
  pose proof (interp_length _ _ _ _ Hv0) as L0.
  pose proof (interp_length _ _ _ _ Hv1) as L1.
  pose proof (interp_length _ _ _ _ Hv2) as L2.
  pose proof (interpolate_angles_length _ _ _ _ Hv3) as L3.
  pose proof (interpolate_angles_length _ _ _ _ Hv4) as L4.
  pose proof (interpolate_angles_length _ _ _ _ Hv5) as L5.
  apply set_column_Ok in H0 as [-> N0]; [|now rewrite zeros_length].
  rewrite zeros_length in N0.
  apply set_column_Ok in H1 as [-> N1]; [|congruence].
  apply set_column_Ok in H2 as [-> N2]; [|congruence].
  apply set_column_Ok in H3 as [-> N3]; [|congruence].
  apply set_column_Ok in H4 as [-> N4]; [|congruence].
  apply set_column_Ok in H5 as [-> N5]; [|congruence].
  rewrite (zip6_of_columns (length grid)) by assumption.
  econstructor; eauto.
Qed.

Lemma resample_positions_built (positions : list (list Q)) (s t : Q)
    (out : list (list Q)) :
  ~ s == t -> Resampled positions s t out ->
  resample_positions positions s t = Ok out.
Proof.
  intros Hst [ot grid stop step c0 c1 c2 c3 c4 c5 v0 v1 v2 v3 v4 v5
              Hw Hot Hstop Hstep Hgrid Hc0 Hv0 Hc1 Hv1 Hc2 Hv2
              Hc3 Hv3 Hc4 Hv4 Hc5 Hv5 ->].
  unfold resample_positions. rewrite (Qeq_bool_false _ _ Hst).
  unfold np.array. rewrite Hw. cbn [bind].
  rewrite Hot. cbn [bind]. rewrite Hstop. cbn [bind].
  rewrite Hstep. cbn [bind]. rewrite Hgrid. cbn [bind for_each].
  pose proof (interp_length _ _ _ _ Hv0) as L0.
  pose proof (interp_length _ _ _ _ Hv1) as L1.
  pose proof (interp_length _ _ _ _ Hv2) as L2.
  pose proof (interpolate_angles_length _ _ _ _ Hv3) as L3.
  pose proof (interpolate_angles_length _ _ _ _ Hv4) as L4.
  pose proof (interpolate_angles_length _ _ _ _ Hv5) as L5.
  rewrite Hc0, Hc1, Hc2, Hc3, Hc4, Hc5. cbn [bind].
  rewrite Hv0. cbn [bind].
  rewrite set_column_same by (now rewrite zeros_length). cbn [bind].
  rewrite Hv1. cbn [bind].
  rewrite set_column_same
    by (now rewrite !set_column_rows_length, zeros_length). cbn [bind].
  rewrite Hv2. cbn [bind].
  rewrite set_column_same
    by (now rewrite !set_column_rows_length, zeros_length). cbn [bind].
  rewrite Hv3. cbn [bind].
  rewrite set_column_same
    by (now rewrite !set_column_rows_length, zeros_length). cbn [bind].
  rewrite Hv4. cbn [bind].
  rewrite set_column_same
    by (now rewrite !set_column_rows_length, zeros_length). cbn [bind].
  rewrite Hv5. cbn [bind].
  rewrite set_column_same
    by (now rewrite !set_column_rows_length, zeros_length). cbn [bind].
  now rewrite (zip6_of_columns (length grid)).
Qed.

(** ** Source times *)

Lemma nth_map_seq (f : nat -> Q) (j n : nat) :
  (j < n)%nat -> nth j (map f (seq 0 n)) 0 = f j.
Proof.
  intro H. rewrite (nth_indep _ 0 (f 0%nat)) by (now rewrite length_map, length_seq).
  rewrite map_nth, seq_nth by assumption. reflexivity.
Qed.

Lemma divide_arange (n : nat) (s : Q) :
  n <> 0%nat -> ~ s == 0 ->
  np.divide (np.arange_n n) s = Ok (source_times n s).
Proof.
  intros Hn Hs. unfold np.divide, np.arange_n, source_times.
  destruct n as [|n]; [contradiction|].
  cbn [seq map]. rewrite (Qeq_bool_false _ _ Hs).
  cbn [map]. now rewrite map_map.
Qed.

Lemma divide_arange_Ok (n : nat) (s : Q) (ot : list Q) :
  np.divide (np.arange_n n) s = Ok ot -> ot = source_times n s.
Proof.
  unfold np.divide, np.arange_n, source_times.
  destruct n as [|n]; cbn [seq map]; [now inversion 1|].
  destruct (Qeq_bool s 0); [discriminate|].
  inversion 1. cbn [map]. now rewrite map_map.
Qed.

Lemma source_times_length (n : nat) (s : Q) : length (source_times n s) = n.
Proof. unfold source_times. now rewrite length_map, length_seq. Qed.

Lemma source_times_nth (n j : nat) (s : Q) :
  (j < n)%nat -> nth j (source_times n s) 0 = Q_of_nat j / s.
Proof. apply nth_map_seq. Qed.

Lemma last_source_time (n : nat) (s stop : Q) :
  np.last_item (source_times n s) = Ok stop ->
  n <> 0%nat /\ stop = Q_of_nat (n - 1) / s.
Proof.
  unfold np.last_item.
  destruct (source_times n s) eqn:E.
  - discriminate.
  - rewrite <- E. inversion 1.
    assert (Hn : n <> 0%nat).
    { intros ->. discriminate. }
    split; [assumption|].
    rewrite source_times_length. apply source_times_nth. lia.
Qed.

Lemma Q_of_nat_S (k : nat) : Q_of_nat (S k) == Q_of_nat k + 1.
Proof.
  unfold Q_of_nat. rewrite Nat2Z.inj_succ, <- Z.add_1_r, inject_Z_plus.
  reflexivity.
Qed.

Lemma Q_of_nat_nonneg (k : nat) : 0 <= Q_of_nat k.
Proof.
  unfold Q_of_nat. change 0 with (inject_Z 0). rewrite <- Zle_Qle. lia.
Qed.

Lemma Q_of_nat_lt (j k : nat) : (j < k)%nat <-> Q_of_nat j < Q_of_nat k.
Proof. unfold Q_of_nat. rewrite <- Zlt_Qlt. lia. Qed.

Lemma source_times_apart (n j : nat) (s : Q) :
  ~ s == 0 -> (S j < n)%nat ->
  ~ nth (S j) (source_times n s) 0 - nth j (source_times n s) 0 == 0.
Proof.
  intros Hs Hj. rewrite !source_times_nth by lia.
  rewrite Q_of_nat_S. intro H.
  assert (H1 : (Q_of_nat j + 1) / s - Q_of_nat j / s == 1 / s) by (now field).
  rewrite H1 in H. apply Hs.
  assert (H2 : s == s * s * (1 / s)) by (now field).
  rewrite H2, H. ring.
Qed.

(** ** [np.interp] on source times *)

Lemma linear_search_bounds (key : Q) (arr : list Q) (i : nat) :
  (i <= np.linear_search key arr i <= i + length arr)%nat.
Proof.
  revert i. induction arr as [|a arr IH]; intro i; cbn; [lia|].
  destruct (Qle_bool a key); [|lia]. specialize (IH (S i)). lia.
Qed.

Lemma interp_at_defined (xp fp : list Q) (x : Q) :
  (forall j, (S j < length xp)%nat -> ~ nth (S j) xp 0 - nth j xp 0 == 0) ->
  exists v, np.interp_at xp fp x = Ok v.
Proof.
  intro Hap. unfold np.interp_at. cbv zeta.
  destruct (Nat.eqb (length xp) 1) eqn:E1; [eauto|].
  destruct (Z.eqb _ (-1)) eqn:E2; [eauto|].
  destruct (Z.eqb _ (Z.of_nat (length xp))) eqn:E3; [eauto|].
  destruct (Nat.eqb _ (length xp - 1)) eqn:E4; [eauto|].
  destruct (Qeq_bool (nth _ xp 0) x); [eauto|].
  destruct (Qeq_bool (_ - _) 0) eqn:E5; [|eauto].
  exfalso. apply Qeq_bool_iff in E5. revert E5.
  rewrite Nat.add_1_r. apply Hap.
  apply Nat.eqb_neq in E4. apply Z.eqb_neq in E2, E3.
  revert E2 E3 E4. unfold np.binary_search_with_guess. cbv zeta.
  destruct (Qltb _ x); [lia|]. destruct (Qltb x _); [lia|].
  pose proof (linear_search_bounds x (skipn 1 xp) 1) as Hb.
  rewrite length_skipn in Hb.
  apply Nat.eqb_neq in E1. lia.
Qed.

Lemma interp_defined (x xp fp : list Q) :
  xp <> [] -> length fp = length xp ->
  (forall j, (S j < length xp)%nat -> ~ nth (S j) xp 0 - nth j xp 0 == 0) ->
  exists v, np.interp x xp fp = Ok v.
Proof.
  intros Hne Hlen Hap. unfold np.interp.
  destruct xp; [contradiction|].
  rewrite Hlen, Nat.eqb_refl.
  apply map_result_defined. intro a. now apply interp_at_defined.
Qed.

Lemma interp_at_first_knot (n : nat) (s x : Q) (fp : list Q) :
  (2 <= n)%nat -> 0 < s -> x == 0 ->
  np.interp_at (source_times n s) fp x = Ok (nth 0 fp 0).
Proof.
  intros Hn Hs Hx.
  assert (H0 : nth 0 (source_times n s) 0 == 0).
  { rewrite source_times_nth by lia. unfold Q_of_nat, inject_Z. cbn.
    field. lra. }
  assert (H1 : 0 < nth 1 (source_times n s) 0).
  { rewrite source_times_nth by lia. unfold Q_of_nat, inject_Z. cbn.
    apply Qlt_shift_div_l; lra. }
  assert (Hlast : 0 <= nth (n - 1) (source_times n s) 0).
  { rewrite source_times_nth by lia.
    apply Qle_shift_div_l; [assumption|].
    pose proof (Q_of_nat_nonneg (n - 1)). lra. }
  assert (Hsearch : np.binary_search_with_guess x (source_times n s) = 0%Z).
  { unfold np.binary_search_with_guess. cbv zeta.
    rewrite source_times_length.
    replace (Qltb (nth (n - 1) (source_times n s) 0) x) with false
      by (symmetry; apply Qltb_ge; lra).
    replace (Qltb x (nth 0 (source_times n s) 0)) with false
      by (symmetry; apply Qltb_ge; lra).
    destruct (source_times n s) as [|t0 [|t1 ts]] eqn:E.
    - apply (f_equal (@length _)) in E. rewrite source_times_length in E.
      cbn in E. lia.
    - apply (f_equal (@length _)) in E. rewrite source_times_length in E.
      cbn in E. lia.
    - cbn [skipn np.linear_search nth] in *.
      replace (Qle_bool t1 x) with false; [reflexivity|].
      symmetry. apply not_true_is_false. intro Hle.
      apply Qle_bool_iff in Hle. lra. }
  unfold np.interp_at. cbv zeta. rewrite Hsearch, source_times_length.
  replace (Nat.eqb n 1) with false by (symmetry; apply Nat.eqb_neq; lia).
  replace (Z.eqb 0 (Z.of_nat n)) with false by (symmetry; apply Z.eqb_neq; lia).
  cbn [Z.eqb Z.to_nat].
  replace (Nat.eqb 0 (n - 1)) with false by (symmetry; apply Nat.eqb_neq; lia).
  replace (Qeq_bool (nth 0 (source_times n s) 0) x) with true; [reflexivity|].
  symmetry. apply Qeq_bool_iff. now rewrite H0, Hx.
Qed.

(** ** Columns of a track *)

Lemma column_Ok (r : list Q) (rows : list (list Q)) (i : nat) :
  (i < length r)%nat ->
  np.column (r :: rows) i = Ok (map (fun r' => nth i r' 0) (r :: rows)).
Proof.
  intro H. unfold np.column.
  now replace (Nat.ltb i (length r)) with true
    by (symmetry; apply Nat.ltb_lt; assumption).
Qed.

(** ** The general path returns a track on well-formed input *)

Lemma arange_Ok (stop step : Q) :
  ~ step == 0 ->
  np.arange 0 stop step =
  Ok (map (fun k => 0 + Q_of_nat k * step) (seq 0 (np.arange_len 0 stop step))).
Proof.
  intro H. unfold np.arange. now rewrite (Qeq_bool_false _ _ H).
Qed.

Lemma py_div_Ok (a b : Q) : ~ b == 0 -> py_div a b = Ok (a / b).
Proof. intro H. unfold py_div. now rewrite (Qeq_bool_false _ _ H). Qed.

Lemma inverse_nonzero (t : Q) : ~ t == 0 -> ~ 1 / t == 0.
Proof.
  intros Ht H. apply Ht.
  assert (H2 : t == t * t * (1 / t)) by (now field).
  rewrite H2, H. ring.
Qed.

Lemma interpolate_angles_defined (n : nat) (s : Q) (angles grid : list Q) :
  n <> 0%nat -> ~ s == 0 -> length angles = n ->
  exists v, interpolate_angles (source_times n s) angles grid = Ok v.
Proof.
  intros Hn Hs Hlen. unfold interpolate_angles.
  destruct (interp_defined grid (source_times n s) (unwrap angles)) as [v Hv].
  - intro E. apply (f_equal (@length _)) in E.
    rewrite source_times_length in E. cbn in E. contradiction.
  - now rewrite unwrap_length, source_times_length.
  - intros j Hj. rewrite source_times_length in Hj.
    now apply source_times_apart.
  - rewrite Hv. cbn. eauto.
Qed.

Lemma resample_positions_defined (r : list Q) (rows : list (list Q)) (s t : Q) :
  np.same_width (r :: rows) = true -> (6 <= length r)%nat ->
  ~ s == 0 -> ~ t == 0 -> ~ s == t ->
  exists out, resample_positions (r :: rows) s t = Ok out.
Proof.
  intros Hw H6 Hs Ht Hst.
  set (positions := r :: rows) in *.
  set (n := length positions).
  assert (Hn : n <> 0%nat) by (unfold n, positions; cbn; lia).
  pose proof (divide_arange n s Hn Hs) as Hot.
  assert (Hstop : np.last_item (source_times n s)
                  = Ok (nth (n - 1) (source_times n s) 0)).
  { unfold np.last_item. rewrite source_times_length.
    destruct (source_times n s) eqn:E; [|reflexivity].
    apply (f_equal (@length _)) in E. rewrite source_times_length in E.
    cbn in E. contradiction. }
  set (stop := nth (n - 1) (source_times n s) 0) in *.
  pose proof (arange_Ok stop (1 / t) (inverse_nonzero t Ht)) as Hgrid.
  set (grid := map _ _) in Hgrid.
  assert (Hcol : forall i, (i < 6)%nat ->
            np.column positions i = Ok (map (fun r' => nth i r' 0) positions)).
  { intros i Hi. apply column_Ok. lia. }
  assert (Hxp : source_times n s <> []).
  { intro E. apply (f_equal (@length _)) in E.
    rewrite source_times_length in E. cbn in E. contradiction. }
  assert (Hpos : forall i, exists v,
            np.interp grid (source_times n s)
              (map (fun r' => nth i r' 0) positions) = Ok v).
  { intro i. apply interp_defined; [assumption| |].
    - now rewrite length_map, source_times_length.
    - intros j Hj. rewrite source_times_length in Hj.
      now apply source_times_apart. }
  assert (Hrot : forall i, exists v,
            interpolate_angles (source_times n s)
              (map (fun r' => nth i r' 0) positions) grid = Ok v).
  { intro i. apply interpolate_angles_defined; try assumption.
    now rewrite length_map. }
  destruct (Hpos 0%nat) as [v0 Hv0]. destruct (Hpos 1%nat) as [v1 Hv1].
  destruct (Hpos 2%nat) as [v2 Hv2]. destruct (Hrot 3%nat) as [v3 Hv3].
  destruct (Hrot 4%nat) as [v4 Hv4]. destruct (Hrot 5%nat) as [v5 Hv5].
  exists (zip6 v0 v1 v2 v3 v4 v5).
  apply resample_positions_built; [assumption|].
  apply (Resampled_intro _ _ _ _ (source_times n s) grid stop (1 / t)
           _ _ _ _ _ _ v0 v1 v2 v3 v4 v5 Hw Hot Hstop (py_div_Ok 1 t Ht) Hgrid
           (Hcol 0%nat ltac:(lia)) Hv0 (Hcol 1%nat ltac:(lia)) Hv1
           (Hcol 2%nat ltac:(lia)) Hv2 (Hcol 3%nat ltac:(lia)) Hv3
           (Hcol 4%nat ltac:(lia)) Hv4 (Hcol 5%nat ltac:(lia)) Hv5 eq_refl).
Qed.

(** ** The target grid *)

Lemma py_div_inv (a b c : Q) : py_div a b = Ok c -> c = a / b /\ ~ b == 0.
Proof.
  unfold py_div. destruct (Qeq_bool b 0) eqn:E; [discriminate|].
  intro H. injection H as <-. split; [reflexivity|].
  now apply Qeq_bool_neq.
Qed.

Lemma arange_inv (start stop step : Q) (l : list Q) :
  np.arange start stop step = Ok l ->
  l = map (fun k => start + Q_of_nat k * step)
          (seq 0 (np.arange_len start stop step))
  /\ ~ step == 0.
Proof.
  unfold np.arange. destruct (Qeq_bool step 0) eqn:E; [discriminate|].
  intro H. injection H as <-. split; [reflexivity|].
  now apply Qeq_bool_neq.
Qed.

Lemma grid_length (stop t : Q) :
  ~ t == 0 -> np.arange_len 0 stop (1 / t) = Z.to_nat (Qceiling (stop * t)).
Proof.
  intro Ht. unfold np.arange_len.
  assert (H : (stop - 0) / (1 / t) == stop * t) by (now field).
  now rewrite H.
Qed.

(** A natural number is below [ceil y] exactly when it is below [y]. *)
Lemma below_ceiling (k : nat) (y : Q) :
  (k < Z.to_nat (Qceiling y))%nat <-> Q_of_nat k < y.
Proof.
  unfold Q_of_nat. split; intro H.
  - assert (Hk : (Z.of_nat k <= Qceiling y - 1)%Z) by lia.
    apply (Qle_lt_trans _ (inject_Z (Qceiling y - 1))).
    + now rewrite <- Zle_Qle.
    + apply Qceiling_lt.
  - pose proof (Qle_ceiling y) as Hc.
    assert (Hlt : inject_Z (Z.of_nat k) < inject_Z (Qceiling y))
      by (eapply Qlt_le_trans; eassumption).
    rewrite <- Zlt_Qlt in Hlt. lia.
Qed.

Lemma grid_point_below (k : nat) (stop t : Q) :
  0 < t -> Q_of_nat k * (1 / t) < stop <-> Q_of_nat k < stop * t.
Proof.
  intro Ht.
  rewrite <- (Qmult_lt_r (Q_of_nat k * (1 / t)) stop t Ht).
  assert (H : Q_of_nat k * (1 / t) * t == Q_of_nat k) by (field; lra).
  now rewrite H.
Qed.

Lemma interp_cons (x : Q) (xs xp fp v : list Q) :
  np.interp (x :: xs) xp fp = Ok v ->
  exists y v', v = y :: v' /\ np.interp_at xp fp x = Ok y.
Proof.
  unfold np.interp. destruct xp; [discriminate|].
  destruct (Nat.eqb _ _); [|discriminate].
  cbn [np.map_result]. intro H.
  bind_split H as y Hy. bind_split H as v' Hv'. injection H as <-. eauto.
Qed.

Lemma hd_error_nth (l l' : list Q) :
  hd_error l = hd_error l' -> nth 0 l 0 = nth 0 l' 0.
Proof. destruct l, l'; cbn; congruence. Qed.

Lemma same_width_all (w : nat) (rows : list (list Q)) :
  Forall (fun r => length r = w) rows -> np.same_width rows = true.
Proof.
  intro H. destruct rows as [|r rows]; [reflexivity|].
  inversion H as [|? ? Hr Hrows]; subst. cbn.
  apply forallb_forall. intros r' Hin. apply Nat.eqb_eq.
  rewrite Forall_forall in Hrows. now apply Hrows.
Qed.

(** ** Length of the output of the general path *)

Lemma general_path_grid (positions : list (list Q)) (s t : Q)
    (out : list (list Q)) :
  ~ s == t -> resample_positions positions s t = Ok out ->
  exists target_times,
    np.arange 0 (Q_of_nat (length positions - 1) / s) (1 / t) = Ok target_times
    /\ length out = length target_times /\ ~ t == 0.
Proof.
  intros Hst H.
  destruct (resample_positions_general _ _ _ _ Hst H).
  apply divide_arange_Ok in R_times. subst original_times.
  apply last_source_time in R_stop as [Hn ->].
  apply py_div_inv in R_step as [-> Ht].
  exists target_times. split; [assumption|]. split; [|assumption].
  subst out. apply zip6_length;
    eauto using interp_length, interpolate_angles_length.
Qed.

Lemma general_path_length (positions : list (list Q)) (s t : Q)
    (out : list (list Q)) :
  ~ s == t -> resample_positions positions s t = Ok out ->
  length out
  = Z.to_nat (Qceiling (Q_of_nat (length positions - 1) / s * t)).
Proof.
  intros Hst H.
  destruct (general_path_grid _ _ _ _ Hst H) as (grid & Hgrid & Hlen & Ht).
  apply arange_inv in Hgrid as [-> _].
  rewrite Hlen, length_map, length_seq. now apply grid_length.
Qed.

(** ** Rotation columns of the output *)

Lemma interpolate_angles_inv (times angles grid v : list Q) :
  interpolate_angles times angles grid = Ok v ->
  exists u, np.interp grid times (unwrap angles) = Ok u
            /\ v = np.remainder u 360.
Proof.
  unfold interpolate_angles. intro H. bind_split H as u Hu.
  injection H as <-. eauto.
Qed.

Lemma zip6_rotation_columns (n : nat) :
  forall v0 v1 v2 v3 v4 v5 : list Q,
    length v0 = n -> length v1 = n -> length v2 = n ->
    length v3 = n -> length v4 = n -> length v5 = n ->
    map (fun pose => nth 3 pose 0) (zip6 v0 v1 v2 v3 v4 v5) = v3
    /\ map (fun pose => nth 4 pose 0) (zip6 v0 v1 v2 v3 v4 v5) = v4
    /\ map (fun pose => nth 5 pose 0) (zip6 v0 v1 v2 v3 v4 v5) = v5.
Proof.
  induction n as [|n IH]; intros v0 v1 v2 v3 v4 v5 H0 H1 H2 H3 H4 H5;
    destruct v0, v1, v2, v3, v4, v5; try discriminate; [now cbn|].
  cbn in H0, H1, H2, H3, H4, H5.
  destruct (IH v0 v1 v2 v3 v4 v5) as (E3 & E4 & E5); try congruence.
  cbn [zip6 map nth]. now rewrite E3, E4, E5.
Qed.

(** ** The first output pose *)

Lemma grid_head (stop t : Q) (grid : list Q) :
  0 < stop -> 0 < t -> np.arange 0 stop (1 / t) = Ok grid ->
  exists x grid', grid = x :: grid' /\ x == 0.
Proof.
  intros Hstop Ht H. apply arange_inv in H as [-> _].
  rewrite grid_length by lra.
  assert (Hk : (0 < Z.to_nat (Qceiling (stop * t)))%nat).
  { apply below_ceiling. unfold Q_of_nat, inject_Z. cbn.
    apply Qmult_lt_0_compat; assumption. }
  destruct (Z.to_nat _) as [|k]; [lia|].
  cbn [seq map]. eexists. eexists. split; [reflexivity|].
  unfold Q_of_nat, inject_Z. cbn. ring.
Qed.

Lemma interp_first (n : nat) (s x : Q) (grid fp v : list Q) :
  (2 <= n)%nat -> 0 < s -> x == 0 ->
  np.interp (x :: grid) (source_times n s) fp = Ok v ->
  exists v', v = nth 0 fp 0 :: v'.
Proof.
  intros Hn Hs Hx H.
  apply interp_cons in H as (y & v' & -> & Hy).
  rewrite interp_at_first_knot in Hy by assumption.
  injection Hy as <-. eauto.
Qed.

Lemma interpolate_angles_first (n : nat) (s x : Q) (grid angles v : list Q) :
  (2 <= n)%nat -> 0 < s -> x == 0 ->
  interpolate_angles (source_times n s) angles (x :: grid) = Ok v ->
  exists v', v = py_mod (nth 0 angles 0) 360 :: v'.
Proof.
  intros Hn Hs Hx H. unfold interpolate_angles in H.
  bind_split H as u Hu. injection H as <-.
  apply (interp_first n s x) in Hu as [u' ->]; try assumption.
  rewrite (hd_error_nth _ _ (unwrap_head angles)).
  cbn. eauto.
Qed.

Lemma column_head (r : list Q) (rows : list (list Q)) (i : nat) (c : list Q) :
  np.column (r :: rows) i = Ok c -> nth 0 c 0 = nth i r 0.
Proof.
  unfold np.column. destruct (Nat.ltb i (length r)); [|discriminate].
  intro H. injection H as <-. reflexivity.
Qed.

Lemma first_pose (r r' : list Q) (rows out : list (list Q)) (s t : Q) :
  0 < s -> 0 < t -> ~ s == t ->
  resample_positions (r :: r' :: rows) s t = Ok out ->
  exists rest,
    out = [nth 0 r 0; nth 1 r 0; nth 2 r 0;
           py_mod (nth 3 r 0) 360; py_mod (nth 4 r 0) 360;
           py_mod (nth 5 r 0) 360] :: rest.
Proof.
  intros Hs Ht Hst H.
  destruct (resample_positions_general _ _ _ _ Hst H).
  apply divide_arange_Ok in R_times. subst original_times.
  apply last_source_time in R_stop as [_ ->].
  apply py_div_inv in R_step as [-> _].
  set (n := length (r :: r' :: rows)) in *.
  assert (Hn : (2 <= n)%nat) by (unfold n; cbn; lia).
  apply grid_head in R_grid as (x & grid' & -> & Hx); [|
    apply Qlt_shift_div_l; [assumption|];
    rewrite Qmult_0_l;
    change 0 with (Q_of_nat 0); apply Q_of_nat_lt; lia |assumption].
  apply (interp_first n s x) in R_v0 as [w0 ->]; try assumption.
  apply (interp_first n s x) in R_v1 as [w1 ->]; try assumption.
  apply (interp_first n s x) in R_v2 as [w2 ->]; try assumption.
  apply (interpolate_angles_first n s x) in R_v3 as [w3 ->]; try assumption.
  apply (interpolate_angles_first n s x) in R_v4 as [w4 ->]; try assumption.
  apply (interpolate_angles_first n s x) in R_v5 as [w5 ->]; try assumption.
  rewrite (column_head _ _ _ _ R_c0), (column_head _ _ _ _ R_c1),
    (column_head _ _ _ _ R_c2), (column_head _ _ _ _ R_c3),
    (column_head _ _ _ _ R_c4), (column_head _ _ _ _ R_c5) in R_out.
  subst out. cbn [zip6]. eauto.
Qed.

(** ** Extraction *)

Lemma macro_step_exposed (positions : list (list Q)) (macro : Demo.macro) :
  macro_step positions macro = positions ++ exposed_pose macro.
Proof.
  unfold macro_step, try_macro, exposed_pose, getattr.
  destruct (Demo.client_data macro) as [[[pos|] [rot|]]|]; cbn;
    now rewrite ?app_nil_r.
Qed.

Lemma macros_loop (macros : list Demo.macro) (positions : list (list Q)) :
  fold_left macro_step macros positions
  = positions ++ flat_map exposed_pose macros.
Proof.
  revert positions.
  induction macros as [|m macros IH]; intro positions; cbn.
  - now rewrite app_nil_r.
  - now rewrite IH, macro_step_exposed, <- app_assoc.
Qed.

Lemma exposed_pose_count (macros : list Demo.macro) :
  length (flat_map exposed_pose macros) = length (filter exposes macros).
Proof.
  induction macros as [|m macros IH]; [reflexivity|].
  cbn [flat_map filter]. rewrite length_app, IH.
  unfold exposed_pose, exposes.
  destruct (Demo.client_data m) as [[[pos|] [rot|]]|]; reflexivity.
Qed.

Lemma positive_frames_nonzero (frames : Z) :
  (0 < frames)%Z -> ~ inject_Z frames == 0.
Proof.
  intros H E. unfold Qeq, inject_Z in E. cbn in E. lia.
Qed.

Lemma directory_step_Ok (positions : list (list Q)) (sft : Q)
    (d : Demo.directory) :
  directory_step (positions, sft) d
  = Ok (positions ++ playback_poses d, frame_time_step sft d).
Proof.
  unfold directory_step, playback_poses, frame_time_step.
  destruct (String.eqb (Demo.name d) "Playback").
  - destruct (0 <? Demo.frames d)%Z eqn:E.
    + apply Z.ltb_lt in E.
      rewrite (py_div_Ok _ _ (positive_frames_nonzero _ E)). cbn.
      now rewrite macros_loop.
    + cbn. now rewrite macros_loop.
  - now rewrite app_nil_r.
Qed.

Lemma directories_loop (dirs : list Demo.directory)
    (positions : list (list Q)) (sft : Q) :
  for_each dirs directory_step (positions, sft)
  = Ok (positions ++ flat_map playback_poses dirs,
        fold_left frame_time_step dirs sft).
Proof.
  revert positions sft.
  induction dirs as [|d dirs IH]; intros positions sft; cbn [for_each].
  - cbn. now rewrite app_nil_r.
  - rewrite directory_step_Ok. cbn [bind]. rewrite IH.
    cbn [flat_map fold_left]. now rewrite <- app_assoc.
Qed.

Lemma extract_Ok (demo : Demo.t) :
  extract demo
  = Ok (flat_map playback_poses (Demo.directories demo),
        fold_left frame_time_step (Demo.directories demo) (1 / 60)).
Proof. unfold extract. now rewrite directories_loop. Qed.

Lemma frame_time_other (dirs : list Demo.directory) (sft : Q) :
  Forall (fun d => Demo.name d <> "Playback"%string) dirs ->
  fold_left frame_time_step dirs sft = sft.
Proof.
  intro H. revert sft.
  induction H as [|d dirs Hd _ IH]; intro sft; [reflexivity|].
  cbn [fold_left]. rewrite IH. unfold frame_time_step.
  apply String.eqb_neq in Hd. now rewrite Hd.
Qed.

(** ** Strings and lines *)

Lemma string_app_assoc (a b c : string) :
  ((a ++ b) ++ c = a ++ (b ++ c))%string.
Proof. induction a as [|x a IH]; cbn; [reflexivity| now rewrite IH]. Qed.

Lemma string_app_nil_r (a : string) : (a ++ "" = a)%string.
Proof. induction a as [|x a IH]; cbn; [reflexivity| now rewrite IH]. Qed.

Lemma no_newline_app (a b : string) :
  no_newline (a ++ b) = no_newline a && no_newline b.
Proof.
  induction a as [|x a IH]; cbn; [reflexivity|].
  now rewrite IH, andb_assoc.
Qed.

Lemma lines_from_line (l cur rest : string) :
  no_newline l = true ->
  lines_from cur (l ++ nl ++ rest) = (cur ++ l)%string :: lines rest.
Proof.
  revert cur. induction l as [|x l IH]; intros cur H; cbn in H |- *.
  - now rewrite string_app_nil_r.
  - apply andb_prop in H as [Hx Hl]. apply negb_true_iff in Hx.
    rewrite Hx, IH by assumption. now rewrite string_app_assoc.
Qed.

Lemma lines_unlines (ls : list string) :
  forallb no_newline ls = true -> lines (unlines ls) = ls.
Proof.
  induction ls as [|l ls IH]; intro H; [reflexivity|].
  cbn in H. apply andb_prop in H as [Hl Hls].
  cbn [unlines]. unfold lines at 1.
  rewrite lines_from_line by assumption. now rewrite IH.
Qed.

Lemma unlines_app (ls ls' : list string) :
  unlines (ls ++ ls') = (unlines ls ++ unlines ls')%string.
Proof.
  induction ls as [|l ls IH]; [reflexivity|].
  cbn [app unlines]. now rewrite IH, !string_app_assoc.
Qed.

(** ** Digits *)

Lemma digit_no_newline (d : Z) : Ascii.eqb (digit d) "010" = false.
Proof.
  unfold digit.
  pose proof (Z.mod_pos_bound d 10 eq_refl) as H.
  assert (Hc : exists k, (Z.to_nat (d mod 10) = k /\ k < 10)%nat)
    by (eexists; split; [reflexivity | lia]).
  destruct Hc as (k & -> & Hk).
  do 10 (destruct k as [|k]; [reflexivity|]). lia.
Qed.

Lemma digits_fixed_no_newline (k : nat) (n : Z) (acc : string) :
  no_newline acc = true -> no_newline (digits_fixed k n acc) = true.
Proof.
  revert n acc. induction k as [|k IH]; intros n acc H; [assumption|].
  cbn [digits_fixed]. apply IH. cbn [no_newline].
  now rewrite digit_no_newline.
Qed.

Lemma digits_fixed_length (k : nat) (n : Z) (acc : string) :
  String.length (digits_fixed k n acc) = (k + String.length acc)%nat.
Proof.
  revert n acc. induction k as [|k IH]; intros n acc; [reflexivity|].
  cbn [digits_fixed]. rewrite IH. cbn. lia.
Qed.

Lemma string_of_uint_no_newline (u : Decimal.uint) :
  no_newline (NilEmpty.string_of_uint u) = true.
Proof. induction u; cbn; auto. Qed.

Lemma nilzero_no_newline (u : Decimal.uint) :
  no_newline (NilZero.string_of_uint u) = true.
Proof.
  destruct u; try reflexivity; apply (string_of_uint_no_newline (_ u)).
Qed.

Lemma format_6f_no_newline (q : Q) : no_newline (format_6f q) = true.
Proof.
  unfold format_6f. cbv zeta.
  rewrite !no_newline_app.
  rewrite digits_fixed_no_newline by reflexivity.
  unfold str_of_Z. rewrite nilzero_no_newline.
  now destruct (Qltb q 0).
Qed.

(** ** The motion block *)

Lemma pose_line_six (pos : list Q) :
  length pos = 6%nat -> pose_line pos = Ok (pose_text pos ++ nl)%string.
Proof.
  intro H.
  destruct pos as [|p0 [|p1 [|p2 [|p3 [|p4 [|p5 [|]]]]]]]; try discriminate.
  unfold pose_line, pose_text. cbn. f_equal.
  repeat (rewrite string_app_assoc; cbn [String.append]). reflexivity.
Qed.

Lemma pose_text_no_newline (pos : list Q) : no_newline (pose_text pos) = true.
Proof.
  unfold pose_text.
  induction pos as [|p pos IH]; [reflexivity|].
  cbn [map String.concat].
  destruct (map format_6f pos) eqn:E.
  - apply format_6f_no_newline.
  - rewrite !no_newline_app, format_6f_no_newline, IH. reflexivity.
Qed.

Lemma pose_lines_loop (positions : list (list Q)) (out : string) :
  Forall (fun pos => length pos = 6%nat) positions ->
  for_each positions
    (fun out pos => line <- pose_line pos ;; Ok (write out line)) out
  = Ok (out ++ unlines (map pose_text positions))%string.
Proof.
  intro H. revert out.
  induction H as [|pos positions Hpos _ IH]; intro out; cbn [for_each].
  - cbn. now rewrite string_app_nil_r.
  - rewrite (pose_line_six pos Hpos). cbn [bind]. rewrite IH.
    unfold write. cbn [map unlines]. now rewrite !string_app_assoc.
Qed.

Lemma write_header_lines : write_header "" = unlines header_lines.
Proof. reflexivity. Qed.

Lemma write_bvh_text (positions : list (list Q)) (target_fps : Q) :
  Forall (fun pos => length pos = 6%nat) positions -> ~ target_fps == 0 ->
  write_bvh positions target_fps
  = Ok (unlines
          (header_lines ++
           ["MOTION";
            "Frames: " ++ str_of_nat (length positions);
            "Frame Time: " ++ format_6f (1 / target_fps)]%string ++
           map pose_text positions)).
Proof.
  intros Hrows Hfps. unfold write_bvh.
  rewrite (py_div_Ok _ _ Hfps). cbn [bind].
  unfold write_motion. rewrite (pose_lines_loop _ _ Hrows).
  rewrite write_header_lines. unfold write.
  rewrite !unlines_app. cbn [unlines].
  now rewrite !string_app_assoc, ?string_app_nil_r.
Qed.

(** ** Nothing allocated before a call is changed by it *)

Section Frame.

Variable h0 : Heap.heap.

Lemma kept_refl : kept h0 h0.
Proof. apply firstn_all. Qed.

Lemma kept_length (h : Heap.heap) : kept h0 h -> (length h0 <= length h)%nat.
Proof.
  unfold kept. intro H. apply (f_equal (@length _)) in H.
  rewrite length_firstn in H. lia.
Qed.

Lemma kept_alloc (h : Heap.heap) (o : Heap.obj) :
  kept h0 h -> kept h0 (h ++ [o]).
Proof.
  intro H. pose proof (kept_length h H) as Hlen. unfold kept in *.
  rewrite firstn_app.
  replace (length h0 - length h)%nat with 0%nat by lia.
  cbn. now rewrite app_nil_r.
Qed.

Lemma kept_update (h : Heap.heap) (l : Heap.loc) (o : Heap.obj) :
  kept h0 h -> (length h0 <= l)%nat -> kept h0 (Heap.update l o h).
Proof.
  intros H Hl. pose proof (kept_length h H) as Hlen.
  unfold kept, Heap.update in *.
  rewrite firstn_app, firstn_firstn, length_firstn.
  replace (Nat.min (length h0) l) with (length h0) by lia.
  replace (length h0 - Nat.min l (length h))%nat with 0%nat by lia.
  cbn. now rewrite app_nil_r.
Qed.

Lemma keeps_ret {A : Type} (a : A) (P : A -> Prop) :
  P a -> keeps h0 (Heap.ret a) P.
Proof.
  intros Ha h H. split; [assumption|]. cbn. intros a' E. now injection E as <-.
Qed.

Lemma keeps_lift {A : Type} (r : result A) :
  keeps h0 (Heap.lift r) (fun _ => True).
Proof. intros h H. split; [assumption | trivial]. Qed.

Lemma keeps_weaken {A : Type} (m : Heap.M A) (P P' : A -> Prop) :
  (forall a, P a -> P' a) -> keeps h0 m P -> keeps h0 m P'.
Proof.
  intros HP Hm h H. destruct (Hm h H) as [Hk Hv]. split; auto.
Qed.

Lemma keeps_bind {A B : Type} (m : Heap.M A) (k : A -> Heap.M B)
    (P : A -> Prop) (R : B -> Prop) :
  keeps h0 m P -> (forall a, P a -> keeps h0 (k a) R) ->
  keeps h0 (Heap.mbind m k) R.
Proof.
  intros Hm Hk h H. unfold Heap.mbind.
  destruct (Hm h H) as [Hkept Hval].
  destruct (m h) as [h' [a|e]]; cbn [fst snd] in *.
  - apply Hk; auto.
  - split; [assumption | discriminate].
Qed.

Lemma keeps_alloc (o : Heap.obj) :
  keeps h0 (Heap.alloc o) (fun l => (length h0 <= l)%nat).
Proof.
  intros h H. unfold Heap.alloc. cbn [fst snd]. split.
  - now apply kept_alloc.
  - intros l E. injection E as <-. now apply kept_length.
Qed.

Lemma keeps_load (a : Heap.arr) : keeps h0 (Heap.load a) (fun _ => True).
Proof.
  intros h H. unfold Heap.load.
  destruct a as [l|l i]; destruct (nth_error h l) as [[d|m]|];
    cbn [fst snd]; auto.
Qed.

Lemma keeps_load_rows (l : Heap.loc) :
  keeps h0 (Heap.load_rows l) (fun _ => True).
Proof.
  intros h H. unfold Heap.load_rows.
  destruct (nth_error h l) as [[d|m]|]; cbn [fst snd]; auto.
Qed.

Lemma keeps_store_vec (a : Heap.arr) (d : list Q) :
  fresh h0 a -> keeps h0 (Heap.store_vec a d) (fun _ => True).
Proof.
  intros Ha h H. unfold Heap.store_vec.
  destruct a as [l|l i]; destruct (nth_error h l) as [[d'|m]|];
    cbn [fst snd]; auto using kept_update.
Qed.

Lemma keeps_store_rows (l : Heap.loc) (m : list (list Q)) :
  (length h0 <= l)%nat -> keeps h0 (Heap.store_rows l m) (fun _ => True).
Proof.
  intros Hl h H. unfold Heap.store_rows.
  destruct (nth_error h l) as [[d'|m']|]; cbn [fst snd];
    auto using kept_update.
Qed.

Lemma keeps_for_each {B : Type} (l : list B) (f : B -> Heap.M unit) :
  (forall b, keeps h0 (f b) (fun _ => True)) ->
  keeps h0 (Heap.for_each l f) (fun _ => True).
Proof.
  intro Hf. induction l as [|b l IH]; cbn [Heap.for_each].
  - now apply keeps_ret.
  - eapply keeps_bind; [apply Hf|]. intros _ _. exact IH.
Qed.

Lemma keeps_np_array (a : Heap.arr) : keeps h0 (Heap.np_array a) (fresh h0).
Proof.
  unfold Heap.np_array.
  eapply keeps_bind; [apply keeps_load|]. intros d _.
  eapply keeps_bind; [apply keeps_alloc|]. intros l Hl.
  now apply keeps_ret.
Qed.

Lemma keeps_np_interp (x xp fp : Heap.arr) :
  keeps h0 (Heap.np_interp x xp fp) (fresh h0).
Proof.
  unfold Heap.np_interp.
  eapply keeps_bind; [apply keeps_load|]. intros xv _.
  eapply keeps_bind; [apply keeps_load|]. intros xpv _.
  eapply keeps_bind; [apply keeps_load|]. intros fpv _.
  eapply keeps_bind; [apply keeps_lift|]. intros v _.
  eapply keeps_bind; [apply keeps_alloc|]. intros l Hl.
  now apply keeps_ret.
Qed.

Lemma keeps_np_remainder (a : Heap.arr) (m : Q) :
  keeps h0 (Heap.np_remainder a m) (fresh h0).
Proof.
  unfold Heap.np_remainder.
  eapply keeps_bind; [apply keeps_load|]. intros d _.
  eapply keeps_bind; [apply keeps_alloc|]. intros l Hl.
  now apply keeps_ret.
Qed.

Lemma keeps_item (a : Heap.arr) (i : nat) :
  keeps h0 (Heap.item a i) (fun _ => True).
Proof.
  unfold Heap.item.
  eapply keeps_bind; [apply keeps_load|]. intros d _. now apply keeps_ret.
Qed.

Lemma keeps_unwrap_step (angles : Heap.arr) (i : nat) :
  fresh h0 angles -> keeps h0 (Heap.unwrap_step angles i) (fun _ => True).
Proof.
  intro Hfresh. unfold Heap.unwrap_step.
  eapply keeps_bind; [apply keeps_item|]. intros ai _.
  eapply keeps_bind; [apply keeps_item|]. intros ap _.
  cbv zeta.
  destruct (Qltb 180 _); [destruct (Qltb 0 _)|].
  - unfold Heap.slice_isub.
    eapply keeps_bind; [apply keeps_load|]. intros d _.
    now apply keeps_store_vec.
  - unfold Heap.slice_iadd.
    eapply keeps_bind; [apply keeps_load|]. intros d _.
    now apply keeps_store_vec.
  - now apply keeps_ret.
Qed.

Lemma keeps_interpolate_angles (times angles target_times : Heap.arr) :
  keeps h0 (Heap.interpolate_angles times angles target_times) (fresh h0).
Proof.
  unfold Heap.interpolate_angles.
  eapply keeps_bind; [apply keeps_np_array|]. intros copy Hcopy.
  eapply keeps_bind.
  { unfold Heap.len. eapply keeps_bind; [apply keeps_load|].
    intros d _. now apply (keeps_ret _ (fun _ => True)). }
  intros n _.
  eapply keeps_bind.
  { apply keeps_for_each. intro i. now apply keeps_unwrap_step. }
  intros _ _.
  eapply keeps_bind; [apply keeps_np_interp|]. intros v _.
  apply keeps_np_remainder.
Qed.

Lemma keeps_view_column (m : Heap.loc) (i : nat) :
  keeps h0 (Heap.view_column m i) (fun _ => True).
Proof.
  unfold Heap.view_column.
  eapply keeps_bind; [apply keeps_load_rows|]. intros rows _.
  eapply keeps_bind; [apply keeps_lift|]. intros c _.
  now apply keeps_ret.
Qed.

Lemma keeps_assign_column (m : Heap.loc) (i : nat) (v : Heap.arr) :
  (length h0 <= m)%nat -> keeps h0 (Heap.assign_column m i v) (fun _ => True).
Proof.
  intro Hm. unfold Heap.assign_column.
  eapply keeps_bind; [apply keeps_load|]. intros d _.
  eapply keeps_bind; [apply keeps_load_rows|]. intros rows _.
  eapply keeps_bind; [apply keeps_lift|]. intros rows' _.
  now apply keeps_store_rows.
Qed.

Lemma keeps_resample_positions (positions : Heap.loc) (s t : Q) :
  keeps h0 (Heap.resample_positions positions s t) (fun _ => True).
Proof.
  unfold Heap.resample_positions.
  destruct (Qeq_bool s t); [now apply keeps_ret|].
  eapply keeps_bind; [apply keeps_load_rows|]. intros rows _.
  eapply keeps_bind; [apply keeps_lift|]. intros m _.
  eapply keeps_bind; [apply keeps_alloc|]. intros pos_array _.
  eapply keeps_bind; [apply keeps_lift|]. intros ot _.
  eapply keeps_bind; [apply keeps_alloc|]. intros original_times _.
  eapply keeps_bind; [apply keeps_lift|]. intros stop _.
  eapply keeps_bind; [apply keeps_lift|]. intros step _.
  eapply keeps_bind; [apply keeps_lift|]. intros grid _.
  eapply keeps_bind; [apply keeps_alloc|]. intros target_times _.
  eapply keeps_bind; [apply keeps_alloc|]. intros resampled Hres.
  eapply keeps_bind.
  { apply keeps_for_each. intro i.
    eapply keeps_bind; [apply keeps_view_column|]. intros col _.
    eapply keeps_bind; [apply keeps_np_interp|]. intros v _.
    now apply keeps_assign_column. }
  intros _ _.
  eapply keeps_bind.
  { apply keeps_for_each. intro i.
    eapply keeps_bind; [apply keeps_view_column|]. intros col _.
    eapply keeps_bind; [apply keeps_interpolate_angles|]. intros v _.
    now apply keeps_assign_column. }
  intros _ _.
  eapply keeps_bind; [apply keeps_load_rows|]. intros out _.
  eapply keeps_weaken; [|apply keeps_alloc]. trivial.
Qed.

End Frame.

Lemma ceiling_nonpositive (y : Q) : y <= 0 -> Z.to_nat (Qceiling y) = 0%nat.
Proof.
  intro Hy. pose proof (Qceiling_lt y) as H.
  assert (Hlt : inject_Z (Qceiling y - 1) < inject_Z 0)
    by (eapply Qlt_le_trans; eassumption).
  rewrite <- Zlt_Qlt in Hlt. lia.
Qed.

Lemma no_pose_backwards (positions out : list (list Q)) (s t : Q) :
  0 < s -> t <= 0 -> ~ s == t ->
  resample_positions positions s t = Ok out -> out = [].
Proof.
  intros Hs Ht Hst H.
  pose proof (general_path_length _ _ _ _ Hst H) as Hlen.
  rewrite ceiling_nonpositive in Hlen; [now destruct out|].
  assert (H0 : 0 <= Q_of_nat (length positions - 1) / s).
  { apply Qle_shift_div_l; [assumption|].
    pose proof (Q_of_nat_nonneg (length positions - 1)). lra. }
  setoid_replace 0 with (Q_of_nat (length positions - 1) / s * 0) by ring.
  rewrite (Qmult_comm _ t), (Qmult_comm _ 0).
  destruct (Qlt_le_dec 0 (Q_of_nat (length positions - 1) / s)) as [Hp|Hz].
  - apply Qmult_le_compat_r; lra.
  - assert (E : Q_of_nat (length positions - 1) / s == 0) by lra.
    rewrite E. lra.
Qed.

(** ** The heap programs compute what the functions on values compute *)

Lemma load_run (a : Heap.arr) (h : Heap.heap) : Heap.load a h = (h, read h a).
Proof.
  unfold read, Heap.load.
  destruct a as [l|l i]; destruct (nth_error h l) as [[d|m]|]; reflexivity.
Qed.

Lemma load_rows_run (l : Heap.loc) (h : Heap.heap) :
  Heap.load_rows l h = (h, read_rows h l).
Proof.
  unfold read_rows, Heap.load_rows.
  destruct (nth_error h l) as [[d|m]|]; reflexivity.
Qed.

Lemma nth_error_ext (h ext : Heap.heap) (l : Heap.loc) (o : Heap.obj) :
  nth_error h l = Some o -> nth_error (h ++ ext) l = Some o.
Proof.
  intro H. rewrite nth_error_app1; [assumption|].
  apply nth_error_Some. congruence.
Qed.

Lemma read_ext (h ext : Heap.heap) (a : Heap.arr) (v : list Q) :
  read h a = Ok v -> read (h ++ ext) a = Ok v.
Proof.
  unfold read, Heap.load.
  destruct a as [l|l i]; destruct (nth_error h l) as [[d|m]|] eqn:E;
    cbn [snd]; try discriminate;
    now rewrite (nth_error_ext _ ext _ _ E).
Qed.

Lemma read_rows_ext (h ext : Heap.heap) (l : Heap.loc) (m : list (list Q)) :
  read_rows h l = Ok m -> read_rows (h ++ ext) l = Ok m.
Proof.
  unfold read_rows, Heap.load_rows.
  destruct (nth_error h l) as [[d|m']|] eqn:E; cbn [snd]; try discriminate.
  now rewrite (nth_error_ext _ ext _ _ E).
Qed.

Lemma nth_error_at (h ext : Heap.heap) (o : Heap.obj) :
  nth_error (h ++ o :: ext) (length h) = Some o.
Proof. now rewrite nth_error_app2, Nat.sub_diag by lia. Qed.

Lemma update_at (h ext : Heap.heap) (o o' : Heap.obj) :
  Heap.update (length h) o' (h ++ o :: ext) = h ++ o' :: ext.
Proof.
  unfold Heap.update.
  rewrite firstn_app, firstn_all, Nat.sub_diag. cbn [firstn].
  rewrite app_nil_r. f_equal. f_equal.
  rewrite skipn_app, skipn_all2 by lia.
  now replace (S (length h) - length h)%nat with 1%nat by lia.
Qed.

Lemma read_own_at (h ext : Heap.heap) (d : list Q) :
  read (h ++ Heap.Vec d :: ext) (Heap.Own (length h)) = Ok d.
Proof. unfold read, Heap.load. now rewrite nth_error_at. Qed.

Lemma read_rows_at (h ext : Heap.heap) (m : list (list Q)) :
  read_rows (h ++ Heap.Rows m :: ext) (length h) = Ok m.
Proof. unfold read_rows, Heap.load_rows. now rewrite nth_error_at. Qed.

Lemma read_col (h : Heap.heap) (l : Heap.loc) (i : nat) (m : list (list Q)) :
  read_rows h l = Ok m -> read h (Heap.Col l i) = np.column m i.
Proof.
  unfold read_rows, read, Heap.load_rows, Heap.load.
  destruct (nth_error h l) as [[d|m']|]; cbn [snd]; try discriminate.
  now intros [= ->].
Qed.

Lemma store_vec_at (h ext : Heap.heap) (d d' : list Q) :
  Heap.store_vec (Heap.Own (length h)) d' (h ++ Heap.Vec d :: ext)
  = (h ++ Heap.Vec d' :: ext, Ok tt).
Proof. unfold Heap.store_vec. now rewrite nth_error_at, update_at. Qed.

Lemma store_rows_at (h ext : Heap.heap) (m m' : list (list Q)) :
  Heap.store_rows (length h) m' (h ++ Heap.Rows m :: ext)
  = (h ++ Heap.Rows m' :: ext, Ok tt).
Proof. unfold Heap.store_rows. now rewrite nth_error_at, update_at. Qed.

Lemma mbind_ret {A B : Type} (a : A) (k : A -> Heap.M B) (h : Heap.heap) :
  Heap.mbind (Heap.ret a) k h = k a h.
Proof. reflexivity. Qed.

Lemma mbind_lift {A B : Type} (r : result A) (k : A -> Heap.M B)
    (h : Heap.heap) :
  Heap.mbind (Heap.lift r) k h
  = match r with Ok a => k a h | Raise e => (h, Raise e) end.
Proof. reflexivity. Qed.

Lemma mbind_alloc {B : Type} (o : Heap.obj) (k : Heap.loc -> Heap.M B)
    (h : Heap.heap) :
  Heap.mbind (Heap.alloc o) k h = k (length h) (h ++ [o]).
Proof. reflexivity. Qed.

Lemma mbind_load {B : Type} (a : Heap.arr) (k : list Q -> Heap.M B)
    (h : Heap.heap) :
  Heap.mbind (Heap.load a) k h
  = match read h a with Ok d => k d h | Raise e => (h, Raise e) end.
Proof. unfold Heap.mbind. now rewrite load_run. Qed.

Lemma mbind_load_rows {B : Type} (l : Heap.loc)
    (k : list (list Q) -> Heap.M B) (h : Heap.heap) :
  Heap.mbind (Heap.load_rows l) k h
  = match read_rows h l with Ok m => k m h | Raise e => (h, Raise e) end.
Proof. unfold Heap.mbind. now rewrite load_rows_run. Qed.

Lemma mbind_assoc {A B C : Type} (m : Heap.M A) (k : A -> Heap.M B)
    (k' : B -> Heap.M C) (h : Heap.heap) :
  Heap.mbind (Heap.mbind m k) k' h
  = Heap.mbind m (fun a => Heap.mbind (k a) k') h.
Proof.
  unfold Heap.mbind. destruct (m h) as [h' [a|e]]; reflexivity.
Qed.

Lemma mbind_run {A B : Type} (m : Heap.M A) (k : A -> Heap.M B)
    (h h' : Heap.heap) (r : result A) :
  m h = (h', r) ->
  Heap.mbind m k h
  = match r with Ok a => k a h' | Raise e => (h', Raise e) end.
Proof. unfold Heap.mbind. now intros ->. Qed.

Lemma heap_unwrap_step (h : Heap.heap) (d : list Q) (i : nat) :
  Heap.unwrap_step (Heap.Own (length h)) i (h ++ [Heap.Vec d])
  = (h ++ [Heap.Vec (unwrap_step d i)], Ok tt).
Proof.
  unfold Heap.unwrap_step, Heap.item, unwrap_step.
  rewrite mbind_assoc, mbind_load, read_own_at, mbind_ret.
  rewrite mbind_assoc, mbind_load, read_own_at, mbind_ret.
  cbv zeta.
  destruct (Qltb 180 _); [destruct (Qltb 0 _)|]; [| |reflexivity].
  - unfold Heap.slice_isub.
    now rewrite mbind_load, read_own_at, store_vec_at.
  - unfold Heap.slice_iadd.
    now rewrite mbind_load, read_own_at, store_vec_at.
Qed.

Lemma heap_unwrap_loop (h : Heap.heap) (idx : list nat) (d : list Q) :
  Heap.for_each idx (Heap.unwrap_step (Heap.Own (length h)))
    (h ++ [Heap.Vec d])
  = (h ++ [Heap.Vec (fold_left unwrap_step idx d)], Ok tt).
Proof.
  revert d. induction idx as [|i idx IH]; intro d; [reflexivity|].
  cbn [Heap.for_each fold_left].
  rewrite (mbind_run _ _ _ _ _ (heap_unwrap_step h d i)). apply IH.
Qed.

Lemma heap_np_interp (h : Heap.heap) (x xp fp : Heap.arr)
    (xv xpv fpv : list Q) :
  read h x = Ok xv -> read h xp = Ok xpv -> read h fp = Ok fpv ->
  Heap.np_interp x xp fp h
  = match np.interp xv xpv fpv with
    | Ok v => (h ++ [Heap.Vec v], Ok (Heap.Own (length h)))
    | Raise e => (h, Raise e)
    end.
Proof.
  intros Hx Hxp Hfp. unfold Heap.np_interp.
  rewrite mbind_load, Hx, mbind_load, Hxp, mbind_load, Hfp, mbind_lift.
  destruct (np.interp xv xpv fpv); reflexivity.
Qed.

(** [Heap.interpolate_angles] on handles that read as [tv], [av] and [ttv]:
    three arrays are allocated (the unwrapped copy, the interpolated
    values, the result), unless [np.interp] fails after the first. *)
Lemma heap_interpolate_angles (h : Heap.heap)
    (times angles target_times : Heap.arr) (tv av ttv : list Q) :
  read h times = Ok tv -> read h angles = Ok av ->
  read h target_times = Ok ttv ->
  Heap.interpolate_angles times angles target_times h
  = match np.interp ttv tv (unwrap av) with
    | Ok v =>
        (h ++ [Heap.Vec (unwrap av); Heap.Vec v;
               Heap.Vec (np.remainder v 360)],
         Ok (Heap.Own (length h + 2)%nat))
    | Raise e => (h ++ [Heap.Vec (unwrap av)], Raise e)
    end.
Proof.
  intros Ht Ha Htt.
  unfold Heap.interpolate_angles, Heap.np_array, Heap.len.
  rewrite mbind_assoc, mbind_load, Ha, mbind_assoc, mbind_alloc, mbind_ret.
  rewrite mbind_assoc, mbind_load, read_own_at, mbind_ret.
  rewrite (mbind_run _ _ _ _ _ (heap_unwrap_loop h _ av)).
  fold (unwrap av).
  pose proof (heap_np_interp _ _ _ _ _ _ _ (read_ext _ _ _ _ Htt)
                (read_ext _ _ _ _ Ht) (read_own_at h [] (unwrap av))) as Hi.
  destruct (np.interp ttv tv (unwrap av)) as [v|e];
    rewrite (mbind_run _ _ _ _ _ Hi); [|reflexivity].
  unfold Heap.np_remainder.
  rewrite mbind_load, read_own_at, mbind_alloc. unfold Heap.ret.
  rewrite <- !app_assoc. cbn [app].
  rewrite !length_app. cbn [length]. reflexivity.
Qed.

(** The value-level [interpolate_angles] is what the heap program returns,
    in a heap that extends the one it started from. *)
Lemma interpolate_angles_refines (h : Heap.heap)
    (times angles target_times : Heap.arr) (tv av ttv : list Q) :
  read h times = Ok tv -> read h angles = Ok av ->
  read h target_times = Ok ttv ->
  match interpolate_angles tv av ttv with
  | Ok v =>
      exists ext r,
        Heap.interpolate_angles times angles target_times h = (h ++ ext, Ok r)
        /\ read (h ++ ext) r = Ok v
  | Raise e =>
      exists ext,
        Heap.interpolate_angles times angles target_times h
        = (h ++ ext, Raise e)
  end.
Proof.
  intros Ht Ha Htt.
  rewrite (heap_interpolate_angles _ _ _ _ _ _ _ Ht Ha Htt).
  unfold interpolate_angles.
  destruct (np.interp ttv tv (unwrap av)) as [v|e]; cbn [bind].
  - eexists. eexists. split; [reflexivity|].
    replace (length h + 2)%nat
      with (length (h ++ [Heap.Vec (unwrap av); Heap.Vec v]))
      by (rewrite length_app; reflexivity).
    change (h ++ [Heap.Vec (unwrap av); Heap.Vec v;
                  Heap.Vec (np.remainder v 360)])
      with (h ++ [Heap.Vec (unwrap av); Heap.Vec v] ++
                 [Heap.Vec (np.remainder v 360)]).
    rewrite app_assoc. apply read_own_at.
  - eexists. reflexivity.
Qed.

Lemma np_interp_refines (h : Heap.heap) (x xp fp : Heap.arr)
    (xv xpv fpv : list Q) :
  read h x = Ok xv -> read h xp = Ok xpv -> read h fp = Ok fpv ->
  match np.interp xv xpv fpv with
  | Ok v =>
      exists ext r,
        Heap.np_interp x xp fp h = (h ++ ext, Ok r)
        /\ read (h ++ ext) r = Ok v
  | Raise e => exists ext, Heap.np_interp x xp fp h = (h ++ ext, Raise e)
  end.
Proof.
  intros Hx Hxp Hfp. rewrite (heap_np_interp _ _ _ _ _ _ _ Hx Hxp Hfp).
  destruct (np.interp xv xpv fpv) as [v|e].
  - eexists. eexists. split; [reflexivity|]. apply read_own_at.
  - exists []. now rewrite app_nil_r.
Qed.

Section Columns.

(** The heap from the allocation of the result array on: [base] holds the
    two-dimensional copy [m] of the track; the result array comes next. *)
Variables (base : Heap.heap) (pos_array : Heap.loc) (m : list (list Q)).
Hypothesis Hm : read_rows base pos_array = Ok m.

Lemma column_iteration (i : nat) (produce : Heap.arr -> Heap.M Heap.arr)
    (f : list Q -> result (list Q)) :
  (forall ext0 col cv,
      read (base ++ ext0) col = Ok cv ->
      match f cv with
      | Ok v =>
          exists ext r,
            produce col (base ++ ext0) = ((base ++ ext0) ++ ext, Ok r)
            /\ read ((base ++ ext0) ++ ext) r = Ok v
      | Raise e =>
          exists ext,
            produce col (base ++ ext0) = ((base ++ ext0) ++ ext, Raise e)
      end) ->
  simulates base
    (fun res => col <- np.column m i ;; v <- f col ;; np.set_column res i v)
    (Heap.mbind (Heap.view_column pos_array i)
       (fun col =>
          Heap.mbind (produce col)
            (fun v => Heap.assign_column (length base) i v))).
Proof.
  intros Hproduce res h [junk ->].
  unfold Heap.view_column.
  rewrite mbind_assoc, mbind_load_rows, (read_rows_ext _ _ _ _ Hm).
  rewrite mbind_assoc, mbind_lift.
  destruct (np.column m i) as [cv|e] eqn:Ecol; cbn [bind];
    [|eexists; reflexivity].
  rewrite mbind_ret.
  assert (Hcol : read (base ++ Heap.Rows res :: junk) (Heap.Col pos_array i)
                 = Ok cv).
  { rewrite (read_col _ _ _ m); [assumption|]. now apply read_rows_ext. }
  specialize (Hproduce _ _ _ Hcol).
  destruct (f cv) as [v|e]; cbn [bind].
  - destruct Hproduce as (ext & r & Hrun & Hr).
    rewrite (mbind_run _ _ _ _ _ Hrun).
    unfold Heap.assign_column. rewrite mbind_load, Hr.
    rewrite <- app_assoc. cbn [app].
    rewrite mbind_load_rows, read_rows_at, mbind_lift.
    destruct (np.set_column res i v) as [res'|e]; [|eexists; reflexivity].
    rewrite store_rows_at. eexists. split; [reflexivity|].
    eexists. reflexivity.
  - destruct Hproduce as (ext & Hrun).
    rewrite (mbind_run _ _ _ _ _ Hrun). eexists. reflexivity.
Qed.

Lemma simulates_for_each (idx : list nat)
    (f : list (list Q) -> nat -> result (list (list Q)))
    (g : nat -> Heap.M unit) :
  (forall i, simulates base (fun res => f res i) (g i)) ->
  simulates base (for_each idx f) (Heap.for_each idx g).
Proof.
  intro Hstep. induction idx as [|i idx IH]; intros res h Hshape.
  - cbn. eexists. split; [reflexivity | assumption].
  - cbn [for_each Heap.for_each].
    specialize (Hstep i res h Hshape). cbn beta in Hstep.
    destruct (f res i) as [res'|e]; cbn [bind].
    + destruct Hstep as (h' & Hrun & Hshape').
      rewrite (mbind_run _ _ _ _ _ Hrun). now apply IH.
    + destruct Hstep as (h' & Hrun).
      rewrite (mbind_run _ _ _ _ _ Hrun). eexists. reflexivity.
Qed.

End Columns.

(** The value-level [resample_positions] is what the heap program returns:
    a new list holding the resampled track, or the same exception. *)
Lemma resample_positions_refines (h : Heap.heap) (positions : Heap.loc)
    (rows : list (list Q)) (s t : Q) :
  read_rows h positions = Ok rows -> ~ s == t ->
  match resample_positions rows s t with
  | Ok out =>
      exists h' l,
        Heap.resample_positions positions s t h = (h', Ok l)
        /\ read_rows h' l = Ok out
  | Raise e =>
      exists h', Heap.resample_positions positions s t h = (h', Raise e)
  end.
Proof.
  intros Hrows Hst.
  unfold resample_positions, Heap.resample_positions.
  rewrite (Qeq_bool_false _ _ Hst).
  rewrite mbind_load_rows, Hrows, mbind_lift.
  destruct (np.array rows) as [m|e]; cbn [bind]; [|eexists; reflexivity].
  rewrite mbind_alloc, mbind_lift.
  destruct (np.divide _ s) as [ot|e]; cbn [bind]; [|eexists; reflexivity].
  rewrite mbind_alloc, mbind_lift.
  destruct (np.last_item ot) as [stop|e]; cbn [bind]; [|eexists; reflexivity].
  rewrite mbind_lift.
  destruct (py_div 1 t) as [step|e]; cbn [bind]; [|eexists; reflexivity].
  rewrite mbind_lift.
  destruct (np.arange 0 stop step) as [grid|e]; cbn [bind];
    [|eexists; reflexivity].
  rewrite !mbind_alloc.
  set (h1 := h ++ [Heap.Rows m]).
  set (h2 := h1 ++ [Heap.Vec ot]).
  set (base := h2 ++ [Heap.Vec grid]).
  assert (Hm : read_rows base (length h) = Ok m).
  { unfold base, h2, h1. rewrite <- !app_assoc. apply read_rows_at. }
  assert (Hot : forall ext, read (base ++ ext) (Heap.Own (length h1)) = Ok ot).
  { intro ext. unfold base, h2. rewrite <- !app_assoc. apply read_own_at. }
  assert (Hgrid : forall ext, read (base ++ ext) (Heap.Own (length h2)) = Ok grid).
  { intro ext. unfold base. rewrite <- !app_assoc. apply read_own_at. }
  pose proof
    (simulates_for_each base [0; 1; 2]%nat
       (fun res i =>
          col <- np.column m i ;; v <- np.interp grid ot col ;;
          np.set_column res i v)
       _
       (fun i =>
          column_iteration base (length h) m Hm i _ (np.interp grid ot)
            (fun ext0 col cv Hcol =>
               np_interp_refines _ _ _ _ _ _ _ (Hgrid ext0) (Hot ext0) Hcol))
       (np.zeros (length grid) 6) (base ++ [Heap.Rows (np.zeros (length grid) 6)])
       (ex_intro _ [] eq_refl)) as Hpos.
  cbn beta in Hpos.
  destruct (for_each [0; 1; 2]%nat _ _) as [r3|e]; cbn [bind].
  - destruct Hpos as (h3 & Hrun3 & Hshape3).
    rewrite (mbind_run _ _ _ _ _ Hrun3).
    pose proof
      (simulates_for_each base [3; 4; 5]%nat
         (fun res i =>
            col <- np.column m i ;; v <- interpolate_angles ot col grid ;;
            np.set_column res i v)
         _
         (fun i =>
            column_iteration base (length h) m Hm i
              (fun col =>
                 Heap.interpolate_angles (Heap.Own (length h1)) col
                   (Heap.Own (length h2)))
              (fun col => interpolate_angles ot col grid)
              (fun ext0 col cv Hcol =>
                 interpolate_angles_refines _ _ _ _ _ _ _
                   (Hot ext0) Hcol (Hgrid ext0)))
         r3 h3 Hshape3) as Hrot.
    cbn beta in Hrot.
    destruct (for_each [3; 4; 5]%nat _ _) as [r6|e]; cbn [bind].
    + destruct Hrot as (h6 & Hrun6 & junk & ->).
      rewrite (mbind_run _ _ _ _ _ Hrun6).
      rewrite mbind_load_rows, read_rows_at.
      unfold Heap.alloc. eexists. eexists. split; [reflexivity|].
      apply read_rows_at.
    + destruct Hrot as (h6 & Hrun6).
      rewrite (mbind_run _ _ _ _ _ Hrun6). eexists. reflexivity.
  - destruct Hpos as (h3 & Hrun3).
    rewrite (mbind_run _ _ _ _ _ Hrun3). eexists. reflexivity.
Qed.

(** ** The embedding at work *)

(** Without its first line, [interpolate_angles] would change the caller's
    data: the loop run on a column view writes into the track. *)
Example unwrap_in_place_mutates :
  Heap.unwrap_in_place (Heap.Col 0%nat 3%nat)
    [Heap.Rows [[0; 0; 0; 350; 0; 0]; [1; 0; 0; 10; 0; 0]]]
  = ([Heap.Rows [[0; 0; 0; 350; 0; 0]; [1; 0; 0; 370; 0; 0]]], Ok tt).
Proof. reflexivity. Qed.

Example resample_on_heap :
  Heap.resample_positions 0%nat 2 1
    [Heap.Rows [[0; 0; 0; 350; 0; 0]; [1; 0; 0; 10; 0; 0];
                [2; 0; 0; 30; 0; 0]]]
  = ([Heap.Rows [[0; 0; 0; 350; 0; 0]; [1; 0; 0; 10; 0; 0];
                 [2; 0; 0; 30; 0; 0]];
      Heap.Rows [[0; 0; 0; 350; 0; 0]; [1; 0; 0; 10; 0; 0];
                 [2; 0; 0; 30; 0; 0]];
      Heap.Vec [0 # 2; 1 # 2; 2 # 2];
      Heap.Vec [0];
      Heap.Rows [[0; 0; 0; 350; 0; 0]];
      Heap.Vec [0]; Heap.Vec [0]; Heap.Vec [0];
      Heap.Vec [350; 370; 390]; Heap.Vec [350]; Heap.Vec [350];
      Heap.Vec [0; 0; 0]; Heap.Vec [0]; Heap.Vec [0];
      Heap.Vec [0; 0; 0]; Heap.Vec [0]; Heap.Vec [0];
      Heap.Rows [[0; 0; 0; 350; 0; 0]]],
     Ok 17%nat).
Proof. vm_compute. reflexivity. Qed.

Example format_third : format_6f (- (1 # 3)) = "-0.333333"%string.
Proof. reflexivity. Qed.

Example format_tie_even : format_6f (5 # 10000000) = "0.000000"%string.
Proof. reflexivity. Qed.

Example format_tie_odd : format_6f (15 # 10000000) = "0.000002"%string.
Proof. reflexivity. Qed.

Example format_small_negative : format_6f (- (1 # 30000000)) = "-0.000000"%string.
Proof. reflexivity. Qed.

Example format_large : format_6f (12345678 # 7) = "1763668.285714"%string.
Proof. reflexivity. Qed.

Example interp_clamps :
  np.interp [- (1); 0; 1 # 2; 1; 5] [0; 1; 2] [10; 20; 40]
  = Ok [10; 10; (20 - 10) / (1 - 0) * ((1 # 2) - 0) + 10; 20; 40].
Proof. reflexivity. Qed.

Example analyze_two_frames :
  analyze_demo
    {| Demo.directories :=
         [{| Demo.name := "LOADING"; Demo.frames := 9; Demo.time := 1;
             Demo.macros := [] |};
          {| Demo.name := "Playback"; Demo.frames := 2; Demo.time := 1 # 15;
             Demo.macros :=
               [{| Demo.client_data :=
                     Some {| Demo.position :=
                               Some {| Demo.x := 1; Demo.y := 2; Demo.z := 3 |};
                             Demo.rotation :=
                               Some {| Demo.roll := 5; Demo.pitch := 10;
                                       Demo.yaw := 350 |} |} |};
                {| Demo.client_data := None |};
                {| Demo.client_data :=
                     Some {| Demo.position :=
                               Some {| Demo.x := 2; Demo.y := 2; Demo.z := 3 |};
                             Demo.rotation :=
                               Some {| Demo.roll := 5; Demo.pitch := 10;
                                       Demo.yaw := 10 |} |} |}] |}] |}
    30
  = Ok (unlines
          (header_lines ++
           ["MOTION"; "Frames: 2"; "Frame Time: 0.033333";
            "-2.000000 19.000000 -1.000000 -5.000000 -10.000000 350.000000";
            "-2.000000 19.000000 -2.000000 -5.000000 -10.000000 10.000000"
           ]%string)).
Proof. vm_compute. reflexivity. Qed.

(** * The claims *)

(** C1.  [resample_positions] with equal source and target rates returns
    the input track itself, whatever the track and the rate: the two rates
    are compared for equality and nothing else is computed.  On the heap
    the caller gets back the very list it passed, and no object is
    allocated or changed.  The comparison has no tolerance: rates a
    millionth apart take the general path. *)
Theorem resample_same_rate (positions : list (list Q)) (fps : Q) :
  resample_positions positions fps fps = Ok positions
  /\ (forall (h : Heap.heap) (l : Heap.loc),
         Heap.resample_positions l fps fps h = (h, Ok l))
  /\ resample_positions
       [[0; 0; 0; 0; 0; 0]; [6; 0; 0; 0; 0; 0]] 60 (60 + (1 # 1000000))
     <> Ok [[0; 0; 0; 0; 0; 0]; [6; 0; 0; 0; 0; 0]].
Proof.
  unfold resample_positions at 1. unfold Heap.resample_positions.
  rewrite Qeq_bool_refl. split; [reflexivity|]. split; [reflexivity|].
  vm_compute. discriminate.
Qed.







(** C5, as the code has it.  With different rates an empty track fails with
    [IndexError], raised by the access to the last source time.  A track of
    one pose is not rejected: with nonzero rates the result is the empty
    track. *)
Theorem too_few_samples (s t : Q) :
  ~ s == t ->
  resample_positions [] s t = Raise IndexError
  /\ forall pose : list Q,
       (6 <= length pose)%nat -> ~ s == 0 -> ~ t == 0 ->
       resample_positions [pose] s t = Ok [].
Proof.
  intro Hst. split.
  - unfold resample_positions. rewrite (Qeq_bool_false _ _ Hst). reflexivity.
  - intros pose H6 Hs Ht.
    destruct (resample_positions_defined pose [] s t eq_refl H6 Hs Ht Hst)
      as [out Hout].
    rewrite Hout. f_equal.
    pose proof (general_path_length _ _ _ _ Hst Hout) as Hlen.
    cbn [length Nat.sub] in Hlen.
    assert (H0 : Q_of_nat 0 / s * t == 0) by (unfold Q_of_nat; cbn; now field).
    rewrite H0 in Hlen. cbn in Hlen.
    now destruct out.
Qed.

Lemma too_few_samples_witness :
  resample_positions [] 60 30 = Raise IndexError
  /\ forall pose : list Q,
       (6 <= length pose)%nat -> ~ 60 == 0 -> ~ 30 == 0 ->
       resample_positions [pose] 60 30 = Ok [].
Proof.
  apply (too_few_samples 60 30). intro H. discriminate H.
Defined.

(** C5, as the specification has it, fails: a track of one pose at
    different rates is resampled to the empty track and nothing is raised. *)
Lemma single_sample_not_rejected :
  resample_positions [[1; 2; 3; 4; 5; 6]] 60 30 = Ok []
  /\ forall e, resample_positions [[1; 2; 3; 4; 5; 6]] 60 30 <> Raise e.
Proof.
  split; [vm_compute; reflexivity|]. intros e H. vm_compute in H. discriminate H.
Qed.

(** C6.  Extraction never raises.  The track is made of the poses of the
    frame records of the directories named Playback, in order: a record
    with a position and a rotation contributes the one pose
    (-y, z + 16, -x, -roll, -pitch, yaw), any other record nothing.  So a
    directory yields as many poses as it has records with both, and ten
    records of which three lack the rotation yield seven poses. *)
Theorem extraction_skips_incomplete :
  (forall demo : Demo.t,
      exists source_frame_time,
        extract demo
        = Ok (flat_map playback_poses (Demo.directories demo),
              source_frame_time))
  /\ (forall (directory : Demo.directory) positions source_frame_time,
         Demo.name directory = "Playback"%string ->
         exists source_frame_time',
           directory_step (positions, source_frame_time) directory
           = Ok (positions ++ flat_map exposed_pose (Demo.macros directory),
                 source_frame_time')
           /\ length (flat_map exposed_pose (Demo.macros directory))
              = length (filter exposes (Demo.macros directory)))
  /\ (forall (pos : Demo.vec3) (rot : Demo.angles),
         let full := {| Demo.client_data :=
                          Some {| Demo.position := Some pos;
                                  Demo.rotation := Some rot |} |} in
         let partial := {| Demo.client_data :=
                             Some {| Demo.position := Some pos;
                                     Demo.rotation := None |} |} in
         let pose := [- Demo.y pos; Demo.z pos + 16; - Demo.x pos;
                      - Demo.roll rot; - Demo.pitch rot; Demo.yaw rot] in
         forall frames time,
           extract {| Demo.directories :=
                        [{| Demo.name := "Playback";
                            Demo.frames := frames;
                            Demo.time := time;
                            Demo.macros :=
                              [full; full; partial; full; full;
                               partial; full; partial; full; full] |}] |}
           = Ok (repeat pose 7,
                 if (0 <? frames)%Z then time / inject_Z frames else 1 / 60)).
Proof.
  split; [|split].
  - intro demo. eexists. apply extract_Ok.
  - intros d positions sft Hname. eexists. split.
    + rewrite directory_step_Ok. unfold playback_poses.
      rewrite Hname. reflexivity.
    + apply exposed_pose_count.
  - intros pos rot full partial pose frames time.
    rewrite extract_Ok. cbn [Demo.directories fold_left flat_map].
    unfold frame_time_step, playback_poses. cbn [Demo.name Demo.macros].
    cbn [String.eqb Ascii.eqb Bool.eqb Demo.frames Demo.time app].
    reflexivity.
Qed.

Lemma extraction_skips_incomplete_witness :
  exists source_frame_time',
    directory_step
      ([], 1 / 60)
      {| Demo.name := "Playback"; Demo.frames := 2; Demo.time := 1;
         Demo.macros :=
           [{| Demo.client_data := None |};
            {| Demo.client_data :=
                 Some {| Demo.position :=
                           Some {| Demo.x := 1; Demo.y := 2; Demo.z := 3 |};
                         Demo.rotation :=
                           Some {| Demo.roll := 4; Demo.pitch := 5;
                                   Demo.yaw := 6 |} |} |}] |}
    = Ok ([] ++ [[- 2; 3 + 16; - 1; - 4; - 5; 6]], source_frame_time')
    /\ length [[- 2; 3 + 16; - (1); - 4; - 5; (6 : Q)]] = 1%nat.
Proof.
  destruct extraction_skips_incomplete as (_ & H & _).
  apply (H {| Demo.name := "Playback"; Demo.frames := 2; Demo.time := 1;
         Demo.macros :=
           [{| Demo.client_data := None |};
            {| Demo.client_data :=
                 Some {| Demo.position :=
                           Some {| Demo.x := 1; Demo.y := 2; Demo.z := 3 |};
                         Demo.rotation :=
                           Some {| Demo.roll := 4; Demo.pitch := 5;
                                   Demo.yaw := 6 |} |} |}] |} [] (1 / 60)).
  reflexivity.
Defined.

(** C7.  For a demo with one directory named Playback, the source frame
    time is the recorded time divided by the frame count when that count is
    positive, and 1/60 when the count is zero; no division by zero is raised
    in computing it.  The source rate is 1 divided by the source frame
    time. *)
Theorem source_frame_time_default
    (before after : list Demo.directory) (d : Demo.directory) :
  Demo.name d = "Playback"%string ->
  Forall (fun d' => Demo.name d' <> "Playback"%string) before ->
  Forall (fun d' => Demo.name d' <> "Playback"%string) after ->
  let demo := {| Demo.directories := before ++ d :: after |} in
  exists positions source_frame_time,
    extract demo = Ok (positions, source_frame_time)
    /\ (Demo.frames d = 0%Z -> source_frame_time = 1 / 60)
    /\ ((0 < Demo.frames d)%Z ->
        source_frame_time = Demo.time d / inject_Z (Demo.frames d))
    /\ source_track demo
       = (source_fps <- py_div 1 source_frame_time ;;
          Ok (positions, source_fps)).
Proof.
  intros Hname Hbefore Hafter demo.
  exists (flat_map playback_poses (Demo.directories demo)).
  exists (fold_left frame_time_step (Demo.directories demo) (1 / 60)).
  split; [apply extract_Ok|].
  assert (Hsft : fold_left frame_time_step (Demo.directories demo) (1 / 60)
                 = frame_time_step (1 / 60) d).
  { unfold demo. cbn [Demo.directories].
    rewrite fold_left_app. cbn [fold_left].
    now rewrite (frame_time_other before), (frame_time_other after). }
  rewrite Hsft. unfold frame_time_step.
  apply String.eqb_eq in Hname. rewrite Hname.
  split; [|split].
  - intros ->. reflexivity.
  - intro Hpos.
    now replace (0 <? Demo.frames d)%Z with true
      by (symmetry; apply Z.ltb_lt; lia).
  - unfold source_track. rewrite extract_Ok. cbn [bind].
    rewrite Hsft. unfold frame_time_step. rewrite Hname. reflexivity.
Qed.

Lemma source_frame_time_default_witness :
  exists positions source_frame_time,
    extract {| Demo.directories :=
                 [] ++ {| Demo.name := "Playback"; Demo.frames := 0;
                          Demo.time := 7; Demo.macros := [] |} :: [] |}
    = Ok (positions, source_frame_time)
    /\ (0%Z = 0%Z -> source_frame_time = 1 / 60)
    /\ ((0 < 0)%Z -> source_frame_time = 7 / inject_Z 0)
    /\ source_track
         {| Demo.directories :=
              [] ++ {| Demo.name := "Playback"; Demo.frames := 0;
                       Demo.time := 7; Demo.macros := [] |} :: [] |}
       = (source_fps <- py_div 1 source_frame_time ;;
          Ok (positions, source_fps)).
Proof.
  apply (source_frame_time_default [] []
           {| Demo.name := "Playback"; Demo.frames := 0;
              Demo.time := 7; Demo.macros := [] |}).
  - reflexivity.
  - constructor.
  - constructor.
Defined.



(** C9.  Neither [resample_positions] nor [interpolate_angles] changes an
    object that existed when it was called: on every heap and for all
    arguments, the heap after the call begins with the heap before it,
    object for object.  What they write (the unwrap corrections, the columns
    of the result) goes to arrays they allocated themselves. *)
Theorem inputs_not_mutated :
  (forall (h : Heap.heap) (positions : Heap.loc) (s t : Q),
      firstn (length h) (fst (Heap.resample_positions positions s t h)) = h)
  /\ (forall (h : Heap.heap) (times angles target_times : Heap.arr),
         firstn (length h)
                (fst (Heap.interpolate_angles times angles target_times h))
         = h).
Proof.
  split.
  - intros h positions s t.
    apply (keeps_resample_positions h positions s t h (kept_refl h)).
  - intros h times angles target_times.
    apply (keeps_interpolate_angles h times angles target_times h (kept_refl h)).
Qed.



(** * Further properties *)

(** ** The unwrapped samples *)

Lemma slice_iadd_nth_before (i j : nat) (c : Q) (l : list Q) :
  (j < i)%nat -> nth j (np.slice_iadd i c l) 0 = nth j l 0.
Proof.
  intro H. unfold np.slice_iadd.
  destruct (Nat.lt_ge_cases j (length l)) as [Hj|Hj].
  - rewrite app_nth1 by (rewrite length_firstn; lia).
    rewrite <- (firstn_skipn i l) at 2.
    now rewrite app_nth1 by (rewrite length_firstn; lia).
  - rewrite !nth_overflow; try reflexivity; try assumption.
    rewrite length_app, length_map, <- length_app, firstn_skipn. assumption.
Qed.

Lemma unwrap_spec_step_nth (raw acc : list Q) (i j : nat) :
  (j < length acc)%nat ->
  nth j (unwrap_spec_step raw acc i) 0
  == nth j acc 0 + (if Nat.leb i j then correction raw i else 0).
Proof.
  intro Hj. unfold unwrap_spec_step, correction. cbv zeta.
  destruct (Nat.leb i j) eqn:E.
  - apply Nat.leb_le in E.
    destruct (Qltb 180 _); [destruct (Qltb 0 _)|];
      rewrite ?slice_iadd_nth by lia; try reflexivity. ring.
  - apply Nat.leb_gt in E.
    destruct (Qltb 180 _); [destruct (Qltb 0 _)|];
      rewrite ?slice_iadd_nth_before by lia; ring.
Qed.

Lemma unwrap_spec_step_length (raw acc : list Q) (i : nat) :
  length (unwrap_spec_step raw acc i) = length acc.
Proof.
  unfold unwrap_spec_step. cbv zeta.
  destruct (Qltb 180 _); [destruct (Qltb 0 _)|];
    rewrite ?slice_iadd_length; reflexivity.
Qed.

Lemma offset_step (raw : list Q) (i : nat) :
  (1 <= i)%nat -> offset raw i = offset raw (i - 1) + correction raw i.
Proof.
  intro H. destruct i as [|i]; [lia|].
  cbn [offset]. now replace (S i - 1)%nat with i by lia.
Qed.

Lemma unwrap_spec_loop (raw : list Q) :
  forall (k i : nat) (cur : list Q),
    (1 <= i)%nat -> length cur = length raw ->
    (forall j, (j < length raw)%nat ->
               nth j cur 0 == nth j raw 0 + offset raw (Nat.min j (i - 1))) ->
    forall j, (j < length raw)%nat ->
      nth j (fold_left (unwrap_spec_step raw) (seq i k) cur) 0
      == nth j raw 0 + offset raw (Nat.min j (i + k - 1)).
Proof.
  induction k as [|k IH]; intros i cur Hi Hlen Hcur j Hj.
  - cbn [seq fold_left]. rewrite Nat.add_0_r. now apply Hcur.
  - cbn [seq fold_left].
    replace (i + S k - 1)%nat with (S i + k - 1)%nat by lia.
    apply IH; try lia.
    + now rewrite unwrap_spec_step_length.
    + intros j' Hj'. rewrite unwrap_spec_step_nth by lia.
      rewrite (Hcur j' Hj').
      replace (S i - 1)%nat with i by lia.
      destruct (Nat.leb i j') eqn:E.
      * apply Nat.leb_le in E.
        replace (Nat.min j' (i - 1)) with (i - 1)%nat by lia.
        replace (Nat.min j' i) with i by lia.
        rewrite (offset_step raw i Hi). ring.
      * apply Nat.leb_gt in E.
        replace (Nat.min j' (i - 1)) with j' by lia.
        replace (Nat.min j' i) with j' by lia. ring.
Qed.

(** Each unwrapped sample is the raw sample plus its offset. *)
Lemma unwrap_nth (raw : list Q) (j : nat) :
  (j < length raw)%nat ->
  nth j (unwrap raw) 0 == nth j raw 0 + offset raw j.
Proof.
  intro Hj. rewrite unwrap_is_unwrap_spec. unfold unwrap_spec.
  rewrite (unwrap_spec_loop raw (length raw - 1) 1 raw); try lia.
  - now replace (Nat.min j (1 + (length raw - 1) - 1)) with j by lia.
  - intros j' _. replace (Nat.min j' (1 - 1)) with 0%nat by lia.
    cbn [offset]. ring.
Qed.

Lemma correction_cases (raw : list Q) (i : nat) :
  correction raw i = - (360) \/ correction raw i = 360 \/ correction raw i = 0.
Proof.
  unfold correction. cbv zeta.
  destruct (Qltb 180 _); [destruct (Qltb 0 _)|]; auto.
Qed.

Lemma offset_turns (raw : list Q) (j : nat) :
  exists z : Z, offset raw j == 360 * inject_Z z.
Proof.
  induction j as [|j [z IH]].
  - exists 0%Z. reflexivity.
  - cbn [offset].
    destruct (correction_cases raw (S j)) as [E | [E | E]]; rewrite E.
    + exists (z - 1)%Z. unfold Zminus.
      rewrite IH, inject_Z_plus, inject_Z_opp.
      change (inject_Z 1) with 1. ring.
    + exists (z + 1)%Z. rewrite IH, inject_Z_plus.
      change (inject_Z 1) with 1. ring.
    + exists z. rewrite IH. ring.
Qed.

(** ** Remainders modulo 360 *)

Lemma Qfloor_plus_Z (a : Q) (z : Z) :
  Qfloor (a + inject_Z z) = (Qfloor a + z)%Z.
Proof.
  apply Z.le_antisymm.
  - assert (H : a + inject_Z z < inject_Z (Qfloor a + z + 1)).
    { pose proof (Qlt_floor a) as Hlt.
      rewrite !inject_Z_plus in *. lra. }
    pose proof (Qfloor_le (a + inject_Z z)) as Hle.
    assert (Hz : inject_Z (Qfloor (a + inject_Z z))
                 < inject_Z (Qfloor a + z + 1))
      by (eapply Qle_lt_trans; eassumption).
    rewrite <- Zlt_Qlt in Hz. lia.
  - rewrite <- (Qfloor_Z (Qfloor a + z)).
    apply Qfloor_resp_le. rewrite inject_Z_plus.
    pose proof (Qfloor_le a). lra.
Qed.

Lemma py_mod_comp (a b : Q) : a == b -> py_mod a 360 == py_mod b 360.
Proof.
  intro H. unfold py_mod.
  assert (Hf : Qfloor (a / 360) = Qfloor (b / 360))
    by (apply Qfloor_comp; now rewrite H).
  now rewrite Hf, H.
Qed.

Lemma py_mod_turns (a : Q) (z : Z) :
  py_mod (a + 360 * inject_Z z) 360 == py_mod a 360.
Proof.
  unfold py_mod.
  assert (H : (a + 360 * inject_Z z) / 360 == a / 360 + inject_Z z) by field.
  rewrite (Qfloor_comp _ _ H), Qfloor_plus_Z, inject_Z_plus. ring.
Qed.

Lemma unwrap_same_remainder (raw : list Q) (j : nat) :
  (j < length raw)%nat ->
  py_mod (nth j (unwrap raw) 0) 360 == py_mod (nth j raw 0) 360.
Proof.
  intro Hj. destruct (offset_turns raw j) as [z Hz].
  rewrite (py_mod_comp _ _ (unwrap_nth raw j Hj)).
  rewrite (py_mod_comp _ (nth j raw 0 + 360 * inject_Z z)) by (now rewrite Hz).
  apply py_mod_turns.
Qed.

Lemma unwrap_difference (raw : list Q) (i : nat) :
  (1 <= i < length raw)%nat ->
  nth i (unwrap raw) 0 - nth (i - 1) (unwrap raw) 0
  == nth i raw 0 - nth (i - 1) raw 0 + correction raw i.
Proof.
  intro Hi. rewrite (unwrap_nth raw i), (unwrap_nth raw (i - 1)) by lia.
  rewrite (offset_step raw i) by lia. ring.
Qed.

Lemma unwrap_spec_no_jump (raw : list Q) (idx : list nat) (acc : list Q) :
  (forall i, In i idx ->
             Qabs (nth i raw 0 - nth (i - 1) raw 0) <= 180) ->
  fold_left (unwrap_spec_step raw) idx acc = acc.
Proof.
  revert acc. induction idx as [|i idx IH]; intros acc H; [reflexivity|].
  cbn [fold_left].
  assert (Hstep : unwrap_spec_step raw acc i = acc).
  { unfold unwrap_spec_step. cbv zeta.
    now replace (Qltb 180 (Qabs (nth i raw 0 - nth (i - 1) raw 0))) with false
      by (symmetry; apply Qltb_ge, H; now left). }
  rewrite Hstep. apply IH. intros j Hj. apply H. now right.
Qed.





(** X3.  A sequence without a jump of more than 180 between neighbours is
    left as it is by the unwrap, and [interpolate_angles] then is the plain
    interpolation of the samples followed by the reduction modulo 360. *)
Theorem unwrap_without_jump (times angles target_times : list Q) :
  (forall i, (1 <= i < length angles)%nat ->
             Qabs (nth i angles 0 - nth (i - 1) angles 0) <= 180) ->
  unwrap angles = angles
  /\ interpolate_angles times angles target_times
     = (v <- np.interp target_times times angles ;; Ok (np.remainder v 360)).
Proof.
  intro H.
  assert (Hu : unwrap angles = angles).
  { rewrite unwrap_is_unwrap_spec. unfold unwrap_spec.
    apply unwrap_spec_no_jump. intros i Hi.
    apply in_seq in Hi. apply H. lia. }
  split; [assumption|]. unfold interpolate_angles. now rewrite Hu.
Qed.

Lemma unwrap_without_jump_witness :
  unwrap [10; 100; 190; 280] = [10; 100; 190; 280]
  /\ interpolate_angles [0; 1; 2; 3] [10; 100; 190; 280] [1 # 2]
     = (v <- np.interp [1 # 2] [0; 1; 2; 3] [10; 100; 190; 280] ;;
        Ok (np.remainder v 360)).
Proof.
  apply (unwrap_without_jump [0; 1; 2; 3] [10; 100; 190; 280] [1 # 2]).
  intros i Hi. cbn [length] in Hi.
  assert (Hc : i = 1%nat \/ i = 2%nat \/ i = 3%nat) by lia.
  destruct Hc as [-> | [-> | ->]]; vm_compute; discriminate.
Defined.

(** ** The index search on source times *)

Lemma Q_of_nat_le (j k : nat) : (j <= k)%nat <-> Q_of_nat j <= Q_of_nat k.
Proof. unfold Q_of_nat. rewrite <- Zle_Qle. lia. Qed.

Lemma Q_of_nat_mul (j k : nat) : Q_of_nat (j * k) == Q_of_nat j * Q_of_nat k.
Proof.
  unfold Q_of_nat. rewrite Nat2Z.inj_mul, inject_Z_mult. reflexivity.
Qed.

Lemma time_le (s : Q) (j k : nat) :
  0 < s -> (j <= k)%nat -> Q_of_nat j / s <= Q_of_nat k / s.
Proof.
  intros Hs H. apply Q_of_nat_le in H.
  apply Qle_shift_div_l; [assumption|].
  assert (E : Q_of_nat j / s * s == Q_of_nat j) by (field; lra).
  now rewrite E.
Qed.

Lemma linear_search_times (s x : Q) (m : nat) :
  0 < s -> Q_of_nat m / s <= x -> x < Q_of_nat (S m) / s ->
  forall len i,
    (i <= m + 1)%nat ->
    np.linear_search x (map (fun k => Q_of_nat k / s) (seq i len)) i
    = Nat.min (m + 1) (i + len).
Proof.
  intros Hs Hlo Hhi.
  induction len as [|len IH]; intros i Hi; cbn [seq map np.linear_search].
  - lia.
  - destruct (Nat.eq_dec i (m + 1)) as [->|Hne].
    + replace (Qle_bool (Q_of_nat (m + 1) / s) x) with false; [lia|].
      symmetry. apply not_true_is_false. intro Hle.
      apply Qle_bool_iff in Hle. rewrite Nat.add_1_r in Hle. lra.
    + replace (Qle_bool (Q_of_nat i / s) x) with true.
      * rewrite IH by lia. lia.
      * symmetry. apply Qle_bool_iff.
        apply (Qle_trans _ (Q_of_nat m / s)); [|assumption].
        apply time_le; [assumption | lia].
Qed.

Lemma search_times (n m : nat) (s x : Q) :
  0 < s -> (m < n)%nat ->
  Q_of_nat m / s <= x -> x < Q_of_nat (S m) / s ->
  x <= Q_of_nat (n - 1) / s ->
  np.binary_search_with_guess x (source_times n s) = Z.of_nat m.
Proof.
  intros Hs Hm Hlo Hhi Hlast.
  unfold np.binary_search_with_guess. cbv zeta.
  rewrite source_times_length.
  rewrite (source_times_nth n (n - 1)), (source_times_nth n 0) by lia.
  replace (Qltb (Q_of_nat (n - 1) / s) x) with false
    by (symmetry; now apply Qltb_ge).
  replace (Qltb x (Q_of_nat 0 / s)) with false.
  - unfold source_times. rewrite skipn_map, skipn_seq.
    rewrite (linear_search_times s x m Hs Hlo Hhi) by lia. lia.
  - symmetry. apply Qltb_ge.
    apply (Qle_trans _ (Q_of_nat m / s)); [|assumption].
    apply time_le; [assumption | lia].
Qed.

(** At a source time the interpolation returns the sample itself. *)
Lemma interp_at_knot (n m : nat) (s x : Q) (fp : list Q) :
  0 < s -> (m < n)%nat -> x == Q_of_nat m / s ->
  np.interp_at (source_times n s) fp x = Ok (nth m fp 0).
Proof.
  intros Hs Hm Hx.
  assert (Hlt : Q_of_nat m / s < Q_of_nat (S m) / s).
  { apply Qlt_shift_div_l; [assumption|].
    assert (E : Q_of_nat m / s * s == Q_of_nat m) by (field; lra).
    rewrite E. apply Q_of_nat_lt. lia. }
  assert (Hsearch : np.binary_search_with_guess x (source_times n s)
                    = Z.of_nat m).
  { apply search_times; try assumption; try (rewrite Hx; lra).
    rewrite Hx. apply time_le; [assumption | lia]. }
  unfold np.interp_at. cbv zeta.
  rewrite Hsearch, source_times_length, Nat2Z.id.
  destruct (Nat.eqb n 1) eqn:E1.
  - apply Nat.eqb_eq in E1. subst n.
    assert (m = 0%nat) by lia. subst m. cbn [Nat.sub].
    destruct (Qltb x (nth 0 (source_times 1 s) 0));
      destruct (Qltb (nth 0 (source_times 1 s) 0) x); reflexivity.
  - replace (Z.eqb (Z.of_nat m) (-1)) with false
      by (symmetry; apply Z.eqb_neq; lia).
    replace (Z.eqb (Z.of_nat m) (Z.of_nat n)) with false
      by (symmetry; apply Z.eqb_neq; lia).
    destruct (Nat.eqb m (n - 1)); [reflexivity|].
    rewrite (source_times_nth n m) by lia.
    now replace (Qeq_bool (Q_of_nat m / s) x) with true
      by (symmetry; apply Qeq_bool_iff; now rewrite Hx).
Qed.

(** Between two source times the value is on the straight line between the
    two samples. *)
Lemma interp_at_segment (n m : nat) (s x : Q) (fp : list Q) :
  0 < s -> (S m < n)%nat ->
  Q_of_nat m / s <= x -> x < Q_of_nat (S m) / s ->
  exists v,
    np.interp_at (source_times n s) fp x = Ok v
    /\ v == nth m fp 0
            + (x * s - Q_of_nat m) * (nth (S m) fp 0 - nth m fp 0).
Proof.
  intros Hs Hm Hlo Hhi.
  assert (Hsearch : np.binary_search_with_guess x (source_times n s)
                    = Z.of_nat m).
  { apply search_times; try assumption; try lia.
    apply (Qle_trans _ (Q_of_nat (S m) / s)); [lra|].
    apply time_le; [assumption | lia]. }
  unfold np.interp_at. cbv zeta.
  rewrite Hsearch, source_times_length, Nat2Z.id.
  replace (Nat.eqb n 1) with false by (symmetry; apply Nat.eqb_neq; lia).
  replace (Z.eqb (Z.of_nat m) (-1)) with false
    by (symmetry; apply Z.eqb_neq; lia).
  replace (Z.eqb (Z.of_nat m) (Z.of_nat n)) with false
    by (symmetry; apply Z.eqb_neq; lia).
  replace (Nat.eqb m (n - 1)) with false by (symmetry; apply Nat.eqb_neq; lia).
  rewrite Nat.add_1_r.
  rewrite (source_times_nth n m), (source_times_nth n (S m)) by lia.
  destruct (Qeq_bool (Q_of_nat m / s) x) eqn:Eknot.
  - eexists. split; [reflexivity|].
    apply Qeq_bool_iff in Eknot.
    assert (E : x * s - Q_of_nat m == 0)
      by (rewrite <- Eknot; field; lra).
    rewrite E. ring.
  - assert (Hd : Q_of_nat (S m) / s - Q_of_nat m / s == 1 / s)
      by (rewrite Q_of_nat_S; field; lra).
    replace (Qeq_bool (Q_of_nat (S m) / s - Q_of_nat m / s) 0) with false.
    + eexists. split; [reflexivity|]. rewrite Hd. field. lra.
    + symmetry. apply Qeq_bool_false. rewrite Hd.
      apply inverse_nonzero. lra.
Qed.

(** ** The output pose at a target time *)

Lemma map_result_nth {A B : Type} (f : A -> result B) (l : list A)
    (v : list B) (k : nat) (b : B) :
  np.map_result f l = Ok v -> nth_error v k = Some b ->
  exists a, nth_error l k = Some a /\ f a = Ok b.
Proof.
  revert v k. induction l as [|a l IH]; intros v k H Hk; cbn in H.
  - injection H as <-. destruct k; discriminate.
  - bind_split H as b0 Hb0. bind_split H as bs Hbs. injection H as <-.
    destruct k as [|k]; cbn in Hk |- *.
    + injection Hk as <-. eauto.
    + eapply IH; eassumption.
Qed.

Lemma interp_nth (x xp fp v : list Q) (k : nat) (b : Q) :
  np.interp x xp fp = Ok v -> nth_error v k = Some b ->
  exists a, nth_error x k = Some a /\ np.interp_at xp fp a = Ok b.
Proof.
  unfold np.interp. destruct xp; [discriminate|].
  destruct (Nat.eqb _ _); [|discriminate].
  apply map_result_nth.
Qed.

Lemma interpolate_angles_nth (times angles grid v : list Q) (k : nat)
    (b : Q) :
  interpolate_angles times angles grid = Ok v -> nth_error v k = Some b ->
  exists a w, nth_error grid k = Some a
              /\ np.interp_at times (unwrap angles) a = Ok w
              /\ b = py_mod w 360.
Proof.
  intros H Hk. apply interpolate_angles_inv in H as (u & Hu & ->).
  unfold np.remainder in Hk. rewrite nth_error_map in Hk.
  destruct (nth_error u k) as [w|] eqn:Ew; [|discriminate].
  injection Hk as <-.
  destruct (interp_nth _ _ _ _ _ _ Hu Ew) as (a & Ha & Hw). eauto.
Qed.

Lemma zip6_nth_error (k : nat) :
  forall (v0 v1 v2 v3 v4 v5 : list Q) (pose : list Q),
    nth_error (zip6 v0 v1 v2 v3 v4 v5) k = Some pose ->
    exists x0 x1 x2 x3 x4 x5,
      nth_error v0 k = Some x0 /\ nth_error v1 k = Some x1
      /\ nth_error v2 k = Some x2 /\ nth_error v3 k = Some x3
      /\ nth_error v4 k = Some x4 /\ nth_error v5 k = Some x5
      /\ pose = [x0; x1; x2; x3; x4; x5].
Proof.
  induction k as [|k IH]; intros v0 v1 v2 v3 v4 v5 pose H;
    destruct v0, v1, v2, v3, v4, v5; try discriminate; cbn in H.
  - injection H as <-. do 6 eexists. cbn. repeat split; reflexivity.
  - apply IH in H. exact H.
Qed.

Lemma grid_nth (stop step x : Q) (grid : list Q) (k : nat) :
  np.arange 0 stop step = Ok grid -> nth_error grid k = Some x ->
  x = 0 + Q_of_nat k * step.
Proof.
  intros H Hk. apply arange_inv in H as [-> _].
  rewrite nth_error_map in Hk.
  destruct (nth_error (seq 0 _) k) as [k'|] eqn:E; [|discriminate].
  injection Hk as <-.
  assert (Hlt : (k < length (seq 0 (np.arange_len 0 stop step)))%nat)
    by (apply nth_error_Some; congruence).
  rewrite length_seq in Hlt.
  rewrite (nth_error_nth' _ 0%nat) in E by (now rewrite length_seq).
  rewrite seq_nth in E by assumption. injection E as <-. reflexivity.
Qed.

Lemma output_pose (positions out : list (list Q)) (s t : Q) (k : nat)
    (pose : list Q) :
  ~ s == t -> resample_positions positions s t = Ok out ->
  nth_error out k = Some pose ->
  PoseAt positions s (0 + Q_of_nat k * (1 / t)) pose.
Proof.
  intros Hst H Hk.
  destruct (resample_positions_general _ _ _ _ Hst H).
  apply divide_arange_Ok in R_times. subst original_times.
  apply py_div_inv in R_step as [-> _].
  subst out.
  apply zip6_nth_error in Hk
    as (x0 & x1 & x2 & x3 & x4 & x5 & K0 & K1 & K2 & K3 & K4 & K5 & ->).
  destruct (interp_nth _ _ _ _ _ _ R_v0 K0) as (a0 & A0 & Y0).
  destruct (interp_nth _ _ _ _ _ _ R_v1 K1) as (a1 & A1 & Y1).
  destruct (interp_nth _ _ _ _ _ _ R_v2 K2) as (a2 & A2 & Y2).
  destruct (interpolate_angles_nth _ _ _ _ _ _ R_v3 K3)
    as (a3 & w3 & A3 & W3 & ->).
  destruct (interpolate_angles_nth _ _ _ _ _ _ R_v4 K4)
    as (a4 & w4 & A4 & W4 & ->).
  destruct (interpolate_angles_nth _ _ _ _ _ _ R_v5 K5)
    as (a5 & w5 & A5 & W5 & ->).
  pose proof (grid_nth _ _ _ _ _ R_grid A0) as E0.
  assert (a1 = a0) by congruence. assert (a2 = a0) by congruence.
  assert (a3 = a0) by congruence. assert (a4 = a0) by congruence.
  assert (a5 = a0) by congruence. subst a1 a2 a3 a4 a5 a0.
  econstructor; try eassumption. reflexivity.
Qed.

Lemma column_nth (positions : list (list Q)) (c i : nat) (col row : list Q) :
  np.column positions c = Ok col -> nth_error positions i = Some row ->
  nth i col 0 = nth c row 0.
Proof.
  unfold np.column. destruct positions as [|r rows]; [discriminate|].
  destruct (Nat.ltb c (length r)); [|discriminate].
  intros H Hi. injection H as <-.
  apply (map_nth_error (fun r' => nth c r' 0)) in Hi.
  now apply nth_error_nth.
Qed.

Lemma column_inv (positions : list (list Q)) (c : nat) (col : list Q) :
  np.column positions c = Ok col ->
  col = map (fun row => nth c row 0) positions.
Proof.
  unfold np.column. destruct positions as [|r rows]; [discriminate|].
  destruct (Nat.ltb c (length r)); [|discriminate].
  now intros [= <-].
Qed.

Lemma output_index (positions out : list (list Q)) (s t : Q) (k : nat) :
  0 < t -> ~ s == t -> resample_positions positions s t = Ok out ->
  (k < length out)%nat ->
  Q_of_nat k * (1 / t) < Q_of_nat (length positions - 1) / s.
Proof.
  intros Ht Hst H Hk.
  rewrite (general_path_length _ _ _ _ Hst H) in Hk.
  apply below_ceiling in Hk. now apply grid_point_below.
Qed.

(** The source interval a target time falls into. *)
Lemma target_segment (n k : nat) (s t : Q) :
  0 < s -> 0 < t ->
  Q_of_nat k * (1 / t) < Q_of_nat (n - 1) / s ->
  let x := 0 + Q_of_nat k * (1 / t) in
  let i := Z.to_nat (Qfloor (Q_of_nat k / t * s)) in
  (S i < n)%nat /\ Q_of_nat i / s <= x /\ x < Q_of_nat (S i) / s
  /\ x * s == Q_of_nat k / t * s.
Proof.
  intros Hs Ht Hlt x i.
  assert (Hx : x == Q_of_nat k / t) by (unfold x; field; lra).
  assert (Hnonneg : 0 <= Q_of_nat k / t * s).
  { apply Qmult_le_0_compat; [|lra].
    apply Qle_shift_div_l; [assumption|].
    pose proof (Q_of_nat_nonneg k). lra. }
  assert (Hf : (0 <= Qfloor (Q_of_nat k / t * s))%Z).
  { rewrite <- (Qfloor_Z 0). now apply Qfloor_resp_le. }
  assert (Hi : Q_of_nat i == inject_Z (Qfloor (Q_of_nat k / t * s))).
  { unfold i, Q_of_nat. now rewrite Z2Nat.id. }
  pose proof (Qfloor_le (Q_of_nat k / t * s)) as Hlo.
  pose proof (Qlt_floor (Q_of_nat k / t * s)) as Hhi.
  rewrite inject_Z_plus in Hhi. change (inject_Z 1) with 1 in Hhi.
  rewrite <- Hi in Hlo, Hhi.
  assert (Hxs : Q_of_nat k / t * s < Q_of_nat (n - 1)).
  { apply (Qmult_lt_r _ _ s Hs) in Hlt.
    assert (E1 : Q_of_nat k * (1 / t) * s == Q_of_nat k / t * s)
      by (field; lra).
    assert (E2 : Q_of_nat (n - 1) / s * s == Q_of_nat (n - 1))
      by (field; lra).
    now rewrite E1, E2 in Hlt. }
  split; [|split; [|split]].
  - assert (Hin : Q_of_nat i < Q_of_nat (n - 1)) by lra.
    apply Q_of_nat_lt in Hin. lia.
  - rewrite Hx. apply Qle_shift_div_r; [assumption|].
    assert (E : Q_of_nat k / t * s == Q_of_nat k / t * s) by reflexivity.
    lra.
  - rewrite Hx, Q_of_nat_S. apply Qlt_shift_div_l; [assumption|]. lra.
  - now rewrite Hx.
Qed.

Lemma pose_index (out : list (list Q)) (k : nat) (pose : list Q) :
  nth_error out k = Some pose -> (k < length out)%nat.
Proof. intro H. apply nth_error_Some. congruence. Qed.

Lemma track_rows (positions : list (list Q)) (i : nat) :
  (S i < length positions)%nat ->
  exists a b, nth_error positions i = Some a
              /\ nth_error positions (S i) = Some b.
Proof.
  intro H.
  destruct (nth_error positions i) as [a|] eqn:Ea;
    [|apply nth_error_None in Ea; lia].
  destruct (nth_error positions (S i)) as [b|] eqn:Eb;
    [|apply nth_error_None in Eb; lia].
  eauto.
Qed.





Lemma between_segment (lo hi a b f : Q) :
  0 <= f -> f <= 1 -> lo <= a <= hi -> lo <= b <= hi ->
  lo <= a + f * (b - a) <= hi.
Proof.
  intros Hf0 Hf1 [Ha1 Ha2] [Hb1 Hb2].
  assert (H1 : 0 <= (1 - f) * (a - lo)) by (apply Qmult_le_0_compat; lra).
  assert (H2 : 0 <= f * (b - lo)) by (apply Qmult_le_0_compat; lra).
  assert (H3 : 0 <= (1 - f) * (hi - a)) by (apply Qmult_le_0_compat; lra).
  assert (H4 : 0 <= f * (hi - b)) by (apply Qmult_le_0_compat; lra).
  assert (E1 : a + f * (b - a) - lo == (1 - f) * (a - lo) + f * (b - lo))
    by ring.
  assert (E2 : hi - (a + f * (b - a)) == (1 - f) * (hi - a) + f * (hi - b))
    by ring.
  split; lra.
Qed.



(** *** Rates in a whole ratio

    When one rate is a whole multiple of the other, the target times of the
    slower track are source times of the faster one, and the other way
    round. *)
Lemma lower_rate (s : Q) (k : nat) :
  0 < s -> (2 <= k)%nat ->
  0 < s / Q_of_nat k
  /\ ~ s == s / Q_of_nat k
  /\ forall i,
       0 + Q_of_nat i * (1 / (s / Q_of_nat k)) == Q_of_nat (i * k) / s.
Proof.
  intros Hs Hk.
  assert (Hk2 : 2 <= Q_of_nat k)
    by (change 2 with (Q_of_nat 2); now apply Q_of_nat_le).
  set (t := s / Q_of_nat k).
  assert (Ht : 0 < t) by (apply Qlt_shift_div_l; lra).
  assert (Hts : t * Q_of_nat k == s) by (unfold t; field; lra).
  split; [assumption|]. split.
  - intro E.
    assert (E' : t * (Q_of_nat k - 1) == 0).
    { setoid_replace (t * (Q_of_nat k - 1)) with (t * Q_of_nat k - t) by ring.
      rewrite Hts, E. ring. }
    apply Qmult_integral in E'. lra.
  - intro i. rewrite Q_of_nat_mul, <- Hts. field. lra.
Qed.

Lemma raise_rate (s : Q) (k : nat) :
  0 < s -> (2 <= k)%nat ->
  0 < s * Q_of_nat k
  /\ ~ s == s * Q_of_nat k
  /\ forall i,
       0 + Q_of_nat (i * k) * (1 / (s * Q_of_nat k)) == Q_of_nat i / s.
Proof.
  intros Hs Hk.
  assert (Hk2 : 2 <= Q_of_nat k)
    by (change 2 with (Q_of_nat 2); now apply Q_of_nat_le).
  split; [apply Qmult_lt_0_compat; lra|]. split.
  - intro E.
    assert (E' : s * (Q_of_nat k - 1) == 0).
    { setoid_replace (s * (Q_of_nat k - 1)) with (s * Q_of_nat k - s) by ring.
      rewrite <- E. ring. }
    apply Qmult_integral in E'. lra.
  - intro i. rewrite Q_of_nat_mul. field. lra.
Qed.

Lemma lower_rate_length (positions out : list (list Q)) (s : Q) (k : nat) :
  0 < s -> (2 <= k)%nat ->
  resample_positions positions s (s / Q_of_nat k) = Ok out ->
  forall i, (i < length out)%nat <-> (i * k < length positions - 1)%nat.
Proof.
  intros Hs Hk H i.
  destruct (lower_rate s k Hs Hk) as (Ht & Hst & Htime).
  rewrite (general_path_length _ _ _ _ Hst H), below_ceiling.
  rewrite <- (grid_point_below i _ _ Ht).
  assert (E : Q_of_nat i * (1 / (s / Q_of_nat k)) == Q_of_nat (i * k) / s)
    by (rewrite <- Htime; ring).
  rewrite E. split; intro Hlt.
  - apply (Qmult_lt_r _ _ s Hs) in Hlt.
    assert (E1 : Q_of_nat (i * k) / s * s == Q_of_nat (i * k))
      by (field; lra).
    assert (E2 : Q_of_nat (length positions - 1) / s * s
                 == Q_of_nat (length positions - 1)) by (field; lra).
    rewrite E1, E2 in Hlt. now apply Q_of_nat_lt.
  - apply Q_of_nat_lt in Hlt.
    apply Qlt_shift_div_l; [assumption|].
    assert (E1 : Q_of_nat (i * k) / s * s == Q_of_nat (i * k))
      by (field; lra).
    now rewrite E1.
Qed.

Lemma raise_rate_length (positions out : list (list Q)) (s : Q) (k : nat) :
  0 < s -> (2 <= k)%nat ->
  resample_positions positions s (s * Q_of_nat k) = Ok out ->
  length out = ((length positions - 1) * k)%nat.
Proof.
  intros Hs Hk H.
  destruct (raise_rate s k Hs Hk) as (_ & Hst & _).
  rewrite (general_path_length _ _ _ _ Hst H).
  assert (E : Q_of_nat (length positions - 1) / s * (s * Q_of_nat k)
              == inject_Z (Z.of_nat ((length positions - 1) * k))).
  { change (inject_Z (Z.of_nat ((length positions - 1) * k)))
      with (Q_of_nat ((length positions - 1) * k)).
    rewrite Q_of_nat_mul. field. lra. }
  rewrite E, Qceiling_Z. apply Nat2Z.id.
Qed.

(** An output pose whose target time is the time of source pose [m] has
    the position of that pose and its rotations modulo 360. *)
Lemma knot_pose (positions out : list (list Q)) (s t : Q) (j m : nat)
    (pose : list Q) :
  0 < s -> ~ s == t ->
  resample_positions positions s t = Ok out ->
  nth_error out j = Some pose ->
  (m < length positions)%nat ->
  0 + Q_of_nat j * (1 / t) == Q_of_nat m / s ->
  exists src,
    nth_error positions m = Some src
    /\ (forall c, (c < 3)%nat -> nth c pose 0 = nth c src 0)
    /\ (forall c, (3 <= c <= 5)%nat ->
                  nth c pose 0 == py_mod (nth c src 0) 360).
Proof.
  intros Hs Hst H Hj Hm Htime.
  destruct (nth_error positions m) as [src|] eqn:Esrc;
    [|apply nth_error_None in Esrc; lia].
  exists src. split; [reflexivity|].
  destruct (output_pose _ _ _ _ _ _ Hst H Hj). subst pose.
  rewrite (interp_at_knot _ _ _ _ _ Hs Hm Htime) in P_y0.
  rewrite (interp_at_knot _ _ _ _ _ Hs Hm Htime) in P_y1.
  rewrite (interp_at_knot _ _ _ _ _ Hs Hm Htime) in P_y2.
  rewrite (interp_at_knot _ _ _ _ _ Hs Hm Htime) in P_w3.
  rewrite (interp_at_knot _ _ _ _ _ Hs Hm Htime) in P_w4.
  rewrite (interp_at_knot _ _ _ _ _ Hs Hm Htime) in P_w5.
  injection P_y0 as <-. injection P_y1 as <-. injection P_y2 as <-.
  injection P_w3 as <-. injection P_w4 as <-. injection P_w5 as <-.
  split.
  - intros c Hc.
    assert (Hcase : c = 0%nat \/ c = 1%nat \/ c = 2%nat) by lia.
    destruct Hcase as [-> | [-> | ->]]; cbn [nth];
      eapply column_nth; eassumption.
  - intros c Hc.
    assert (Hcol : forall col ch,
               np.column positions ch = Ok col ->
               py_mod (nth m (unwrap col) 0) 360
               == py_mod (nth ch src 0) 360).
    { intros col ch Hcol.
      rewrite unwrap_same_remainder
        by (rewrite (column_inv _ _ _ Hcol), length_map; assumption).
      now rewrite (column_nth _ _ _ _ _ Hcol Esrc). }
    assert (Hcase : c = 3%nat \/ c = 4%nat \/ c = 5%nat) by lia.
    destruct Hcase as [-> | [-> | ->]]; cbn [nth]; now apply Hcol.
Qed.



(** ** The whole run *)

Lemma exposed_pose_rows (macro : Demo.macro) :
  Forall (fun pose => length pose = 6%nat) (exposed_pose macro).
Proof.
  unfold exposed_pose.
  destruct (Demo.client_data macro) as [[[pos|] [rot|]]|];
    repeat constructor.
Qed.

Lemma playback_poses_rows (dirs : list Demo.directory) :
  Forall (fun pose => length pose = 6%nat) (flat_map playback_poses dirs).
Proof.
  induction dirs as [|d dirs IH]; [constructor|].
  cbn [flat_map]. apply Forall_app. split; [|assumption].
  unfold playback_poses. destruct (String.eqb _ _); [|constructor].
  induction (Demo.macros d) as [|m ms IHm]; [constructor|].
  cbn [flat_map]. apply Forall_app. split; [apply exposed_pose_rows | assumption].
Qed.

Lemma general_path_rows (positions out : list (list Q)) (s t : Q) :
  ~ s == t -> resample_positions positions s t = Ok out ->
  Forall (fun pose => length pose = 6%nat) out.
Proof.
  intros Hst H. destruct (resample_positions_general _ _ _ _ Hst H).
  subst out. apply zip6_rows. reflexivity.
Qed.

Lemma motion_lines (positions : list (list Q)) (frame_time : Q) :
  lines
    (unlines
       (header_lines ++
        ["MOTION";
         "Frames: " ++ str_of_nat (length positions);
         "Frame Time: " ++ format_6f frame_time]%string ++
        map pose_text positions))
  = header_lines ++
    ["MOTION";
     "Frames: " ++ str_of_nat (length positions);
     "Frame Time: " ++ format_6f frame_time]%string ++
    map pose_text positions.
Proof.
  apply lines_unlines.
  rewrite !forallb_app. apply andb_true_intro. split; [reflexivity|].
  apply andb_true_intro. split.
  - cbn [forallb]. rewrite !no_newline_app, format_6f_no_newline.
    unfold str_of_nat. now rewrite nilzero_no_newline.
  - apply forallb_forall. intros l Hl.
    apply in_map_iff in Hl as (pos & <- & _). apply pose_text_no_newline.
Qed.

Lemma source_track_Ok (demo : Demo.t) (positions : list (list Q))
    (source_fps : Q) :
  source_track demo = Ok (positions, source_fps) ->
  positions = flat_map playback_poses (Demo.directories demo)
  /\ source_fps = 1 / fold_left frame_time_step (Demo.directories demo) (1 / 60)
  /\ ~ source_fps == 0.
Proof.
  unfold source_track. rewrite extract_Ok. cbn [bind].
  intro H. bind_split H as fps Hfps. injection H as <- <-.
  apply py_div_inv in Hfps as [-> Hnz].
  split; [reflexivity|]. split; [reflexivity|].
  now apply inverse_nonzero.
Qed.


Lemma no_playback_poses (dirs : list Demo.directory) :
  Forall (fun d => Demo.name d <> "Playback"%string) dirs ->
  flat_map playback_poses dirs = [].
Proof.
  induction 1 as [|d dirs Hd _ IH]; [reflexivity|].
  cbn [flat_map]. rewrite IH. unfold playback_poses.
  apply String.eqb_neq in Hd. now rewrite Hd.
Qed.

(** X9.  A run that extracts no pose cannot be resampled: when the source
    rate differs from the target rate, [analyze_demo] raises [IndexError]
    and writes nothing.  A demo without a directory named Playback is such a
    run at every target rate but 60, the default source rate; at 60 it
    writes a motion block of zero frames. *)
Theorem empty_track_run (demo : Demo.t) :
  (forall source_fps target_fps,
      source_track demo = Ok ([], source_fps) ->
      ~ source_fps == inject_Z target_fps ->
      analyze_demo demo target_fps = Raise IndexError)
  /\ (Forall (fun d => Demo.name d <> "Playback"%string)
             (Demo.directories demo) ->
      (forall target_fps,
          target_fps <> 60%Z ->
          analyze_demo demo target_fps = Raise IndexError)
      /\ analyze_demo demo 60
         = Ok (unlines
                 (header_lines ++
                  ["MOTION"; "Frames: 0"; "Frame Time: 0.016667"]%string))).
Proof.
  assert (Hempty : forall source_fps target_fps,
             source_track demo = Ok ([], source_fps) ->
             ~ source_fps == inject_Z target_fps ->
             analyze_demo demo target_fps = Raise IndexError).
  { intros source_fps target_fps Hst Hne. unfold analyze_demo.
    rewrite Hst. cbn [bind].
    rewrite (Qeq_bool_false _ _ Hne). cbn [negb].
    unfold resample_positions. rewrite (Qeq_bool_false _ _ Hne).
    reflexivity. }
  split; [exact Hempty|].
  intro Hnone.
  assert (Hst : source_track demo = Ok ([], 1 / (1 / 60))).
  { unfold source_track. rewrite extract_Ok.
    rewrite (no_playback_poses _ Hnone), (frame_time_other _ _ Hnone).
    reflexivity. }
  split.
  - intros target_fps Hne. apply (Hempty _ _ Hst).
    intro E. apply Hne.
    assert (E60 : 1 / (1 / 60) == inject_Z 60) by reflexivity.
    rewrite E60 in E. unfold Qeq, inject_Z in E. cbn in E. lia.
  - unfold analyze_demo. rewrite Hst. reflexivity.
Qed.


Lemma empty_track_run_witness :
  analyze_demo
    {| Demo.directories :=
         [{| Demo.name := "LOADING"; Demo.frames := 9; Demo.time := 1;
             Demo.macros := [] |}] |} 30
  = Raise IndexError.
Proof.
  destruct (empty_track_run
              {| Demo.directories :=
                   [{| Demo.name := "LOADING"; Demo.frames := 9;
                       Demo.time := 1; Demo.macros := [] |}] |})
    as [_ H].
  apply H.
  - repeat constructor. discriminate.
  - discriminate.
Defined.

Lemma frame_time_unset (dirs : list Demo.directory) (sft : Q) :
  Forall (fun d => Demo.name d <> "Playback"%string
                   \/ (Demo.frames d <= 0)%Z) dirs ->
  fold_left frame_time_step dirs sft = sft.
Proof.
  intro H. revert sft.
  induction H as [|d dirs Hd _ IH]; intro sft; [reflexivity|].
  cbn [fold_left]. rewrite IH. unfold frame_time_step.
  destruct Hd as [Hd|Hd].
  - apply String.eqb_neq in Hd. now rewrite Hd.
  - destruct (String.eqb _ _); [|reflexivity].
    now replace (0 <? Demo.frames d)%Z with false
      by (symmetry; apply Z.ltb_ge; assumption).
Qed.

Lemma frame_time_last (before after : list Demo.directory)
    (d : Demo.directory) (sft : Q) :
  Demo.name d = "Playback"%string -> (0 < Demo.frames d)%Z ->
  Forall (fun d' => Demo.name d' <> "Playback"%string
                    \/ (Demo.frames d' <= 0)%Z) after ->
  fold_left frame_time_step (before ++ d :: after) sft
  = Demo.time d / inject_Z (Demo.frames d).
Proof.
  intros Hname Hframes Hafter.
  rewrite fold_left_app. cbn [fold_left].
  rewrite (frame_time_unset after _ Hafter).
  unfold frame_time_step. apply String.eqb_eq in Hname. rewrite Hname.
  now replace (0 <? Demo.frames d)%Z with true
    by (symmetry; apply Z.ltb_lt; assumption).
Qed.

(** X10.  The poses of all directories named Playback are collected, in
    order, but the source frame time is that of the last of them with a
    positive frame count: whatever comes before it, its recorded time
    divided by its frame count is used. *)
Theorem last_playback_frame_time
    (before after : list Demo.directory) (d : Demo.directory) :
  Demo.name d = "Playback"%string -> (0 < Demo.frames d)%Z ->
  Forall (fun d' => Demo.name d' <> "Playback"%string
                    \/ (Demo.frames d' <= 0)%Z) after ->
  extract {| Demo.directories := before ++ d :: after |}
  = Ok (flat_map playback_poses before ++ playback_poses d
        ++ flat_map playback_poses after,
        Demo.time d / inject_Z (Demo.frames d)).
Proof.
  intros Hname Hframes Hafter.
  rewrite extract_Ok. cbn [Demo.directories].
  rewrite (frame_time_last before after d _ Hname Hframes Hafter).
  rewrite flat_map_app. reflexivity.
Qed.

Lemma last_playback_frame_time_witness :
  extract
    {| Demo.directories :=
         [{| Demo.name := "Playback"; Demo.frames := 100; Demo.time := 1;
             Demo.macros := [] |}]
         ++ {| Demo.name := "Playback"; Demo.frames := 2; Demo.time := 1 # 15;
               Demo.macros := [] |}
         :: [{| Demo.name := "Playback"; Demo.frames := 0; Demo.time := 7;
                Demo.macros := [] |}] |}
  = Ok (flat_map playback_poses
          [{| Demo.name := "Playback"; Demo.frames := 100; Demo.time := 1;
              Demo.macros := [] |}]
        ++ playback_poses
             {| Demo.name := "Playback"; Demo.frames := 2; Demo.time := 1 # 15;
                Demo.macros := [] |}
        ++ flat_map playback_poses
             [{| Demo.name := "Playback"; Demo.frames := 0; Demo.time := 7;
                 Demo.macros := [] |}],
        (1 # 15) / inject_Z 2).
Proof.
  apply (last_playback_frame_time
           [{| Demo.name := "Playback"; Demo.frames := 100; Demo.time := 1;
               Demo.macros := [] |}]
           [{| Demo.name := "Playback"; Demo.frames := 0; Demo.time := 7;
               Demo.macros := [] |}]
           {| Demo.name := "Playback"; Demo.frames := 2; Demo.time := 1 # 15;
              Demo.macros := [] |}).
  - reflexivity.
  - reflexivity.
  - constructor; [right; cbn; lia | constructor].
Defined.

(** X11.  A Playback directory with a positive frame count and a recorded
    time of zero stops the run: the source frame time is zero and the source
    rate, 1 divided by it, raises [ZeroDivisionError] at every target
    rate. *)
Theorem zero_time_run
    (before after : list Demo.directory) (d : Demo.directory)
    (target_fps : Z) :
  Demo.name d = "Playback"%string -> (0 < Demo.frames d)%Z ->
  Demo.time d == 0 ->
  Forall (fun d' => Demo.name d' <> "Playback"%string
                    \/ (Demo.frames d' <= 0)%Z) after ->
  analyze_demo {| Demo.directories := before ++ d :: after |} target_fps
  = Raise ZeroDivisionError.
Proof.
  intros Hname Hframes Htime Hafter.
  unfold analyze_demo, source_track. rewrite extract_Ok.
  cbn [Demo.directories bind].
  rewrite (frame_time_last before after d _ Hname Hframes Hafter).
  unfold py_div.
  replace (Qeq_bool (Demo.time d / inject_Z (Demo.frames d)) 0) with true;
    [reflexivity|].
  symmetry. apply Qeq_bool_iff. rewrite Htime.
  field. now apply positive_frames_nonzero.
Qed.

Lemma zero_time_run_witness :
  analyze_demo
    {| Demo.directories :=
         [] ++ {| Demo.name := "Playback"; Demo.frames := 5; Demo.time := 0;
                  Demo.macros := [] |} :: [] |} 30
  = Raise ZeroDivisionError.
Proof.
  apply (zero_time_run [] []
           {| Demo.name := "Playback"; Demo.frames := 5; Demo.time := 0;
              Demo.macros := [] |} 30).
  - reflexivity.
  - reflexivity.
  - reflexivity.
  - constructor.
Defined.

(** X12.  A target rate of zero never yields a file: whatever the demo,
    [analyze_demo] raises.  (The source rate is never zero, so the track is
    resampled, and [1 / target_fps] is evaluated there unless an earlier
    step has failed.) *)
Theorem zero_target_rate (demo : Demo.t) (text : string) :
  analyze_demo demo 0 <> Ok text.
Proof.
  intro H. unfold analyze_demo in H.
  bind_split H as st Hst. destruct st as [positions source_fps].
  bind_split H as track Htrack.
  apply source_track_Ok in Hst as (_ & _ & Hnz).
  assert (Hne : ~ source_fps == inject_Z 0) by exact Hnz.
  rewrite (Qeq_bool_false _ _ Hne) in Htrack. cbn [negb] in Htrack.
  destruct (resample_positions_general _ _ _ _ Hne Htrack).
  apply py_div_inv in R_step as [_ Hzero]. now apply Hzero.
Qed.

(** ** Raising the rate by a whole factor *)



Lemma py_mod_idempotent (a : Q) :
  py_mod (py_mod a 360) 360 == py_mod a 360.
Proof.
  assert (E : py_mod a 360 == a + 360 * inject_Z (- Qfloor (a / 360))).
  { unfold py_mod. rewrite inject_Z_opp. ring. }
  rewrite (py_mod_comp _ _ E). apply py_mod_turns.
Qed.

Lemma same_bound (a b : nat) :
  (forall i, (i < a)%nat <-> (i < b)%nat) -> a = b.
Proof.
  intro H. pose proof (H a) as Ha. pose proof (H b) as Hb. lia.
Qed.



(** ** A negative target rate *)

(** X15.  A negative target rate is not rejected: for a track of at least
    one six-channel pose and a positive source rate, the target grid is
    empty and [resample_positions] returns the empty track. *)
Theorem negative_target_rate (r : list Q) (rows : list (list Q)) (s t : Q) :
  Forall (fun pose => length pose = 6%nat) (r :: rows) ->
  0 < s -> t < 0 ->
  resample_positions (r :: rows) s t = Ok [].
Proof.
  intros Hrows Hs Ht.
  assert (Hst : ~ s == t) by lra.
  destruct (resample_positions_defined r rows s t) as [out Hout];
    try assumption; try lra.
  - now apply (same_width_all 6).
  - apply Forall_inv in Hrows. lia.
  - rewrite Hout. f_equal.
    apply (no_pose_backwards _ _ _ _ Hs (Qlt_le_weak _ _ Ht) Hst Hout).
Qed.

Lemma negative_target_rate_witness :
  resample_positions
    ([1; 2; 3; 370; -10; 90] :: [[4; 5; 6; 380; -20; 100]]) 60 (-30)
  = Ok [].
Proof.
  apply (negative_target_rate [1; 2; 3; 370; -10; 90]
           [[4; 5; 6; 380; -20; 100]] 60 (-30)).
  - repeat constructor.
  - reflexivity.
  - reflexivity.
Defined.

(** ** The list the caller gets back *)

Lemma resample_positions_fresh (h0 : Heap.heap) (positions : Heap.loc)
    (s t : Q) :
  ~ s == t ->
  keeps h0 (Heap.resample_positions positions s t)
        (fun l => (length h0 <= l)%nat).
Proof.
  intro Hst. unfold Heap.resample_positions.
  rewrite (Qeq_bool_false _ _ Hst).
  eapply keeps_bind; [apply keeps_load_rows|]. intros rows _.
  eapply keeps_bind; [apply keeps_lift|]. intros m _.
  eapply keeps_bind; [apply keeps_alloc|]. intros pos_array _.
  eapply keeps_bind; [apply keeps_lift|]. intros ot _.
  eapply keeps_bind; [apply keeps_alloc|]. intros original_times _.
  eapply keeps_bind; [apply keeps_lift|]. intros stop _.
  eapply keeps_bind; [apply keeps_lift|]. intros step _.
  eapply keeps_bind; [apply keeps_lift|]. intros grid _.
  eapply keeps_bind; [apply keeps_alloc|]. intros target_times _.
  eapply keeps_bind; [apply keeps_alloc|]. intros resampled Hres.
  eapply keeps_bind.
  { apply keeps_for_each. intro i.
    eapply keeps_bind; [apply keeps_view_column|]. intros col _.
    eapply keeps_bind; [apply keeps_np_interp|]. intros v _.
    now apply keeps_assign_column. }
  intros _ _.
  eapply keeps_bind.
  { apply keeps_for_each. intro i.
    eapply keeps_bind; [apply keeps_view_column|]. intros col _.
    eapply keeps_bind; [apply keeps_interpolate_angles|]. intros v _.
    now apply keeps_assign_column. }
  intros _ _.
  eapply keeps_bind; [apply keeps_load_rows|]. intros out _.
  apply keeps_alloc.
Qed.

Lemma read_rows_kept (h h' : Heap.heap) (l : Heap.loc)
    (rows : list (list Q)) :
  kept h h' -> read_rows h l = Ok rows -> read_rows h' l = Ok rows.
Proof.
  intros Hk Hr. rewrite <- (firstn_skipn (length h) h').
  unfold kept in Hk. rewrite Hk. now apply read_rows_ext.
Qed.

Lemma read_rows_bound (h : Heap.heap) (l : Heap.loc) (rows : list (list Q)) :
  read_rows h l = Ok rows -> (l < length h)%nat.
Proof.
  unfold read_rows, Heap.load_rows. intro H.
  apply nth_error_Some. intro E. rewrite E in H. discriminate.
Qed.

(** X16.  When the rates differ, the list [resample_positions] returns is a
    new object: it is not the list that was passed, it holds the resampled
    track, and the list that was passed still holds the source track.  When
    the resampling fails, the exception is the one of the function on
    values and the caller's list is as it was. *)
Theorem result_is_new_list (h : Heap.heap) (positions : Heap.loc)
    (rows : list (list Q)) (s t : Q) :
  read_rows h positions = Ok rows -> ~ s == t ->
  match resample_positions rows s t with
  | Ok out =>
      exists h' l,
        Heap.resample_positions positions s t h = (h', Ok l)
        /\ l <> positions
        /\ read_rows h' l = Ok out
        /\ read_rows h' positions = Ok rows
  | Raise e =>
      exists h',
        Heap.resample_positions positions s t h = (h', Raise e)
        /\ read_rows h' positions = Ok rows
  end.
Proof.
  intros Hrows Hst.
  pose proof (resample_positions_refines h positions rows s t Hrows Hst) as R.
  destruct (resample_positions_fresh h positions s t Hst h (kept_refl h))
    as [Hkept Hfresh].
  pose proof (read_rows_bound _ _ _ Hrows) as Hbound.
  destruct (resample_positions rows s t) as [out|e].
  - destruct R as (h' & l & Hrun & Hout).
    rewrite Hrun in Hkept, Hfresh. cbn [fst snd] in Hkept, Hfresh.
    exists h', l. split; [exact Hrun|].
    split; [specialize (Hfresh l eq_refl); lia|].
    split; [assumption|].
    now apply (read_rows_kept h).
  - destruct R as (h' & Hrun).
    rewrite Hrun in Hkept. cbn [fst] in Hkept.
    exists h'. split; [exact Hrun|].
    now apply (read_rows_kept h).
Qed.

Lemma result_is_new_list_witness :
  match
    resample_positions
      [[0; 0; 0; 350; 0; 0]; [1; 0; 0; 10; 0; 0]; [2; 0; 0; 30; 0; 0]] 2 1
  with
  | Ok out =>
      exists h' l,
        Heap.resample_positions 0%nat 2 1
          [Heap.Rows [[0; 0; 0; 350; 0; 0]; [1; 0; 0; 10; 0; 0];
                      [2; 0; 0; 30; 0; 0]]]
        = (h', Ok l)
        /\ l <> 0%nat
        /\ read_rows h' l = Ok out
        /\ read_rows h' 0%nat
           = Ok [[0; 0; 0; 350; 0; 0]; [1; 0; 0; 10; 0; 0];
                 [2; 0; 0; 30; 0; 0]]
  | Raise e =>
      exists h',
        Heap.resample_positions 0%nat 2 1
          [Heap.Rows [[0; 0; 0; 350; 0; 0]; [1; 0; 0; 10; 0; 0];
                      [2; 0; 0; 30; 0; 0]]]
        = (h', Raise e)
        /\ read_rows h' 0%nat
           = Ok [[0; 0; 0; 350; 0; 0]; [1; 0; 0; 10; 0; 0];
                 [2; 0; 0; 30; 0; 0]]
  end.
Proof.
  apply (result_is_new_list
           [Heap.Rows [[0; 0; 0; 350; 0; 0]; [1; 0; 0; 10; 0; 0];
                       [2; 0; 0; 30; 0; 0]]] 0%nat).
  - reflexivity.
  - intro H. discriminate H.
Defined.



(** * The program on binary64 *)

(** ** Columns and lengths *)

Lemma fl_interp_length (x xp fp v : list Fl.float) :
  Fl.np.interp x xp fp = Ok v -> length v = length x.
Proof.
  unfold Fl.np.interp. destruct xp; [discriminate|].
  destruct (Nat.eqb _ _); [|discriminate].
  intro H. injection H as <-. apply length_map.
Qed.

Lemma fl_interpolate_angles_inv (times angles grid v : list Fl.float) :
  Fl.interpolate_angles times angles grid = Ok v ->
  exists u, Fl.np.interp grid times (Fl.unwrap angles) = Ok u
            /\ v = Fl.np.remainder u (Fl.lit 360).
Proof.
  unfold Fl.interpolate_angles. intro H. bind_split H as u Hu.
  injection H as <-. eauto.
Qed.

Lemma fl_interpolate_angles_length (times angles grid v : list Fl.float) :
  Fl.interpolate_angles times angles grid = Ok v -> length v = length grid.
Proof.
  intro H. apply fl_interpolate_angles_inv in H as (u & Hu & ->).
  unfold Fl.np.remainder. rewrite length_map. now apply fl_interp_length in Hu.
Qed.

Lemma fl_set_column_rows_length (m : list (list Fl.float)) (i : nat)
    (v : list Fl.float) :
  length (Fl.np.set_column_rows m i v) = length m.
Proof.
  revert v. induction m as [|r m IH]; intro v; [reflexivity|].
  destruct v; cbn; [reflexivity|]. now rewrite IH.
Qed.

Lemma fl_set_column_Ok (m m' : list (list Fl.float)) (i : nat)
    (v : list Fl.float) :
  length v = length m -> Fl.np.set_column m i v = Ok m' ->
  m' = Fl.np.set_column_rows m i v /\ length m' = length m.
Proof.
  intros Hlen H. unfold Fl.np.set_column in H.
  rewrite Hlen, Nat.eqb_refl in H. injection H as <-.
  split; [reflexivity|]. apply fl_set_column_rows_length.
Qed.

Lemma fl_zeros_length (n w : nat) : length (Fl.np.zeros n w) = n.
Proof. apply repeat_length. Qed.

Lemma fl_zip6_of_columns (n : nat) :
  forall v0 v1 v2 v3 v4 v5 : list Fl.float,
    length v0 = n -> length v1 = n -> length v2 = n ->
    length v3 = n -> length v4 = n -> length v5 = n ->
    Fl.np.set_column_rows
      (Fl.np.set_column_rows
         (Fl.np.set_column_rows
            (Fl.np.set_column_rows
               (Fl.np.set_column_rows
                  (Fl.np.set_column_rows (Fl.np.zeros n 6) 0 v0) 1 v1) 2 v2)
            3 v3)
         4 v4) 5 v5
    = Fl.zip6 v0 v1 v2 v3 v4 v5.
Proof.
  induction n as [|n IH]; intros v0 v1 v2 v3 v4 v5 H0 H1 H2 H3 H4 H5;
    destruct v0, v1, v2, v3, v4, v5; try discriminate; [reflexivity|].
  cbn in H0, H1, H2, H3, H4, H5.
  cbn. f_equal. apply IH; congruence.
Qed.

Lemma fl_zip6_length (n : nat) :
  forall v0 v1 v2 v3 v4 v5 : list Fl.float,
    length v0 = n -> length v1 = n -> length v2 = n ->
    length v3 = n -> length v4 = n -> length v5 = n ->
    length (Fl.zip6 v0 v1 v2 v3 v4 v5) = n.
Proof.
  induction n as [|n IH]; intros v0 v1 v2 v3 v4 v5 H0 H1 H2 H3 H4 H5;
    destruct v0, v1, v2, v3, v4, v5; try discriminate; [reflexivity|].
  cbn in *. f_equal. apply IH; congruence.
Qed.

Lemma fl_zip6_rows (v0 v1 v2 v3 v4 v5 : list Fl.float)
    (P : list Fl.float -> Prop) :
  (forall x0 x1 x2 x3 x4 x5,
      In x0 v0 -> In x1 v1 -> In x2 v2 -> In x3 v3 -> In x4 v4 -> In x5 v5 ->
      P [x0; x1; x2; x3; x4; x5]) ->
  Forall P (Fl.zip6 v0 v1 v2 v3 v4 v5).
Proof.
  revert v1 v2 v3 v4 v5.
  induction v0 as [|x0 v0 IH]; intros v1 v2 v3 v4 v5 H; [constructor|].
  destruct v1, v2, v3, v4, v5; try constructor.
  - apply H; now left.
  - apply IH. intros. apply H; now right.
Qed.

Lemma fl_zip6_rotation_columns (n : nat) :
  forall v0 v1 v2 v3 v4 v5 : list Fl.float,
    length v0 = n -> length v1 = n -> length v2 = n ->
    length v3 = n -> length v4 = n -> length v5 = n ->
    map (fun pose => nth 3 pose Fl.f0) (Fl.zip6 v0 v1 v2 v3 v4 v5) = v3
    /\ map (fun pose => nth 4 pose Fl.f0) (Fl.zip6 v0 v1 v2 v3 v4 v5) = v4
    /\ map (fun pose => nth 5 pose Fl.f0) (Fl.zip6 v0 v1 v2 v3 v4 v5) = v5.
Proof.
  induction n as [|n IH]; intros v0 v1 v2 v3 v4 v5 H0 H1 H2 H3 H4 H5;
    destruct v0, v1, v2, v3, v4, v5; try discriminate; [now cbn|].
  cbn in H0, H1, H2, H3, H4, H5.
  destruct (IH v0 v1 v2 v3 v4 v5) as (E3 & E4 & E5); try congruence.
  cbn [Fl.zip6 map nth]. now rewrite E3, E4, E5.
Qed.

(** ** The general path of [resample_positions] *)

Lemma fl_resample_general (positions : list (list Fl.float)) (s : Fl.float)
    (t : Z) (out : list (list Fl.float)) :
  Fl.float_eq_int s t = false ->
  Fl.resample_positions positions s t = Ok out ->
  Fl.Resampled positions s t out.
Proof.
  intros Hst H. unfold Fl.resample_positions in H. rewrite Hst in H.
  bind_split H as m Hm.
  unfold Fl.np.array in Hm.
  destruct (Fl.np.same_width positions) eqn:Hw; [|discriminate].
  injection Hm as <-.
  bind_split H as stop Hstop.
  bind_split H as step Hstep. bind_split H as grid Hgrid.
  bind_split H as r3 Hpos. bind_split H as r6 Hrot. inversion H; subst r6.
  cbn [for_each] in Hpos, Hrot.
  bind_split Hpos as r1 H0. bind_split H0 as c0 Hc0. bind_split H0 as v0 Hv0.
  bind_split Hpos as r2 H1. bind_split H1 as c1 Hc1. bind_split H1 as v1 Hv1.
  bind_split Hpos as r3' H2. bind_split H2 as c2 Hc2. bind_split H2 as v2 Hv2.
  inversion Hpos; subst r3'.
  bind_split Hrot as r4 H3. bind_split H3 as c3 Hc3. bind_split H3 as v3 Hv3.
  bind_split Hrot as r5 H4. bind_split H4 as c4 Hc4. bind_split H4 as v4 Hv4.
  bind_split Hrot as r6 H5. bind_split H5 as c5 Hc5. bind_split H5 as v5 Hv5.
  inversion Hrot; subst r6.
  pose proof (fl_interp_length _ _ _ _ Hv0) as L0.
  pose proof (fl_interp_length _ _ _ _ Hv1) as L1.
  pose proof (fl_interp_length _ _ _ _ Hv2) as L2.
  pose proof (fl_interpolate_angles_length _ _ _ _ Hv3) as L3.
  pose proof (fl_interpolate_angles_length _ _ _ _ Hv4) as L4.
  pose proof (fl_interpolate_angles_length _ _ _ _ Hv5) as L5.
  apply fl_set_column_Ok in H0 as [-> N0]; [|now rewrite fl_zeros_length].
  rewrite fl_zeros_length in N0.
  apply fl_set_column_Ok in H1 as [-> N1]; [|congruence].
  apply fl_set_column_Ok in H2 as [-> N2]; [|congruence].
  apply fl_set_column_Ok in H3 as [-> N3]; [|congruence].
  apply fl_set_column_Ok in H4 as [-> N4]; [|congruence].
  apply fl_set_column_Ok in H5 as [-> N5]; [|congruence].
  rewrite (fl_zip6_of_columns (length grid)) by assumption.
  econstructor; eauto.
Qed.

Lemma nth_error_seq_inv (n : nat) :
  forall a k x, nth_error (seq a n) k = Some x -> x = (a + k)%nat.
Proof.
  induction n as [|n IH]; intros a k x H; [now destruct k|].
  destruct k as [|k]; cbn in H.
  - injection H as <-. lia.
  - apply IH in H. lia.
Qed.

Lemma fl_arange_inv (start stop step : Fl.float) (grid : list Fl.float) :
  Fl.np.arange start stop step = Ok grid ->
  Fl.np.arange_len start stop step = Ok (length grid)
  /\ (forall k x, nth_error grid k = Some x ->
        x = match k with
            | O => start
            | S O => B64.add start step
            | _ => B64.add start
                     (B64.mul (B64.of_nat k)
                              (B64.sub (B64.add start step) start))
            end).
Proof.
  unfold Fl.np.arange. intro H. bind_split H as n Hn. injection H as <-.
  rewrite length_map, length_seq. split; [assumption|].
  intros k x Hk. rewrite nth_error_map in Hk.
  destruct (nth_error (seq 0 n) k) as [k'|] eqn:E; [|discriminate].
  injection Hk as <-.
  apply nth_error_seq_inv in E. cbn in E. subst k'. reflexivity.
Qed.

Lemma fl_general_path_length (positions : list (list Fl.float))
    (s : Fl.float) (t : Z) (out : list (list Fl.float)) :
  Fl.float_eq_int s t = false ->
  Fl.resample_positions positions s t = Ok out ->
  exists stop step,
    Fl.np.last_item (Fl.np.divide (Fl.np.arange_n (length positions)) s)
    = Ok stop
    /\ Fl.int_div 1 t = Ok step
    /\ Fl.np.arange_len Fl.f0 stop step = Ok (length out)
    /\ Forall (fun pose => length pose = 6%nat) out.
Proof.
  intros Hst H. destruct (fl_resample_general _ _ _ _ Hst H).
  exists stop, step. split; [assumption|]. split; [assumption|].
  pose proof (fl_interp_length _ _ _ _ R_v0) as L0.
  pose proof (fl_interp_length _ _ _ _ R_v1) as L1.
  pose proof (fl_interp_length _ _ _ _ R_v2) as L2.
  pose proof (fl_interpolate_angles_length _ _ _ _ R_v3) as L3.
  pose proof (fl_interpolate_angles_length _ _ _ _ R_v4) as L4.
  pose proof (fl_interpolate_angles_length _ _ _ _ R_v5) as L5.
  subst out. split.
  - rewrite (fl_zip6_length (length target_times)) by assumption.
    now apply fl_arange_inv in R_grid as [Hlen _].
  - apply fl_zip6_rows. reflexivity.
Qed.

(** ** Powers of two *)

Lemma pow2_pos (e : Z) : 0 < B64.pow2 e.
Proof. apply Qpower_0_lt. reflexivity. Qed.

Lemma pow2_plus (a b : Z) : B64.pow2 (a + b) == B64.pow2 a * B64.pow2 b.
Proof. apply Qpower_plus. discriminate. Qed.

Lemma pow2_opp (a : Z) : B64.pow2 (- a) == / B64.pow2 a.
Proof. apply Qpower_opp. Qed.

Lemma pow2_le (a b : Z) : (a <= b)%Z -> B64.pow2 a <= B64.pow2 b.
Proof. intro H. apply Qpower_le_compat_l; [assumption | discriminate]. Qed.

Lemma pow2_lt_inv (a b : Z) : B64.pow2 a < B64.pow2 b -> (a < b)%Z.
Proof.
  intro H. apply (Qpower_lt_compat_l_inv 2); [assumption | reflexivity].
Qed.

Lemma pow2_Z (e : Z) : (0 <= e)%Z -> B64.pow2 e == inject_Z (2 ^ e).
Proof. intro H. symmetry. apply (Zpower_Qpower 2 e H). Qed.

Lemma Qdiv_le_cross (a b c d : Q) :
  0 < b -> 0 < d -> a * d <= c * b -> a / b <= c / d.
Proof.
  intros Hb Hd H. apply Qle_shift_div_r; [assumption|].
  setoid_replace (c / d * b) with (c * b / d) by (field; lra).
  now apply Qle_shift_div_l.
Qed.

Lemma ilog2_lower (q : Q) : 0 < q -> B64.pow2 (B64.ilog2 q) <= q.
Proof.
  intro Hq. unfold B64.ilog2.
  set (a := Z.log2 (Qnum q)). set (b := Z.log2 (Zpos (Qden q))).
  destruct (Qle_bool (B64.pow2 (a - b)) q) eqn:E;
    [now apply Qle_bool_iff|].
  clear E. destruct q as [n d]. cbn [Qnum Qden] in a, b.
  assert (Hn : (0 < n)%Z) by (unfold Qlt in Hq; cbn in Hq; lia).
  destruct (Z.log2_spec n Hn) as [Ha _]. fold a in Ha.
  destruct (Z.log2_spec (Zpos d) (Pos2Z.is_pos d)) as [_ Hb]. fold b in Hb.
  assert (Ha0 : (0 <= a)%Z) by apply Z.log2_nonneg.
  assert (Hb0 : (0 <= b)%Z) by apply Z.log2_nonneg.
  replace (a - b - 1)%Z with (a + - (b + 1))%Z by lia.
  rewrite pow2_plus, pow2_opp, (pow2_Z a), (pow2_Z (b + 1)) by lia.
  rewrite (Qmake_Qdiv n d).
  change (inject_Z (2 ^ a) * / inject_Z (2 ^ (b + 1)))
    with (inject_Z (2 ^ a) / inject_Z (2 ^ (b + 1))).
  apply Qdiv_le_cross.
  - rewrite <- (pow2_Z (b + 1)) by lia. apply pow2_pos.
  - change 0 with (inject_Z 0). rewrite <- Zlt_Qlt. apply Pos2Z.is_pos.
  - rewrite <- !inject_Z_mult, <- Zle_Qle.
    replace (Z.succ b) with (b + 1)%Z in Hb by lia.
    apply Z.mul_le_mono_nonneg; lia.
Qed.

(** ** Rounding to the nearest integer *)

Lemma rne_le_Z (z : Q) (N : Z) :
  z <= inject_Z N -> (round_half_even z <= N)%Z.
Proof.
  intro H. unfold round_half_even.
  pose proof (Qfloor_le z) as Hf.
  pose proof (Qfloor_resp_le _ _ H) as HfN. rewrite Qfloor_Z in HfN.
  assert (Hstrict : inject_Z (Qfloor z) < z -> (Qfloor z + 1 <= N)%Z).
  { intro Hlt. assert (Hq : inject_Z (Qfloor z) < inject_Z N) by lra.
    rewrite <- Zlt_Qlt in Hq. lia. }
  destruct (Qcompare (z - inject_Z (Qfloor z)) (1 # 2)) eqn:C.
  - apply Qeq_alt in C. destruct (Z.even _); [assumption|].
    apply Hstrict. lra.
  - assumption.
  - apply Qgt_alt in C. apply Hstrict. lra.
Qed.

Lemma rne_ge_Z (z : Q) (N : Z) :
  inject_Z N <= z -> (N <= round_half_even z)%Z.
Proof.
  intro H. unfold round_half_even.
  pose proof (Qfloor_resp_le _ _ H) as HfN. rewrite Qfloor_Z in HfN.
  destruct (Qcompare _ _); [destruct (Z.even _)| |]; lia.
Qed.

Lemma rne_error (z : Q) : Qabs (inject_Z (round_half_even z) - z) <= 1 # 2.
Proof.
  unfold round_half_even.
  pose proof (Qfloor_le z) as Hf. pose proof (Qlt_floor z) as Hc.
  rewrite inject_Z_plus in Hc. change (inject_Z 1) with 1 in Hc.
  apply Qabs_Qle_condition.
  destruct (Qcompare (z - inject_Z (Qfloor z)) (1 # 2)) eqn:C.
  - apply Qeq_alt in C. destruct (Z.even _).
    + split; lra.
    + rewrite inject_Z_plus. change (inject_Z 1) with 1. split; lra.
  - apply Qlt_alt in C. split; lra.
  - apply Qgt_alt in C. rewrite inject_Z_plus. change (inject_Z 1) with 1.
    split; lra.
Qed.

(** ** Rounding to binary64 *)

Lemma round_cases (s : bool) (q : Q) :
  0 < q ->
  B64.round s q = B64.Inf s
  \/ exists m e,
       B64.round s q = B64.Fin s m e
       /\ B64.mag m e
          == inject_Z
               (round_half_even
                  (q / B64.pow2 (Z.max (B64.ilog2 q - 52) (-1074))))
             * B64.pow2 (Z.max (B64.ilog2 q - 52) (-1074)).
Proof.
  intro Hq. unfold B64.round.
  assert (E0 : Qeq_bool q 0 = false).
  { apply Qeq_bool_false. intro E. rewrite E in Hq. discriminate Hq. }
  rewrite E0.
  set (e0 := Z.max (B64.ilog2 q - 52) (-1074)).
  set (m0 := round_half_even (q / B64.pow2 e0)).
  destruct (m0 =? 2 ^ 53)%Z eqn:Em.
  - destruct (971 <? e0 + 1)%Z; [now left|]. right.
    exists (2 ^ 52)%Z, (e0 + 1)%Z. split; [reflexivity|].
    apply Z.eqb_eq in Em. rewrite Em. unfold B64.mag.
    rewrite pow2_plus. change (B64.pow2 1) with 2.
    change (inject_Z (2 ^ 52)) with (4503599627370496 # 1).
    change (inject_Z (2 ^ 53)) with (9007199254740992 # 1). ring.
  - destruct (971 <? e0)%Z; [now left|]. right.
    exists m0, e0. split; reflexivity.
Qed.

Lemma round_no_overflow (s : bool) (q : Q) :
  0 < q -> (B64.ilog2 q <= 1022)%Z -> B64.round s q <> B64.Inf s.
Proof.
  intros Hq Hl. unfold B64.round.
  assert (E0 : Qeq_bool q 0 = false).
  { apply Qeq_bool_false. intro E. rewrite E in Hq. discriminate Hq. }
  rewrite E0.
  set (e0 := Z.max (B64.ilog2 q - 52) (-1074)).
  assert (He : (e0 <= 970)%Z) by (unfold e0; lia).
  destruct (_ =? 2 ^ 53)%Z.
  - replace (971 <? e0 + 1)%Z with false by (symmetry; apply Z.ltb_ge; lia).
    discriminate.
  - replace (971 <? e0)%Z with false by (symmetry; apply Z.ltb_ge; lia).
    discriminate.
Qed.

(** A magnitude below a whole number of at most 53 bits is rounded to a
    float that is not above it. *)
Lemma round_le_Z (s : bool) (q : Q) (n : Z) :
  0 < q -> q <= inject_Z n -> (n < 2 ^ 53)%Z ->
  exists m e,
    B64.round s q = B64.Fin s m e
    /\ 0 <= B64.mag m e /\ B64.mag m e <= inject_Z n.
Proof.
  intros Hq Hn H53.
  assert (Hl : (B64.ilog2 q < 53)%Z).
  { apply pow2_lt_inv.
    apply (Qle_lt_trans _ q); [now apply ilog2_lower|].
    apply (Qle_lt_trans _ (inject_Z n)); [assumption|].
    rewrite (pow2_Z 53) by lia. now rewrite <- Zlt_Qlt. }
  destruct (round_cases s q Hq) as [Hinf | (m & e & Hr & Hm)];
    [exfalso; revert Hinf; apply round_no_overflow; [assumption | lia]|].
  exists m, e. split; [assumption|].
  set (e0 := Z.max (B64.ilog2 q - 52) (-1074)) in *.
  assert (He0 : (e0 <= 0)%Z) by (unfold e0; lia).
  pose proof (pow2_pos e0) as Hp.
  rewrite Hm. split.
  - apply Qmult_le_0_compat; [|lra].
    change 0 with (inject_Z 0). rewrite <- Zle_Qle.
    apply rne_ge_Z. apply Qle_shift_div_l; [assumption|].
    change (inject_Z 0) with 0. lra.
  - assert (HN : inject_Z (n * 2 ^ (- e0)) == inject_Z n / B64.pow2 e0).
    { rewrite inject_Z_mult, <- (pow2_Z (- e0)) by lia.
      rewrite pow2_opp. reflexivity. }
    assert (Hle : (round_half_even (q / B64.pow2 e0) <= n * 2 ^ (- e0))%Z).
    { apply rne_le_Z. rewrite HN.
      apply Qmult_le_compat_r; [assumption|].
      apply Qinv_le_0_compat. lra. }
    rewrite Zle_Qle, HN in Hle.
    apply (Qmult_le_compat_r _ _ (B64.pow2 e0)) in Hle; [|lra].
    setoid_replace (inject_Z n / B64.pow2 e0 * B64.pow2 e0) with (inject_Z n)
      in Hle by (field; lra).
    exact Hle.
Qed.

(** A magnitude of at least [2^-1074] is not rounded to zero. *)
Lemma round_positive (s : bool) (q : Q) :
  B64.pow2 (-1074) <= q ->
  B64.round s q = B64.Inf s
  \/ exists m e,
       B64.round s q = B64.Fin s m e /\ B64.pow2 (-1074) <= B64.mag m e.
Proof.
  intro H.
  assert (Hq : 0 < q) by (pose proof (pow2_pos (-1074)); lra).
  destruct (round_cases s q Hq) as [Hinf | (m & e & Hr & Hm)];
    [now left | right].
  exists m, e. split; [assumption|].
  set (e0 := Z.max (B64.ilog2 q - 52) (-1074)) in *.
  pose proof (pow2_pos e0) as Hp.
  assert (H1 : (1 <= round_half_even (q / B64.pow2 e0))%Z).
  { apply rne_ge_Z. apply Qle_shift_div_l; [assumption|].
    change (inject_Z 1) with 1. rewrite Qmult_1_l.
    unfold e0.
    destruct (Z.max_spec (B64.ilog2 q - 52) (-1074)) as [[_ ->]|[_ ->]];
      [assumption|].
    apply (Qle_trans _ (B64.pow2 (B64.ilog2 q))); [|now apply ilog2_lower].
    apply pow2_le. lia. }
  rewrite Hm. rewrite Zle_Qle in H1. change (inject_Z 1) with 1 in H1.
  apply (Qle_trans _ (1 * B64.pow2 e0)).
  - rewrite Qmult_1_l. apply pow2_le. unfold e0. lia.
  - apply Qmult_le_compat_r; [assumption | lra].
Qed.

(** A magnitude of at least 1 is rounded to a float of at least 1. *)
Lemma round_ge_1 (s : bool) (q : Q) :
  1 <= q ->
  B64.round s q = B64.Inf s
  \/ exists m e, B64.round s q = B64.Fin s m e /\ 1 <= B64.mag m e.
Proof.
  intro H.
  assert (Hq : 0 < q) by lra.
  destruct (round_cases s q Hq) as [Hinf | (m & e & Hr & Hm)];
    [now left | right].
  exists m, e. split; [assumption|].
  set (e0 := Z.max (B64.ilog2 q - 52) (-1074)) in *.
  pose proof (pow2_pos e0) as Hp.
  rewrite Hm.
  destruct (Z_le_gt_dec e0 0) as [He|He].
  - assert (HN : inject_Z (2 ^ (- e0)) == 1 / B64.pow2 e0).
    { rewrite <- (pow2_Z (- e0)) by lia. rewrite pow2_opp. field. lra. }
    assert (Hle : (2 ^ (- e0) <= round_half_even (q / B64.pow2 e0))%Z).
    { apply rne_ge_Z. rewrite HN.
      apply Qmult_le_compat_r; [assumption|].
      apply Qinv_le_0_compat. lra. }
    rewrite Zle_Qle, HN in Hle.
    apply (Qmult_le_compat_r _ _ (B64.pow2 e0)) in Hle; [|lra].
    setoid_replace (1 / B64.pow2 e0 * B64.pow2 e0) with 1 in Hle
      by (field; lra).
    exact Hle.
  - assert (H1 : (1 <= round_half_even (q / B64.pow2 e0))%Z).
    { apply rne_ge_Z. apply Qle_shift_div_l; [assumption|].
      change (inject_Z 1) with 1. rewrite Qmult_1_l.
      apply (Qle_trans _ (B64.pow2 (B64.ilog2 q))); [|now apply ilog2_lower].
      apply pow2_le. unfold e0 in *. lia. }
    rewrite Zle_Qle in H1. change (inject_Z 1) with 1 in H1.
    assert (Hp1 : 1 <= B64.pow2 e0)
      by (change 1 with (B64.pow2 0); apply pow2_le; lia).
    apply (Qle_trans _ (1 * B64.pow2 e0)); [lra|].
    apply Qmult_le_compat_r; [assumption | lra].
Qed.

(** The rounding error is at most half a unit of the last place. *)
Lemma round_error (s : bool) (q : Q) (m e : Z) :
  0 < q -> B64.round s q = B64.Fin s m e ->
  Qabs (B64.mag m e - q)
  <= B64.pow2 (Z.max (B64.ilog2 q - 52) (-1074)) * (1 # 2).
Proof.
  intros Hq Hr.
  destruct (round_cases s q Hq) as [Hinf | (m' & e' & Hr' & Hm)];
    [congruence|].
  rewrite Hr in Hr'. injection Hr' as <- <-.
  set (e0 := Z.max (B64.ilog2 q - 52) (-1074)) in *.
  pose proof (pow2_pos e0) as Hp.
  pose proof (rne_error (q / B64.pow2 e0)) as He.
  apply Qabs_Qle_condition in He as [Hlo Hhi].
  set (m0 := inject_Z (round_half_even (q / B64.pow2 e0))) in *.
  assert (E : B64.mag m e - q == (m0 - q / B64.pow2 e0) * B64.pow2 e0)
    by (rewrite Hm; field; lra).
  apply Qabs_Qle_condition. rewrite E. split.
  - setoid_replace (- (B64.pow2 e0 * (1 # 2)))
      with (- (1 # 2) * B64.pow2 e0) by ring.
    apply Qmult_le_compat_r; [assumption | lra].
  - rewrite (Qmult_comm (B64.pow2 e0)).
    apply Qmult_le_compat_r; [assumption | lra].
Qed.

(** A representable magnitude is rounded to itself. *)
Lemma round_exact (s : bool) (q : Q) (m e : Z) :
  (0 < m < 2 ^ 53)%Z -> (-1074 <= e)%Z -> q == B64.mag m e ->
  B64.round s q = B64.Inf s
  \/ exists m' e',
       B64.round s q = B64.Fin s m' e' /\ B64.mag m' e' == q.
Proof.
  intros Hm He Eq.
  pose proof (pow2_pos e) as Hpe.
  assert (Hq : 0 < q).
  { rewrite Eq. unfold B64.mag. apply Qmult_lt_0_compat; [|assumption].
    change 0 with (inject_Z 0). rewrite <- Zlt_Qlt. lia. }
  destruct (round_cases s _ Hq) as [Hinf | (m' & e' & Hr & Hv)];
    [now left | right].
  exists m', e'. split; [assumption|].
  set (e0 := Z.max (B64.ilog2 q - 52) (-1074)) in *.
  pose proof (pow2_pos e0) as Hp.
  assert (Hl : (B64.ilog2 q < 53 + e)%Z).
  { apply pow2_lt_inv.
    apply (Qle_lt_trans _ q); [now apply ilog2_lower|].
    rewrite pow2_plus, (pow2_Z 53), Eq by lia. unfold B64.mag.
    apply Qmult_lt_compat_r; [assumption|]. rewrite <- Zlt_Qlt. lia. }
  assert (He0 : (e0 <= e)%Z) by (unfold e0; lia).
  assert (HN : q / B64.pow2 e0 == inject_Z (m * 2 ^ (e - e0))).
  { rewrite inject_Z_mult, <- (pow2_Z (e - e0)) by lia.
    replace (e - e0)%Z with (e + - e0)%Z by lia.
    rewrite pow2_plus, pow2_opp, Eq. unfold B64.mag. field. lra. }
  assert (Hrne : round_half_even (q / B64.pow2 e0) = (m * 2 ^ (e - e0))%Z).
  { apply Z.le_antisymm; [apply rne_le_Z | apply rne_ge_Z];
      rewrite HN; apply Qle_refl. }
  rewrite Hv, Hrne, <- HN. field. lra.
Qed.

(** ** Comparisons of finite floats *)

Lemma leb_fin (s : bool) (m e : Z) (s' : bool) (m' e' : Z) :
  B64.val (B64.Fin s m e) <= B64.val (B64.Fin s' m' e') ->
  B64.leb (B64.Fin s m e) (B64.Fin s' m' e') = true.
Proof.
  intro H. unfold B64.leb, B64.ltb, B64.eqb, Qltb.
  destruct (Qle_bool (B64.val (B64.Fin s' m' e')) (B64.val (B64.Fin s m e)))
    eqn:E; [|reflexivity].
  apply Qle_bool_iff in E. cbn [negb orb].
  apply Qeq_bool_iff. now apply Qle_antisym.
Qed.

Lemma ltb_fin_false (s : bool) (m e : Z) (s' : bool) (m' e' : Z) :
  B64.ltb (B64.Fin s m e) (B64.Fin s' m' e') = false ->
  B64.val (B64.Fin s' m' e') <= B64.val (B64.Fin s m e).
Proof.
  unfold B64.ltb, Qltb. intro H. apply negb_false_iff in H.
  now apply Qle_bool_iff.
Qed.

Lemma ltb_fin_true (s : bool) (m e : Z) (s' : bool) (m' e' : Z) :
  B64.ltb (B64.Fin s m e) (B64.Fin s' m' e') = true ->
  B64.val (B64.Fin s m e) < B64.val (B64.Fin s' m' e').
Proof.
  unfold B64.ltb, Qltb. intro H. apply negb_true_iff in H.
  apply Qnot_le_lt. intro Hle. apply Qle_bool_iff in Hle. congruence.
Qed.

(** ** The remainder of a division by 360 *)

Lemma lit_360 : Fl.lit 360 = B64.Fin false 6333186975989760 (-44).
Proof. vm_compute. reflexivity. Qed.

Lemma mag_360 : B64.mag 6333186975989760 (-44) == 360.
Proof. vm_compute. reflexivity. Qed.

Lemma fmod_360 (s : bool) (m e : Z) :
  exists qr,
    B64.fmod (B64.Fin s m e) (Fl.lit 360) = B64.round s qr
    /\ 0 <= qr /\ qr < 360.
Proof.
  rewrite lit_360. unfold B64.fmod.
  replace (6333186975989760 =? 0)%Z with false by reflexivity.
  cbv zeta.
  set (a := Qabs (B64.val (B64.Fin s m e))).
  set (b := Qabs (B64.val (B64.Fin false 6333186975989760 (-44)))).
  assert (Hb : b == 360) by (vm_compute; reflexivity).
  eexists. split; [reflexivity|].
  pose proof (Qfloor_le (a / b)) as Hlo.
  pose proof (Qlt_floor (a / b)) as Hhi.
  rewrite inject_Z_plus in Hhi. change (inject_Z 1) with 1 in Hhi.
  set (f := inject_Z (Qfloor (a / b))) in *.
  rewrite Hb in Hlo, Hhi. rewrite Hb.
  assert (Ha : a == (a / 360) * 360) by field.
  split; [rewrite Ha at 1 | rewrite Ha at 1]; lra.
Qed.

Lemma in_turn_fin (s : bool) (m e : Z) :
  0 <= B64.val (B64.Fin s m e) -> B64.val (B64.Fin s m e) <= 360 ->
  Fl.in_turn (B64.Fin s m e).
Proof.
  intros H0 H360. right. rewrite lit_360. split; apply leb_fin.
  - assert (E : B64.val Fl.f0 == 0) by (vm_compute; reflexivity).
    unfold Fl.f0, B64.zero in *. now rewrite E.
  - assert (E : B64.val (B64.Fin false 6333186975989760 (-44)) == 360)
      by (vm_compute; reflexivity).
    now rewrite E.
Qed.

(** [x % 360] is NaN or lies between 0 and 360, both possible. *)
Lemma remainder_in_turn (x : B64.float) :
  Fl.in_turn (B64.remainder x (Fl.lit 360)).
Proof.
  destruct x as [|sx|s m e];
    [left; reflexivity | left; destruct sx; reflexivity |].
  destruct (fmod_360 s m e) as (qr & Hf & Hlo & Hhi).
  unfold B64.remainder. rewrite Hf.
  replace (B64.eqb (Fl.lit 360) (B64.zero false)) with false by reflexivity.
  replace (B64.ltb (Fl.lit 360) (B64.zero false)) with false by reflexivity.
  assert (Hzero : Fl.in_turn (B64.zero false))
    by (apply in_turn_fin; vm_compute; discriminate).
  rewrite lit_360.
  destruct (Qeq_dec qr 0) as [E|E].
  - unfold B64.round. rewrite (proj2 (Qeq_bool_iff qr 0) E).
    replace (B64.eqb (B64.zero s) (B64.zero false)) with true
      by (destruct s; reflexivity).
    exact Hzero.
  - destruct (round_le_Z s qr 360) as (m1 & e1 & Hr & H0 & H360);
      [lra | unfold inject_Z; lra | lia |].
    change (inject_Z 360) with 360 in H360.
    rewrite Hr.
    destruct (B64.eqb (B64.Fin s m1 e1) (B64.zero false)); cbn [negb];
      [exact Hzero|].
    cbn [xorb].
    destruct (B64.ltb (B64.Fin s m1 e1) (B64.zero false)) eqn:El.
    + apply ltb_fin_true in El.
      assert (Ez : B64.val (B64.zero false) == 0) by (vm_compute; reflexivity).
      rewrite Ez in El.
      unfold B64.add.
      set (q := B64.val (B64.Fin s m1 e1)
                + B64.val (B64.Fin false 6333186975989760 (-44))).
      assert (Hq : q == B64.val (B64.Fin s m1 e1) + 360)
        by (unfold q; cbn [B64.val]; now rewrite mag_360).
      assert (Hv : - (360) <= B64.val (B64.Fin s m1 e1)).
      { cbn [B64.val]. destruct s; lra. }
      destruct (Qeq_bool q 0) eqn:Eq0.
      * replace (s && false)%bool with false by (now destruct s).
        exact Hzero.
      * apply Qeq_bool_neq in Eq0.
        assert (Hqpos : 0 < q) by lra.
        unfold B64.of_Q.
        replace (Qltb q 0) with false
          by (symmetry; unfold Qltb; apply negb_false_iff, Qle_bool_iff; lra).
        assert (Habs : Qabs q == q) by (apply Qabs_pos; lra).
        destruct (round_le_Z false (Qabs q) 360) as (m2 & e2 & Hr2 & H20 & H2);
          [lra | unfold inject_Z; lra | lia |].
        change (inject_Z 360) with 360 in H2.
        rewrite Hr2. apply in_turn_fin; cbn [B64.val]; assumption.
    + apply ltb_fin_false in El.
      assert (Ez : B64.val (B64.zero false) == 0) by (vm_compute; reflexivity).
      rewrite Ez in El.
      apply in_turn_fin; [assumption|].
      cbn [B64.val] in *. destruct s; lra.
Qed.

(** ** The unwrap loop as one pass *)

Lemma fl_unwrap_step_at (pre : list Fl.float) (p x : Fl.float)
    (tl : list Fl.float) :
  Fl.unwrap_step (pre ++ p :: x :: tl) (S (length pre))
  = if B64.ltb (Fl.lit 180) (B64.abs (B64.sub x p)) then
      pre ++ p :: map (fun a => Fl.correct a (B64.ltb Fl.f0 (B64.sub x p)))
                      (x :: tl)
    else pre ++ p :: x :: tl.
Proof.
  unfold Fl.unwrap_step, Fl.np.slice_isub, Fl.np.slice_iadd, Fl.correct.
  replace (S (length pre) - 1)%nat with (length pre) by lia.
  rewrite (app_nth2 pre (p :: x :: tl)) by lia.
  replace (S (length pre) - length pre)%nat with 1%nat by lia.
  rewrite (app_nth2 pre (p :: x :: tl)) by lia. rewrite Nat.sub_diag.
  cbn [nth].
  assert (Hf : firstn (S (length pre)) (pre ++ p :: x :: tl) = pre ++ [p]).
  { rewrite firstn_app, firstn_all2 by lia.
    replace (S (length pre) - length pre)%nat with 1%nat by lia. reflexivity. }
  assert (Hs : skipn (S (length pre)) (pre ++ p :: x :: tl) = x :: tl).
  { rewrite skipn_app, skipn_all2 by lia.
    replace (S (length pre) - length pre)%nat with 1%nat by lia. reflexivity. }
  rewrite Hf, Hs, <- !app_assoc. cbn [app].
  destruct (B64.ltb (Fl.lit 180) _); [|reflexivity].
  destruct (B64.ltb Fl.f0 _); reflexivity.
Qed.

Lemma fl_unwrap_loop (rest : list Fl.float) :
  forall (pre : list Fl.float) (p : Fl.float) (made : list bool),
    fold_left Fl.unwrap_step (seq (S (length pre)) (length rest))
      (pre ++ p :: map (fun a => fold_left Fl.correct made a) rest)
    = pre ++ p :: Fl.scan p made rest.
Proof.
  induction rest as [|a rest IH]; intros pre p made; [reflexivity|].
  cbn [length seq fold_left map Fl.scan].
  rewrite fl_unwrap_step_at.
  set (cur := fold_left Fl.correct made a).
  destruct (B64.ltb (Fl.lit 180) (B64.abs (B64.sub cur p))).
  - set (down := B64.ltb Fl.f0 (B64.sub cur p)).
    cbn [map]. rewrite map_map.
    replace (map (fun x => Fl.correct (fold_left Fl.correct made x) down) rest)
      with (map (fun x => fold_left Fl.correct (made ++ [down]) x) rest)
      by (apply map_ext; intro x; now rewrite fold_left_app).
    replace (pre ++ p :: Fl.correct cur down
                  :: map (fun x => fold_left Fl.correct (made ++ [down]) x) rest)
      with ((pre ++ [p]) ++ Fl.correct cur down
              :: map (fun x => fold_left Fl.correct (made ++ [down]) x) rest)
      by (now rewrite <- app_assoc).
    replace (S (S (length pre))) with (S (length (pre ++ [p])))
      by (rewrite length_app; cbn; lia).
    rewrite IH. now rewrite <- app_assoc.
  - replace (pre ++ p :: cur
                  :: map (fun x => fold_left Fl.correct made x) rest)
      with ((pre ++ [p]) ++ cur
              :: map (fun x => fold_left Fl.correct made x) rest)
      by (now rewrite <- app_assoc).
    replace (S (S (length pre))) with (S (length (pre ++ [p])))
      by (rewrite length_app; cbn; lia).
    rewrite IH. now rewrite <- app_assoc.
Qed.

Lemma fl_unwrap_is_scan (angles : list Fl.float) :
  Fl.unwrap angles = Fl.unwrap_scan angles.
Proof.
  destruct angles as [|a rest]; [reflexivity|].
  unfold Fl.unwrap, Fl.unwrap_scan. cbn [length].
  replace (S (length rest) - 1)%nat with (length rest) by lia.
  pose proof (fl_unwrap_loop rest [] a []) as H.
  cbn [length app fold_left] in H.
  rewrite map_id in H. exact H.
Qed.

Lemma fl_unwrap_head (a : Fl.float) (rest : list Fl.float) :
  exists rest', Fl.unwrap (a :: rest) = a :: rest'.
Proof. rewrite fl_unwrap_is_scan. cbn. eauto. Qed.

(** ** Source times at a positive rate *)

Lemma of_nat_0 : B64.of_nat 0 = Fl.f0.
Proof. vm_compute. reflexivity. Qed.

Lemma of_nat_pos (k : nat) :
  (1 <= k)%nat ->
  B64.of_nat k = B64.Inf false
  \/ exists m e, B64.of_nat k = B64.Fin false m e /\ 1 <= B64.mag m e.
Proof.
  intro Hk. unfold B64.of_nat, B64.of_Z, B64.of_Q.
  assert (H1 : 1 <= inject_Z (Z.of_nat k)).
  { change 1 with (inject_Z 1). rewrite <- Zle_Qle. lia. }
  replace (Qltb (inject_Z (Z.of_nat k)) 0) with false
    by (symmetry; unfold Qltb; apply negb_false_iff, Qle_bool_iff; lra).
  apply round_ge_1.
  apply (Qle_trans _ (inject_Z (Z.of_nat k))); [assumption | apply Qle_Qabs].
Qed.

Lemma rate_mag (ms es : Z) :
  (0 < ms < 2 ^ 53)%Z -> (es <= 971)%Z ->
  0 < B64.mag ms es /\ B64.mag ms es <= B64.pow2 1024.
Proof.
  intros Hm He. pose proof (pow2_pos es) as Hp. unfold B64.mag. split.
  - apply Qmult_lt_0_compat; [|assumption].
    change 0 with (inject_Z 0). rewrite <- Zlt_Qlt. lia.
  - replace 1024%Z with (53 + 971)%Z by lia.
    rewrite pow2_plus, (pow2_Z 53) by lia.
    apply (Qle_trans _ (inject_Z (2 ^ 53) * B64.pow2 es)).
    + apply Qmult_le_compat_r; [|lra]. rewrite <- Zle_Qle. lia.
    + apply Qmult_le_l; [reflexivity|]. now apply pow2_le.
Qed.

Lemma time_zero (ms es : Z) :
  (0 < ms)%Z -> B64.div (B64.of_nat 0) (B64.Fin false ms es) = Fl.f0.
Proof.
  intro Hm. rewrite of_nat_0. unfold Fl.f0, B64.zero, B64.div.
  replace (ms =? 0)%Z with false by (symmetry; apply Z.eqb_neq; lia).
  unfold B64.round.
  replace (Qeq_bool _ 0) with true; [reflexivity|].
  symmetry. apply Qeq_bool_iff. cbn [B64.val]. unfold B64.mag.
  change (inject_Z 0) with 0. rewrite Qmult_0_l.
  unfold Qdiv. rewrite Qmult_0_l. reflexivity.
Qed.

(** Later samples have a positive time, or an infinite one. *)
Lemma time_positive (k : nat) (ms es : Z) :
  (1 <= k)%nat -> (0 < ms < 2 ^ 53)%Z -> (es <= 971)%Z ->
  B64.div (B64.of_nat k) (B64.Fin false ms es) = B64.Inf false
  \/ exists m e,
       B64.div (B64.of_nat k) (B64.Fin false ms es) = B64.Fin false m e
       /\ B64.pow2 (-1074) <= B64.mag m e.
Proof.
  intros Hk Hm He.
  destruct (rate_mag ms es Hm He) as [Hs0 Hs1].
  destruct (of_nat_pos k Hk) as [-> | (mk & ek & -> & Hmk)];
    [now left|].
  unfold B64.div.
  replace (ms =? 0)%Z with false by (symmetry; apply Z.eqb_neq; lia).
  cbn [xorb B64.val]. apply round_positive.
  apply (Qle_trans _ (B64.mag mk ek / B64.mag ms es)); [|apply Qle_Qabs].
  apply Qle_shift_div_l; [assumption|].
  apply (Qle_trans _ (B64.pow2 (-1074) * B64.pow2 1024)).
  - apply Qmult_le_l; [apply pow2_pos | assumption].
  - rewrite <- pow2_plus.
    apply (Qle_trans _ 1); [|assumption].
    change 1 with (B64.pow2 0). apply pow2_le. lia.
Qed.

Lemma fl_times_nth (n k : nat) (s : Fl.float) :
  (k < n)%nat ->
  nth k (Fl.np.divide (Fl.np.arange_n n) s) Fl.f0 = B64.div (B64.of_nat k) s.
Proof.
  intro Hk. unfold Fl.np.divide, Fl.np.arange_n.
  rewrite (nth_indep _ Fl.f0 (B64.div (B64.of_nat 0) s))
    by (now rewrite length_map, length_seq).
  rewrite (map_nth (fun a => B64.div (B64.of_nat a) s)).
  now rewrite seq_nth.
Qed.

Lemma fl_times_length (n : nat) (s : Fl.float) :
  length (Fl.np.divide (Fl.np.arange_n n) s) = n.
Proof.
  unfold Fl.np.divide, Fl.np.arange_n. now rewrite length_map, length_seq.
Qed.

Lemma not_below_zero (x : Fl.float) :
  x = B64.Inf false
  \/ (exists m e, x = B64.Fin false m e /\ B64.pow2 (-1074) <= B64.mag m e) ->
  B64.ltb x Fl.f0 = false /\ B64.leb x Fl.f0 = false.
Proof.
  intros [-> | (m & e & -> & H)]; [split; reflexivity|].
  pose proof (pow2_pos (-1074)) as Hp.
  assert (Ez : B64.val Fl.f0 == 0) by (vm_compute; reflexivity).
  unfold B64.leb, B64.ltb, B64.eqb, Fl.f0, B64.zero in *.
  assert (E1 : Qltb (B64.val (B64.Fin false m e))
                    (B64.val (B64.Fin false 0 (-1074))) = false).
  { unfold Qltb. apply negb_false_iff, Qle_bool_iff.
    rewrite Ez. cbn [B64.val]. lra. }
  assert (E2 : Qeq_bool (B64.val (B64.Fin false m e))
                        (B64.val (B64.Fin false 0 (-1074))) = false).
  { apply Qeq_bool_false. rewrite Ez. cbn [B64.val]. lra. }
  rewrite E1, E2. split; reflexivity.
Qed.

(** At target time 0, [np.interp] on the source times returns the first
    sample. *)
Lemma fl_interp_at_first (n : nat) (ms es : Z) (fp : list Fl.float) :
  (2 <= n)%nat -> (0 < ms < 2 ^ 53)%Z -> (es <= 971)%Z ->
  Fl.np.interp_at (Fl.np.divide (Fl.np.arange_n n) (B64.Fin false ms es))
    fp Fl.f0
  = nth 0 fp Fl.f0.
Proof.
  intros Hn Hm He.
  set (s := B64.Fin false ms es).
  set (xp := Fl.np.divide (Fl.np.arange_n n) s).
  pose proof (fl_times_length n s) as Hlen. fold xp in Hlen.
  assert (H0 : nth 0 xp Fl.f0 = Fl.f0).
  { unfold xp. rewrite fl_times_nth by lia. apply time_zero. lia. }
  assert (Hlast : B64.ltb (nth (n - 1) xp Fl.f0) Fl.f0 = false).
  { unfold xp. rewrite fl_times_nth by lia.
    apply not_below_zero, time_positive; [lia | assumption..]. }
  assert (Hskip : exists rest,
             skipn 1 xp = B64.div (B64.of_nat 1) s :: rest).
  { unfold xp, Fl.np.divide, Fl.np.arange_n.
    destruct n as [|[|n']]; [lia | lia |]. cbn [seq map skipn]. eauto. }
  assert (H1 : B64.leb (B64.div (B64.of_nat 1) s) Fl.f0 = false).
  { apply not_below_zero, time_positive; [lia | assumption..]. }
  assert (Hj : Fl.np.binary_search_with_guess Fl.f0 xp = 0%Z).
  { unfold Fl.np.binary_search_with_guess. cbv zeta.
    rewrite Hlen, Hlast, H0.
    replace (B64.ltb Fl.f0 Fl.f0) with false by reflexivity.
    destruct Hskip as [rest ->]. cbn [Fl.np.linear_search].
    rewrite H1. reflexivity. }
  unfold Fl.np.interp_at. cbv zeta. fold xp. rewrite Hlen, Hj.
  change (Z.to_nat 0) with 0%nat. rewrite H0.
  replace (Nat.eqb n 1) with false by (symmetry; apply Nat.eqb_neq; lia).
  replace (B64.is_nan Fl.f0) with false by reflexivity.
  replace (Z.eqb 0 (-1)) with false by reflexivity.
  replace (Z.eqb 0 (Z.of_nat n)) with false
    by (symmetry; apply Z.eqb_neq; lia).
  replace (Nat.eqb 0 (n - 1)) with false
    by (symmetry; apply Nat.eqb_neq; lia).
  replace (B64.eqb Fl.f0 Fl.f0) with true by reflexivity.
  reflexivity.
Qed.

(** ** The first output pose *)

Lemma fl_column_head (r : list Fl.float) (rows : list (list Fl.float))
    (i : nat) (c : list Fl.float) :
  Fl.np.column (r :: rows) i = Ok c ->
  exists c', c = nth i r Fl.f0 :: c'.
Proof.
  unfold Fl.np.column. destruct (Nat.ltb i (length r)); [|discriminate].
  intro H. injection H as <-. cbn [map]. eauto.
Qed.

Lemma fl_interp_cons (x : Fl.float) (grid xp fp v : list Fl.float) :
  Fl.np.interp (x :: grid) xp fp = Ok v ->
  exists v', v = Fl.np.interp_at xp fp x :: v'.
Proof.
  unfold Fl.np.interp. destruct xp; [discriminate|].
  destruct (Nat.eqb _ _); [|discriminate].
  intro H. injection H as <-. cbn [map]. eauto.
Qed.

Lemma fl_interp_first (n : nat) (ms es : Z) (a : Fl.float)
    (c grid v : list Fl.float) :
  (2 <= n)%nat -> (0 < ms < 2 ^ 53)%Z -> (es <= 971)%Z ->
  Fl.np.interp (Fl.f0 :: grid)
    (Fl.np.divide (Fl.np.arange_n n) (B64.Fin false ms es)) (a :: c)
  = Ok v ->
  exists v', v = a :: v'.
Proof.
  intros Hn Hm He H. apply fl_interp_cons in H as [v' ->].
  rewrite fl_interp_at_first by assumption. cbn [nth]. eauto.
Qed.

Lemma fl_interpolate_angles_first (n : nat) (ms es : Z) (a : Fl.float)
    (c grid v : list Fl.float) :
  (2 <= n)%nat -> (0 < ms < 2 ^ 53)%Z -> (es <= 971)%Z ->
  Fl.interpolate_angles
    (Fl.np.divide (Fl.np.arange_n n) (B64.Fin false ms es)) (a :: c)
    (Fl.f0 :: grid)
  = Ok v ->
  exists v', v = B64.remainder a (Fl.lit 360) :: v'.
Proof.
  intros Hn Hm He H.
  apply fl_interpolate_angles_inv in H as (u & Hu & ->).
  destruct (fl_unwrap_head a c) as [c' Ec]. rewrite Ec in Hu.
  apply (fl_interp_first n ms es) in Hu as [u' ->]; try assumption.
  cbn [Fl.np.remainder map]. eauto.
Qed.

Lemma fl_first_pose (r r' : list Fl.float) (rows out : list (list Fl.float))
    (ms es t : Z) (pose : list Fl.float) :
  (0 < ms < 2 ^ 53)%Z -> (es <= 971)%Z ->
  Fl.float_eq_int (B64.Fin false ms es) t = false ->
  Fl.resample_positions (r :: r' :: rows) (B64.Fin false ms es) t = Ok out ->
  hd_error out = Some pose ->
  pose = [nth 0 r Fl.f0; nth 1 r Fl.f0; nth 2 r Fl.f0;
          B64.remainder (nth 3 r Fl.f0) (Fl.lit 360);
          B64.remainder (nth 4 r Fl.f0) (Fl.lit 360);
          B64.remainder (nth 5 r Fl.f0) (Fl.lit 360)].
Proof.
  intros Hm He Hst H Hhd.
  destruct (fl_resample_general _ _ _ _ Hst H).
  set (n := length (r :: r' :: rows)) in *.
  assert (Hn : (2 <= n)%nat) by (unfold n; cbn; lia).
  destruct target_times as [|x grid].
  - apply fl_interp_length in R_v0. destruct v0; [|discriminate].
    subst out. discriminate.
  - apply fl_arange_inv in R_grid as [_ Hx].
    specialize (Hx 0%nat x eq_refl). cbn in Hx. subst x.
    apply fl_column_head in R_c0 as [c0' ->].
    apply fl_column_head in R_c1 as [c1' ->].
    apply fl_column_head in R_c2 as [c2' ->].
    apply fl_column_head in R_c3 as [c3' ->].
    apply fl_column_head in R_c4 as [c4' ->].
    apply fl_column_head in R_c5 as [c5' ->].
    apply (fl_interp_first n ms es) in R_v0 as [w0 ->]; try assumption.
    apply (fl_interp_first n ms es) in R_v1 as [w1 ->]; try assumption.
    apply (fl_interp_first n ms es) in R_v2 as [w2 ->]; try assumption.
    apply (fl_interpolate_angles_first n ms es) in R_v3 as [w3 ->];
      try assumption.
    apply (fl_interpolate_angles_first n ms es) in R_v4 as [w4 ->];
      try assumption.
    apply (fl_interpolate_angles_first n ms es) in R_v5 as [w5 ->];
      try assumption.
    subst out. cbn [Fl.zip6 hd_error] in Hhd. now injection Hhd as <-.
Qed.

(** ** The target grid is not empty *)

Lemma step_of_rate (t : Z) (step : Fl.float) :
  (0 < t)%Z -> Fl.int_div 1 t = Ok step ->
  exists m e, step = B64.Fin false m e
              /\ 0 <= B64.mag m e /\ B64.mag m e <= 1.
Proof.
  intros Ht H. unfold Fl.int_div in H.
  replace (t =? 0)%Z with false in H by (symmetry; apply Z.eqb_neq; lia).
  replace (t <? 0)%Z with false in H by (symmetry; apply Z.ltb_ge; lia).
  cbn [Z.ltb Z.compare xorb] in H.
  change (inject_Z 1) with 1 in H.
  assert (Hq : 0 < 1 / inject_Z t /\ 1 / inject_Z t <= 1).
  { assert (H1 : 1 <= inject_Z t)
      by (change 1 with (inject_Z 1); rewrite <- Zle_Qle; lia).
    split.
    - apply Qlt_shift_div_l; lra.
    - apply Qle_shift_div_r; lra. }
  destruct Hq as [Hq0 Hq1].
  assert (Habs : Qabs (1 / inject_Z t) == 1 / inject_Z t)
    by (apply Qabs_pos; lra).
  destruct (round_le_Z false (Qabs (1 / inject_Z t)) 1)
    as (m & e & Hr & H0 & H1); [lra | change (inject_Z 1) with 1; lra | lia |].
  rewrite Hr in H. injection H as <-. exists m, e.
  change (inject_Z 1) with 1 in H1. auto.
Qed.

Lemma ceiling_positive (q : Q) : 0 < q -> (1 <= Qceiling q)%Z.
Proof.
  intro H. pose proof (Qle_ceiling q) as Hc.
  assert (Hz : inject_Z 0 < inject_Z (Qceiling q))
    by (change (inject_Z 0) with 0; lra).
  rewrite <- Zlt_Qlt in Hz. lia.
Qed.

Lemma grid_length_positive (stop step : Fl.float) (len : nat) :
  stop = B64.Inf false
  \/ (exists m e, stop = B64.Fin false m e
                  /\ B64.pow2 (-1074) <= B64.mag m e) ->
  (exists m e, step = B64.Fin false m e
               /\ 0 <= B64.mag m e /\ B64.mag m e <= 1) ->
  Fl.np.arange_len Fl.f0 stop step = Ok len -> (1 <= len)%nat.
Proof.
  intros Hstop (m' & e' & -> & Hs0 & Hs1) H.
  pose proof (pow2_pos (-1074)) as Hp.
  unfold Fl.np.arange_len in H.
  assert (Hsub : B64.sub stop Fl.f0 = B64.Inf false
                 \/ exists m e, B64.sub stop Fl.f0 = B64.Fin false m e
                                /\ B64.pow2 (-1074) <= B64.mag m e).
  { destruct Hstop as [-> | (m & e & -> & Hm)]; [now left|].
    unfold B64.sub, B64.add, Fl.f0, B64.zero, B64.opp.
    set (q := B64.val (B64.Fin false m e)
              + B64.val (B64.Fin (negb false) 0 (-1074))).
    assert (Hq : q == B64.mag m e).
    { unfold q. cbn [B64.val negb]. unfold B64.mag at 2.
      change (inject_Z 0) with 0. ring. }
    replace (Qeq_bool q 0) with false
      by (symmetry; apply Qeq_bool_false; lra).
    unfold B64.of_Q.
    replace (Qltb q 0) with false
      by (symmetry; unfold Qltb; apply negb_false_iff, Qle_bool_iff; lra).
    apply round_positive.
    apply (Qle_trans _ q); [lra | apply Qle_Qabs]. }
  destruct Hsub as [E | (m & e & E & Hm)]; rewrite E in H;
    [discriminate H|].
  unfold B64.div in H.
  destruct (m' =? 0)%Z eqn:Em'; [destruct (m =? 0)%Z; discriminate H|].
  apply Z.eqb_neq in Em'.
  assert (Hs : 0 < B64.mag m' e').
  { apply Qle_lteq in Hs0 as [Hlt | Heq]; [assumption|].
    exfalso. unfold B64.mag in Heq. symmetry in Heq.
    apply Qmult_integral in Heq as [Heq | Heq].
    - unfold Qeq in Heq. cbn in Heq. lia.
    - pose proof (pow2_pos e'). lra. }
  cbn [xorb B64.val] in H.
  set (q := Qabs (B64.mag m e / B64.mag m' e')) in *.
  assert (Hq : B64.pow2 (-1074) <= q).
  { apply (Qle_trans _ (B64.mag m e / B64.mag m' e')); [|apply Qle_Qabs].
    apply Qle_shift_div_l; [assumption|].
    apply (Qle_trans _ (B64.pow2 (-1074) * 1)); [|lra].
    apply Qmult_le_l; assumption. }
  destruct (round_positive false q Hq) as [Hr | (m2 & e2 & Hr & H2)];
    rewrite Hr in H; [discriminate H|].
  cbn [B64.val] in H.
  destruct ((_ <? _)%Z || (_ <? _)%Z); [discriminate H|].
  injection H as <-.
  assert (Hc : (1 <= Qceiling (B64.mag m2 e2))%Z)
    by (apply ceiling_positive; lra).
  lia.
Qed.

Lemma fl_last_time (n : nat) (s stop : Fl.float) :
  Fl.np.last_item (Fl.np.divide (Fl.np.arange_n n) s) = Ok stop ->
  (1 <= n)%nat /\ stop = B64.div (B64.of_nat (n - 1)) s.
Proof.
  intro H.
  assert (Hn : (1 <= n)%nat) by (destruct n; [discriminate H | lia]).
  split; [assumption|].
  assert (E : forall arr x,
             Fl.np.last_item arr = Ok x -> x = nth (length arr - 1) arr Fl.f0).
  { intros arr x Hx. destruct arr; [discriminate Hx|].
    unfold Fl.np.last_item in Hx. now injection Hx as <-. }
  rewrite (E _ _ H), fl_times_length. apply fl_times_nth. lia.
Qed.

Lemma fl_first_pose_exists (r r' : list Fl.float)
    (rows out : list (list Fl.float)) (ms es t : Z) :
  (0 < ms < 2 ^ 53)%Z -> (es <= 971)%Z -> (0 < t)%Z ->
  Fl.float_eq_int (B64.Fin false ms es) t = false ->
  Fl.resample_positions (r :: r' :: rows) (B64.Fin false ms es) t = Ok out ->
  out <> [].
Proof.
  intros Hm He Ht Hst H.
  destruct (fl_general_path_length _ _ _ _ Hst H)
    as (stop & step & Hstop & Hstep & Hlen & _).
  apply fl_last_time in Hstop as [_ ->].
  apply (step_of_rate t step Ht) in Hstep.
  apply grid_length_positive in Hlen; [|apply time_positive; cbn; lia
                                       |assumption].
  intro E. subst out. cbn in Hlen. lia.
Qed.

(** ** [x % 360] and the multiples of 360 *)

Lemma round_near (s : bool) (q : Q) :
  0 < q -> q <= 360 ->
  exists m e,
    B64.round s q = B64.Fin s m e
    /\ 0 <= B64.mag m e /\ B64.mag m e <= 360
    /\ Qabs (B64.mag m e - q) <= B64.pow2 (-45).
Proof.
  intros Hq H360.
  destruct (round_le_Z s q 360) as (m & e & Hr & H0 & H1);
    [assumption | unfold inject_Z; lra | lia |].
  change (inject_Z 360) with 360 in H1.
  exists m, e. split; [assumption|]. split; [assumption|].
  split; [assumption|].
  apply (Qle_trans _ _ _ (round_error s q m e Hq Hr)).
  assert (Hl : (B64.ilog2 q < 9)%Z).
  { apply pow2_lt_inv.
    apply (Qle_lt_trans _ q); [now apply ilog2_lower|].
    apply (Qle_lt_trans _ 360); [assumption | reflexivity]. }
  set (e0 := Z.max (B64.ilog2 q - 52) (-1074)).
  assert (He0 : (e0 <= -44)%Z) by (unfold e0; lia).
  replace (-45)%Z with (-44 + -1)%Z by lia. rewrite pow2_plus.
  change (B64.pow2 (-1)) with (1 # 2).
  apply Qmult_le_compat_r; [now apply pow2_le | discriminate].
Qed.

Lemma fmod_360_value (s : bool) (m e : Z) :
  (0 <= m)%Z ->
  exists (qr : Q) (f : Z),
    B64.fmod (B64.Fin s m e) (Fl.lit 360) = B64.round s qr
    /\ 0 <= qr /\ qr < 360
    /\ qr == B64.mag m e - 360 * inject_Z f
    /\ (B64.mag m e < 360 -> f = 0%Z).
Proof.
  intro Hm. rewrite lit_360. unfold B64.fmod.
  replace (6333186975989760 =? 0)%Z with false by reflexivity.
  cbv zeta.
  assert (Hmag : 0 <= B64.mag m e).
  { unfold B64.mag. apply Qmult_le_0_compat; [|pose proof (pow2_pos e); lra].
    change 0 with (inject_Z 0). now rewrite <- Zle_Qle. }
  set (a := Qabs (B64.val (B64.Fin s m e))).
  assert (Ha : a == B64.mag m e).
  { unfold a. cbn [B64.val]. destruct s.
    - rewrite Qabs_opp. now apply Qabs_pos.
    - now apply Qabs_pos. }
  set (b := Qabs (B64.val (B64.Fin false 6333186975989760 (-44)))).
  assert (Hb : b == 360) by (vm_compute; reflexivity).
  exists (a - inject_Z (Qfloor (a / b)) * b), (Qfloor (a / b)).
  split; [reflexivity|].
  pose proof (Qfloor_le (a / b)) as Hlo.
  pose proof (Qlt_floor (a / b)) as Hhi.
  rewrite inject_Z_plus in Hhi. change (inject_Z 1) with 1 in Hhi.
  assert (Hf0 : B64.mag m e < 360 -> Qfloor (a / b) = 0%Z).
  { intro Hlt. apply Z.le_antisymm.
    - assert (H1 : inject_Z (Qfloor (a / b)) < inject_Z 1).
      { change (inject_Z 1) with 1.
        apply (Qle_lt_trans _ (a / b)); [assumption|].
        apply Qlt_shift_div_r; [rewrite Hb; reflexivity|].
        rewrite Hb, Ha. lra. }
      rewrite <- Zlt_Qlt in H1. lia.
    - rewrite <- (Qfloor_Z 0). apply Qfloor_resp_le.
      apply Qle_shift_div_l; [rewrite Hb; reflexivity|].
      change (inject_Z 0) with 0. rewrite Ha. lra. }
  set (f := inject_Z (Qfloor (a / b))) in *.
  assert (Hrange : 0 <= a - f * b /\ a - f * b < 360).
  { rewrite Hb in Hlo, Hhi. rewrite Hb.
    assert (Ha' : a == (a / 360) * 360) by field.
    split; rewrite Ha' at 1; lra. }
  destruct Hrange as [Hr0 Hr1].
  split; [assumption|]. split; [assumption|].
  split; [rewrite Ha, Hb; ring | assumption].
Qed.

(** For a finite [x], [x % 360] differs from [x] by a whole number of
    turns, up to the rounding of the two operations. *)
Lemma remainder_congruent (s : bool) (m e : Z) :
  (0 <= m)%Z ->
  exists k : Z,
    Qabs (B64.val (B64.remainder (B64.Fin s m e) (Fl.lit 360))
          - (B64.val (B64.Fin s m e) - 360 * inject_Z k))
    <= B64.pow2 (-44).
Proof.
  intro Hm.
  destruct (fmod_360_value s m e Hm) as (qr & f & Hf & Hlo & Hhi & Eqr & _).
  pose proof (pow2_pos (-45)) as Hp45.
  assert (Hp44 : B64.pow2 (-44) == B64.pow2 (-45) + B64.pow2 (-45))
    by (vm_compute; reflexivity).
  assert (Ez : B64.val (B64.zero false) == 0) by (vm_compute; reflexivity).
  unfold B64.remainder. rewrite Hf.
  replace (B64.eqb (Fl.lit 360) (B64.zero false)) with false by reflexivity.
  replace (B64.ltb (Fl.lit 360) (B64.zero false)) with false by reflexivity.
  rewrite lit_360.
  (* the exact remainder, with the sign of x *)
  set (k0 := if s then (- f)%Z else f).
  assert (Ek0 : B64.val (B64.Fin s m e) - 360 * inject_Z k0
                == if s then - qr else qr).
  { unfold k0. cbn [B64.val]. destruct s.
    - rewrite inject_Z_opp, Eqr. ring.
    - rewrite Eqr. ring. }
  destruct (Qeq_dec qr 0) as [E|E].
  - unfold B64.round. rewrite (proj2 (Qeq_bool_iff qr 0) E).
    replace (B64.eqb (B64.zero s) (B64.zero false)) with true
      by (destruct s; reflexivity).
    cbn [negb]. exists k0. rewrite Ek0, Ez.
    apply Qabs_Qle_condition. destruct s; split; lra.
  - destruct (round_near s qr) as (m1 & e1 & Hr & H0 & H360 & Herr);
      [lra | lra |].
    apply Qabs_Qle_condition in Herr as [He1 He2].
    rewrite Hr.
    destruct (B64.eqb (B64.Fin s m1 e1) (B64.zero false)) eqn:Ez1;
      cbn [negb].
    + exists k0. rewrite Ek0, Ez.
      unfold B64.eqb in Ez1. apply Qeq_bool_iff in Ez1.
      rewrite Ez in Ez1. cbn [B64.val] in Ez1.
      apply Qabs_Qle_condition. destruct s; split; lra.
    + cbn [xorb].
      destruct (B64.ltb (B64.Fin s m1 e1) (B64.zero false)) eqn:El.
      * apply ltb_fin_true in El. rewrite Ez in El.
        assert (Es : s = true).
        { destruct s; [reflexivity|]. cbn [B64.val] in El. lra. }
        subst s. cbn [B64.val] in El.
        exists (k0 - 1)%Z.
        assert (Ek1 : B64.val (B64.Fin true m e) - 360 * inject_Z (k0 - 1)
                      == 360 - qr).
        { unfold Zminus. rewrite inject_Z_plus, inject_Z_opp.
          change (inject_Z 1) with 1.
          setoid_replace (B64.val (B64.Fin true m e)
                          - 360 * (inject_Z k0 + - (1)))
            with (B64.val (B64.Fin true m e) - 360 * inject_Z k0 + 360)
            by ring.
          rewrite Ek0. ring. }
        rewrite Ek1.
        unfold B64.add.
        set (q := B64.val (B64.Fin true m1 e1)
                  + B64.val (B64.Fin false 6333186975989760 (-44))).
        assert (Hq : q == 360 - B64.mag m1 e1)
          by (unfold q; cbn [B64.val]; rewrite mag_360; ring).
        destruct (Qeq_bool q 0) eqn:Eq0.
        -- apply Qeq_bool_iff in Eq0. cbn [andb]. rewrite Ez.
           apply Qabs_Qle_condition. split; lra.
        -- apply Qeq_bool_neq in Eq0.
           assert (Hqpos : 0 < q) by lra.
           unfold B64.of_Q.
           replace (Qltb q 0) with false
             by (symmetry; unfold Qltb; apply negb_false_iff, Qle_bool_iff;
                 lra).
           assert (Habs : Qabs q == q) by (apply Qabs_pos; lra).
           destruct (round_near false (Qabs q))
             as (m2 & e2 & Hr2 & H20 & H2 & Herr2); [lra | lra |].
           apply Qabs_Qle_condition in Herr2 as [He3 He4].
           rewrite Hr2. cbn [B64.val].
           apply Qabs_Qle_condition. split; lra.
      * apply ltb_fin_false in El. rewrite Ez in El.
        exists k0. rewrite Ek0. cbn [B64.val] in *.
        apply Qabs_Qle_condition. destruct s; split; lra.
Qed.

(** A rotation from 0 up to, and not including, 360 is left as it is. *)
Lemma remainder_small (m e : Z) :
  (0 <= m < 2 ^ 53)%Z -> (-1074 <= e)%Z -> B64.mag m e < 360 ->
  exists m' e',
    B64.remainder (B64.Fin false m e) (Fl.lit 360) = B64.Fin false m' e'
    /\ B64.mag m' e' == B64.mag m e.
Proof.
  intros Hm He Hlt.
  destruct (fmod_360_value false m e) as (qr & f & Hf & Hlo & Hhi & Eqr & Hf0);
    [lia|].
  rewrite (Hf0 Hlt) in Eqr. change (inject_Z 0) with 0 in Eqr.
  assert (Eq : qr == B64.mag m e) by (rewrite Eqr; ring).
  unfold B64.remainder. rewrite Hf.
  replace (B64.eqb (Fl.lit 360) (B64.zero false)) with false by reflexivity.
  replace (B64.ltb (Fl.lit 360) (B64.zero false)) with false by reflexivity.
  rewrite lit_360.
  assert (Ez : B64.val (B64.zero false) == 0) by (vm_compute; reflexivity).
  destruct (Z.eq_dec m 0) as [-> | Hm0].
  - assert (E0 : qr == 0)
      by (rewrite Eq; unfold B64.mag; change (inject_Z 0) with 0; ring).
    unfold B64.round. rewrite (proj2 (Qeq_bool_iff qr 0) E0).
    replace (B64.eqb (B64.zero false) (B64.zero false)) with true
      by reflexivity.
    cbn [negb]. exists 0%Z, (-1074)%Z. split; [reflexivity|].
    unfold B64.mag. change (inject_Z 0) with 0. ring.
  - destruct (round_exact false qr m e) as [Hinf | (m' & e' & Hr & Hv)];
      [lia | assumption | assumption | |].
    + exfalso.
      destruct (round_near false qr) as (m1 & e1 & Hr & _); [|lra|congruence].
      rewrite Eq. unfold B64.mag.
      apply Qmult_lt_0_compat; [|apply pow2_pos].
      change 0 with (inject_Z 0). rewrite <- Zlt_Qlt. lia.
    + rewrite Hr.
      assert (Hpos : 0 < B64.mag m' e').
      { rewrite Hv, Eq. unfold B64.mag.
        apply Qmult_lt_0_compat; [|apply pow2_pos].
        change 0 with (inject_Z 0). rewrite <- Zlt_Qlt. lia. }
      replace (B64.eqb (B64.Fin false m' e') (B64.zero false)) with false.
      2:{ symmetry. unfold B64.eqb. apply Qeq_bool_false.
          rewrite Ez. cbn [B64.val]. lra. }
      replace (B64.ltb (B64.Fin false m' e') (B64.zero false)) with false.
      2:{ symmetry. unfold B64.ltb, Qltb. apply negb_false_iff, Qle_bool_iff.
          rewrite Ez. cbn [B64.val]. lra. }
      cbn [negb xorb]. exists m', e'. split; [reflexivity|].
      now rewrite Hv.
Qed.

(** ** Reading back what was written *)

Lemma lacks_app (c : ascii) (a b : string) :
  lacks c (a ++ b) = lacks c a && lacks c b.
Proof.
  induction a as [|x a IH]; cbn; [reflexivity|].
  now rewrite IH, andb_assoc.
Qed.

Lemma no_newline_lacks (s : string) : no_newline s = lacks "010" s.
Proof. induction s as [|x s IH]; cbn; [reflexivity | now rewrite IH]. Qed.

Lemma digit_cases (d : Z) :
  exists k, (k < 10)%nat /\ Z.to_nat (d mod 10) = k
            /\ digit d = ascii_of_nat (48 + k).
Proof.
  pose proof (Z.mod_pos_bound d 10 eq_refl) as H.
  exists (Z.to_nat (d mod 10)). split; [lia|]. split; reflexivity.
Qed.

Lemma digit_value_digit (d : Z) : digit_value (digit d) = Some (d mod 10)%Z.
Proof.
  pose proof (Z.mod_pos_bound d 10 eq_refl) as H.
  destruct (digit_cases d) as (k & Hk & E & ->).
  replace (d mod 10)%Z with (Z.of_nat k) by lia.
  do 10 (destruct k as [|k]; [reflexivity|]). lia.
Qed.

Lemma digit_lacks (d : Z) (c : ascii) :
  digit_value c = None -> Ascii.eqb (digit d) c = false.
Proof.
  intro Hc. destruct (Ascii.eqb (digit d) c) eqn:E; [|reflexivity].
  apply Ascii.eqb_eq in E. subst c. rewrite digit_value_digit in Hc.
  discriminate.
Qed.

Lemma decimal_from_acc (fuel : nat) :
  forall (n : Z) (acc : string),
    Fl.decimal_from fuel n acc = (Fl.decimal_from fuel n "" ++ acc)%string.
Proof.
  induction fuel as [|fuel IH]; intros n acc; [reflexivity|].
  cbn [Fl.decimal_from]. destruct (n <? 10)%Z; [reflexivity|].
  rewrite (IH _ (String (digit n) acc)), (IH _ (String (digit n) "")).
  now rewrite string_app_assoc.
Qed.

Lemma digits_fixed_acc (k : nat) :
  forall (n : Z) (acc : string),
    digits_fixed k n acc = (digits_fixed k n "" ++ acc)%string.
Proof.
  induction k as [|k IH]; intros n acc; [reflexivity|].
  cbn [digits_fixed].
  rewrite (IH _ (String (digit n) acc)), (IH _ (String (digit n) "")).
  now rewrite string_app_assoc.
Qed.

Lemma read_digits_app (a b : string) :
  forall acc,
    read_digits (a ++ b) acc
    = match read_digits a acc with
      | Some v => read_digits b v
      | None => None
      end.
Proof.
  induction a as [|x a IH]; intro acc; cbn; [reflexivity|].
  destruct (digit_value x); [apply IH | reflexivity].
Qed.

Lemma read_decimal_from (fuel : nat) :
  forall n : Z,
    (0 <= n < 10 ^ Z.of_nat fuel)%Z ->
    read_digits (Fl.decimal_from fuel n "") 0 = Some n.
Proof.
  induction fuel as [|fuel IH]; intros n Hn.
  - cbn in *. f_equal. lia.
  - cbn [Fl.decimal_from].
    destruct (n <? 10)%Z eqn:E.
    + apply Z.ltb_lt in E. cbn [read_digits].
      rewrite digit_value_digit. cbn [read_digits]. f_equal.
      rewrite Z.mod_small by lia. lia.
    + apply Z.ltb_ge in E.
      rewrite decimal_from_acc, read_digits_app, IH.
      * cbn [read_digits]. rewrite digit_value_digit. f_equal.
        pose proof (Z.div_mod n 10). lia.
      * rewrite Nat2Z.inj_succ, Z.pow_succ_r in Hn by lia.
        split; [apply Z.div_pos; lia|].
        apply Z.div_lt_upper_bound; lia.
Qed.

Lemma digits_only_app (a b : string) :
  digits_only (a ++ b) = digits_only a && digits_only b.
Proof.
  induction a as [|x a IH]; cbn; [reflexivity|].
  destruct (digit_value x); [assumption | reflexivity].
Qed.

Lemma digits_only_decimal_from (fuel : nat) :
  forall (n : Z) (acc : string),
    digits_only acc = true -> digits_only (Fl.decimal_from fuel n acc) = true.
Proof.
  induction fuel as [|fuel IH]; intros n acc H; [assumption|].
  cbn [Fl.decimal_from].
  assert (Hd : digits_only (String (digit n) acc) = true)
    by (cbn [digits_only]; now rewrite digit_value_digit).
  destruct (n <? 10)%Z; [assumption | now apply IH].
Qed.

Lemma digits_only_digits_fixed (k : nat) :
  forall (n : Z) (acc : string),
    digits_only acc = true -> digits_only (digits_fixed k n acc) = true.
Proof.
  induction k as [|k IH]; intros n acc H; [assumption|].
  cbn [digits_fixed]. apply IH. cbn [digits_only].
  now rewrite digit_value_digit.
Qed.

Lemma digits_only_lacks (c : ascii) (s : string) :
  digit_value c = None -> digits_only s = true -> lacks c s = true.
Proof.
  intro Hc. induction s as [|x s IH]; intro H; [reflexivity|].
  cbn in H |- *. destruct (digit_value x) eqn:Ex; [|discriminate].
  rewrite IH by assumption.
  destruct (Ascii.eqb x c) eqn:E; [|reflexivity].
  apply Ascii.eqb_eq in E. congruence.
Qed.

Lemma decimal_first (n : Z) :
  exists c rest, Fl.decimal n = String c rest /\ digit_value c <> None.
Proof.
  assert (Hd : digits_only (Fl.decimal n) = true)
    by (apply digits_only_decimal_from; reflexivity).
  assert (Hne : Fl.decimal n <> ""%string).
  { unfold Fl.decimal. cbn [Fl.decimal_from].
    destruct (n <? 10)%Z; [discriminate|].
    rewrite decimal_from_acc.
    destruct (Fl.decimal_from _ _ ""); discriminate. }
  destruct (Fl.decimal n) as [|c rest]; [congruence|].
  exists c, rest. split; [reflexivity|].
  cbn in Hd. destruct (digit_value c); [discriminate | discriminate Hd].
Qed.

Lemma read_decimal (n : Z) :
  (0 <= n)%Z -> read_nat (Fl.decimal n) = Some n.
Proof.
  intro Hn. destruct (decimal_first n) as (c & rest & E & _).
  unfold read_nat. rewrite E, <- E. unfold Fl.decimal.
  apply read_decimal_from. split; [assumption|].
  rewrite Nat2Z.inj_succ, Z2Nat.id by apply Z.log2_nonneg.
  destruct (Z.eq_dec n 0) as [-> | Hn0]; [reflexivity|].
  destruct (Z.log2_spec n) as [_ Hlt]; [lia|].
  apply (Z.lt_le_trans _ _ _ Hlt).
  apply Z.pow_le_mono_l. lia.
Qed.

Lemma read_digits_fixed (k : nat) :
  forall n : Z,
    (0 <= n)%Z ->
    read_digits (digits_fixed k n "") 0 = Some (n mod 10 ^ Z.of_nat k)%Z.
Proof.
  induction k as [|k IH]; intros n Hn.
  - cbn. now rewrite Z.mod_1_r.
  - cbn [digits_fixed]. rewrite digits_fixed_acc, read_digits_app, IH
      by (apply Z.div_pos; lia).
    cbn [read_digits]. rewrite digit_value_digit. f_equal.
    rewrite Nat2Z.inj_succ, Z.pow_succ_r by lia.
    rewrite (Z.rem_mul_r n 10 (10 ^ Z.of_nat k)) by lia. lia.
Qed.

Lemma cut_at_app (c : ascii) (a b : string) :
  lacks c a = true -> cut_at c (a ++ String c b) = Some (a, b).
Proof.
  induction a as [|x a IH]; intro H; cbn in H |- *.
  - now rewrite Ascii.eqb_refl.
  - apply andb_prop in H as [Hx Ha]. apply negb_true_iff in Hx.
    now rewrite Hx, IH.
Qed.

(** A number written with six decimals is read back as its sign and its
    count of millionths. *)
Lemma read_6f_written (s : bool) (n : Z) :
  (0 <= n)%Z ->
  read_6f ((if s then "-" else "") ++
           Fl.decimal (n / 1000000) ++ "." ++ digits_fixed 6 n "")
  = Some (s, n).
Proof.
  intro Hn.
  assert (Hbody : forall neg : bool,
            match cut_at "." (Fl.decimal (n / 1000000) ++ "."
                              ++ digits_fixed 6 n "") with
            | Some (whole, frac) =>
                if Nat.eqb (String.length frac) 6 then
                  match read_nat whole, read_nat frac with
                  | Some w, Some f => Some (neg, (w * 1000000 + f)%Z)
                  | _, _ => None
                  end
                else None
            | None => None
            end = Some (neg, n)).
  { intro neg.
    change ("." ++ digits_fixed 6 n "")%string
      with (String "." (digits_fixed 6 n "")).
    rewrite cut_at_app
      by (apply digits_only_lacks;
          [reflexivity | apply digits_only_decimal_from; reflexivity]).
    rewrite digits_fixed_length. cbn [String.length Nat.add Nat.eqb].
    rewrite read_decimal by (apply Z.div_pos; lia).
    assert (Hf : read_nat (digits_fixed 6 n "")
                 = Some (n mod 1000000)%Z).
    { unfold read_nat.
      destruct (digits_fixed 6 n "") eqn:E.
      - apply (f_equal String.length) in E.
        rewrite digits_fixed_length in E. discriminate.
      - rewrite <- E. apply (read_digits_fixed 6 n Hn). }
    rewrite Hf. f_equal. f_equal.
    pose proof (Z.div_mod n 1000000). lia. }
  set (body := (Fl.decimal (n / 1000000) ++ "." ++ digits_fixed 6 n "")%string)
    in *.
  unfold read_6f. destruct s.
  - change ("-" ++ body)%string with (String "-" body).
    cbv beta iota. rewrite Ascii.eqb_refl. apply Hbody.
  - change ("" ++ body)%string with body.
    assert (Hb : exists c rest, body = String c rest
                                /\ Ascii.eqb c "-" = false).
    { destruct (decimal_first (n / 1000000)) as (c & rest & E & Hc).
      unfold body. rewrite E. cbn [String.append].
      do 2 eexists. split; [reflexivity|].
      destruct (Ascii.eqb c "-") eqn:Ec; [|reflexivity].
      apply Ascii.eqb_eq in Ec. subst c. exfalso. now apply Hc. }
    destruct Hb as (c & rest & Eb & Ec).
    rewrite Eb. cbv beta iota. rewrite Ec, <- Eb. apply Hbody.
Qed.

(** ** Formatted values *)

Lemma round_mantissa_nonneg (s : bool) (q : Q) :
  0 <= q ->
  match B64.round s q with
  | B64.Fin _ m _ => (0 <= m)%Z
  | _ => True
  end.
Proof.
  intro Hq. unfold B64.round.
  destruct (Qeq_bool q 0); [cbn; lia|].
  set (e0 := Z.max (B64.ilog2 q - 52) (-1074)).
  pose proof (pow2_pos e0) as Hp.
  assert (H0 : (0 <= round_half_even (q / B64.pow2 e0))%Z).
  { apply rne_ge_Z. change (inject_Z 0) with 0.
    apply Qle_shift_div_l; [assumption | lra]. }
  destruct (_ =? 2 ^ 53)%Z.
  - destruct (971 <? e0 + 1)%Z; [exact I | lia].
  - destruct (971 <? e0)%Z; [exact I | assumption].
Qed.

Lemma div_mantissa_nonneg (x y : B64.float) :
  match B64.div x y with
  | B64.Fin _ m _ => (0 <= m)%Z
  | _ => True
  end.
Proof.
  destruct x as [|sx|sx mx ex], y as [|sy|sy my ey]; cbn [B64.div];
    try exact I; try (cbn; lia).
  destruct (my =? 0)%Z; [destruct (mx =? 0)%Z; exact I|].
  apply round_mantissa_nonneg, Qabs_nonneg.
Qed.

Lemma format_six_decimals (x : B64.float) :
  match x with
  | B64.Fin _ m _ => (0 <= m)%Z
  | _ => True
  end ->
  six_decimals x (Fl.format_6f x).
Proof.
  destruct x as [|s|s m e]; intro Hm; [reflexivity | reflexivity |].
  cbn [six_decimals Fl.format_6f]. cbv zeta.
  set (n := round_half_even (B64.mag m e * 1000000)).
  assert (Hn : (0 <= n)%Z).
  { apply rne_ge_Z. change (inject_Z 0) with 0.
    apply Qmult_le_0_compat; [|discriminate].
    unfold B64.mag. apply Qmult_le_0_compat; [|pose proof (pow2_pos e); lra].
    change 0 with (inject_Z 0). now rewrite <- Zle_Qle. }
  exists n. split; [apply read_6f_written; assumption | apply rne_error].
Qed.

Lemma valid_mantissa (x : B64.float) :
  B64.valid x = true ->
  match x with
  | B64.Fin _ m _ => (0 <= m)%Z
  | _ => True
  end.
Proof.
  destruct x as [|s|s m e]; intro H; try exact I.
  unfold B64.valid in H.
  repeat (apply andb_prop in H as [H ?]). lia.
Qed.

Lemma format_lacks (c : ascii) (x : B64.float) :
  digit_value c = None -> lacks c "-inf.nan" = true ->
  lacks c (Fl.format_6f x) = true.
Proof.
  intros Hd Hc.
  assert (H1 : lacks c "nan" = true /\ lacks c "inf" = true
               /\ lacks c "-inf" = true /\ lacks c "-" = true
               /\ lacks c "." = true).
  { cbn [lacks] in Hc |- *.
    repeat (apply andb_prop in Hc as [?Hx Hc]).
    repeat split; repeat (apply andb_true_intro; split); assumption. }
  destruct H1 as (Hnan & Hinf & Hminf & Hminus & Hpoint).
  destruct x as [|s|s m e]; cbn [Fl.format_6f];
    [assumption | destruct s; assumption |].
  cbv zeta. rewrite !lacks_app, Hpoint.
  rewrite (digits_only_lacks c (Fl.decimal _))
    by (try assumption; apply digits_only_decimal_from; reflexivity).
  rewrite (digits_only_lacks c (digits_fixed _ _ _))
    by (try assumption; apply digits_only_digits_fixed; reflexivity).
  destruct s; [now rewrite Hminus | reflexivity].
Qed.

Lemma format_no_newline (x : B64.float) :
  no_newline (Fl.format_6f x) = true.
Proof. rewrite no_newline_lacks. now apply format_lacks. Qed.

Lemma format_no_space (x : B64.float) : lacks " " (Fl.format_6f x) = true.
Proof. now apply format_lacks. Qed.

(** ** Fields of a line *)

Lemma fields_from_last (l cur : string) :
  lacks " " l = true -> fields_from cur l = [(cur ++ l)%string].
Proof.
  revert cur. induction l as [|x l IH]; intros cur H; cbn in H |- *.
  - now rewrite string_app_nil_r.
  - apply andb_prop in H as [Hx Hl]. apply negb_true_iff in Hx.
    rewrite Hx, IH by assumption. now rewrite string_app_assoc.
Qed.

Lemma fields_from_field (l cur rest : string) :
  lacks " " l = true ->
  fields_from cur (l ++ " " ++ rest) = (cur ++ l)%string :: fields rest.
Proof.
  revert cur. induction l as [|x l IH]; intros cur H; cbn in H |- *.
  - now rewrite string_app_nil_r.
  - apply andb_prop in H as [Hx Hl]. apply negb_true_iff in Hx.
    rewrite Hx, IH by assumption. now rewrite string_app_assoc.
Qed.

Lemma fields_concat (f : string) (fs : list string) :
  Forall (fun l => lacks " " l = true) (f :: fs) ->
  fields (String.concat " " (f :: fs)) = f :: fs.
Proof.
  revert f. induction fs as [|g fs IH]; intros f H.
  - cbn [String.concat]. unfold fields.
    rewrite fields_from_last; [reflexivity | now apply Forall_inv in H].
  - cbn [String.concat]. unfold fields at 1.
    rewrite fields_from_field by (now apply Forall_inv in H).
    cbn [String.append]. f_equal. apply IH. now apply Forall_inv_tail in H.
Qed.

(** ** The written file *)

Lemma fl_pose_line_six (pos : list Fl.float) :
  length pos = 6%nat ->
  Fl.pose_line pos = Ok (Fl.pose_text pos ++ nl)%string.
Proof.
  intro H.
  destruct pos as [|p0 [|p1 [|p2 [|p3 [|p4 [|p5 [|]]]]]]]; try discriminate.
  unfold Fl.pose_line, Fl.pose_text.
  cbn [Fl.getitem nth_error bind map String.concat]. f_equal.
  repeat (rewrite string_app_assoc; cbn [String.append]). reflexivity.
Qed.

Lemma fl_pose_text_no_newline (pos : list Fl.float) :
  no_newline (Fl.pose_text pos) = true.
Proof.
  unfold Fl.pose_text.
  induction pos as [|p pos IH]; [reflexivity|].
  cbn [map String.concat].
  destruct (map Fl.format_6f pos) eqn:E.
  - apply format_no_newline.
  - rewrite !no_newline_app, format_no_newline, IH. reflexivity.
Qed.

Lemma fl_pose_lines_loop (positions : list (list Fl.float)) (out : string) :
  Forall (fun pos => length pos = 6%nat) positions ->
  for_each positions
    (fun out pos => line <- Fl.pose_line pos ;; Ok (write out line)) out
  = Ok (out ++ unlines (map Fl.pose_text positions))%string.
Proof.
  intro H. revert out.
  induction H as [|pos positions Hpos _ IH]; intro out; cbn [for_each].
  - cbn. now rewrite string_app_nil_r.
  - rewrite (fl_pose_line_six pos Hpos). cbn [bind]. rewrite IH.
    unfold write. cbn [map unlines]. now rewrite !string_app_assoc.
Qed.

Lemma float_of_int_Ok (t : Z) :
  t <> 0%Z -> (Z.abs t < 2 ^ 1023)%Z ->
  Fl.float_of_int t = Ok (B64.of_Z t)
  /\ B64.eqb (B64.of_Z t) Fl.f0 = false.
Proof.
  intros Ht Hb. unfold Fl.float_of_int, B64.of_Z, B64.of_Q.
  set (q := Qabs (inject_Z t)).
  assert (Eq : q == inject_Z (Z.abs t)) by reflexivity.
  assert (H1 : 1 <= q).
  { rewrite Eq. change 1 with (inject_Z 1). rewrite <- Zle_Qle. lia. }
  assert (Hl : (B64.ilog2 q <= 1022)%Z).
  { assert (Hlt : (B64.ilog2 q < 1023)%Z); [|lia].
    apply pow2_lt_inv.
    apply (Qle_lt_trans _ q); [apply ilog2_lower; lra|].
    rewrite Eq, (pow2_Z 1023) by lia. now rewrite <- Zlt_Qlt. }
  destruct (round_ge_1 (Qltb (inject_Z t) 0) q H1)
    as [Hinf | (m & e & Hr & Hm)].
  - exfalso. revert Hinf. apply round_no_overflow; [lra | assumption].
  - rewrite Hr. split; [reflexivity|].
    unfold B64.eqb. apply Qeq_bool_false.
    assert (Ez : B64.val Fl.f0 == 0) by (vm_compute; reflexivity).
    rewrite Ez. cbn [B64.val]. destruct (Qltb _ _); lra.
Qed.

Lemma fl_write_bvh_text (positions : list (list Fl.float)) (t : Z) :
  Forall (fun pos => length pos = 6%nat) positions ->
  t <> 0%Z -> (Z.abs t < 2 ^ 1023)%Z ->
  Fl.write_bvh positions t
  = Ok (unlines
          (header_lines ++
           ["MOTION";
            "Frames: " ++ Fl.decimal (Z.of_nat (length positions));
            "Frame Time: "
            ++ Fl.format_6f (B64.div (Fl.lit 1) (B64.of_Z t))]%string ++
           map Fl.pose_text positions)).
Proof.
  intros Hrows Ht Hb. unfold Fl.write_bvh.
  destruct (float_of_int_Ok t Ht Hb) as [-> Hz]. cbn [bind].
  unfold Fl.float_div. rewrite Hz. cbn [bind].
  unfold Fl.write_motion. rewrite (fl_pose_lines_loop _ _ Hrows).
  rewrite write_header_lines. unfold write.
  rewrite !unlines_app. cbn [unlines].
  now rewrite !string_app_assoc, ?string_app_nil_r.
Qed.

Lemma formats_six_decimals (l : list Fl.float) :
  Forall (fun v => B64.valid v = true) l ->
  Forall2 six_decimals l (map Fl.format_6f l).
Proof.
  induction 1 as [|v vs Hv _ IH]; cbn [map]; constructor; [|assumption].
  apply format_six_decimals. now apply valid_mantissa.
Qed.

Lemma pose_fields (pos : list Fl.float) :
  length pos = 6%nat ->
  Forall (fun v => B64.valid v = true) pos ->
  Forall2 six_decimals pos (fields (Fl.pose_text pos)).
Proof.
  intros Hlen Hvalid. unfold Fl.pose_text.
  destruct pos as [|p pos]; [discriminate|].
  cbn [map]. rewrite fields_concat.
  - now apply (formats_six_decimals (p :: pos)).
  - change (Fl.format_6f p :: map Fl.format_6f pos)
      with (map Fl.format_6f (p :: pos)).
    apply Forall_map, Forall_forall. intros v _. apply format_no_space.
Qed.

(** ** The general path returns a track on well-formed input *)

Lemma fl_same_width_all (w : nat) (rows : list (list Fl.float)) :
  Forall (fun r => length r = w) rows -> Fl.np.same_width rows = true.
Proof.
  intro H. destruct rows as [|r rows]; [reflexivity|].
  inversion H as [|? ? Hr Hrows]; subst. cbn.
  apply forallb_forall. intros r' Hin. apply Nat.eqb_eq.
  rewrite Forall_forall in Hrows. now apply Hrows.
Qed.

Lemma fl_column_Ok (r : list Fl.float) (rows : list (list Fl.float))
    (i : nat) :
  (i < length r)%nat ->
  Fl.np.column (r :: rows) i
  = Ok (map (fun r' => nth i r' Fl.f0) (r :: rows)).
Proof.
  intro H. unfold Fl.np.column.
  now replace (Nat.ltb i (length r)) with true
    by (symmetry; apply Nat.ltb_lt; assumption).
Qed.

Lemma fl_interp_Ok (x xp fp : list Fl.float) :
  xp <> [] -> length fp = length xp ->
  Fl.np.interp x xp fp = Ok (map (Fl.np.interp_at xp fp) x).
Proof.
  intros Hne Hlen. unfold Fl.np.interp.
  destruct xp; [congruence|]. now rewrite Hlen, Nat.eqb_refl.
Qed.

Lemma fl_unwrap_step_length (angles : list Fl.float) (i : nat) :
  length (Fl.unwrap_step angles i) = length angles.
Proof.
  unfold Fl.unwrap_step, Fl.np.slice_isub, Fl.np.slice_iadd.
  destruct (B64.ltb _ _); [|reflexivity].
  destruct (B64.ltb _ _);
    now rewrite length_app, length_map, <- length_app, firstn_skipn.
Qed.

Lemma fl_unwrap_length (angles : list Fl.float) :
  length (Fl.unwrap angles) = length angles.
Proof.
  unfold Fl.unwrap. generalize (seq 1 (length angles - 1)).
  intro idx. revert angles.
  induction idx as [|i idx IH]; intro angles; [reflexivity|].
  cbn [fold_left]. now rewrite IH, fl_unwrap_step_length.
Qed.

Lemma fl_set_column_same (m : list (list Fl.float)) (i : nat)
    (v : list Fl.float) :
  length v = length m ->
  Fl.np.set_column m i v = Ok (Fl.np.set_column_rows m i v).
Proof.
  intro H. unfold Fl.np.set_column. now rewrite H, Nat.eqb_refl.
Qed.

Lemma fl_resample_defined (r : list Fl.float) (rows : list (list Fl.float))
    (s : Fl.float) (t : Z) (step : Fl.float) (grid : list Fl.float) :
  Fl.np.same_width (r :: rows) = true -> (6 <= length r)%nat ->
  Fl.float_eq_int s t = false ->
  Fl.int_div 1 t = Ok step ->
  Fl.np.arange Fl.f0 (B64.div (B64.of_nat (length rows)) s) step = Ok grid ->
  exists out, Fl.resample_positions (r :: rows) s t = Ok out.
Proof.
  intros Hw H6 Hst Hstep Hgrid.
  unfold Fl.resample_positions. rewrite Hst.
  unfold Fl.np.array. rewrite Hw. cbn [bind].
  set (xp := Fl.np.divide (Fl.np.arange_n (length (r :: rows))) s).
  assert (Hxlen : length xp = length (r :: rows))
    by apply fl_times_length.
  assert (Hxne : xp <> []) by (intro E; rewrite E in Hxlen; discriminate).
  assert (Hstop : Fl.np.last_item xp
                  = Ok (B64.div (B64.of_nat (length rows)) s)).
  { assert (E : forall arr : list Fl.float,
               arr <> [] ->
               Fl.np.last_item arr = Ok (nth (length arr - 1) arr Fl.f0))
      by (intros [|a arr] Hne; [congruence | reflexivity]).
    rewrite (E xp Hxne), Hxlen. f_equal. unfold xp.
    rewrite fl_times_nth by (cbn; lia).
    cbn [length]. now replace (S (length rows) - 1)%nat with (length rows)
      by lia. }
  rewrite Hstop. cbn [bind]. rewrite Hstep. cbn [bind].
  rewrite Hgrid. cbn [bind for_each].
  rewrite !fl_column_Ok by lia. cbn [bind].
  assert (Hcol : forall i,
             length (map (fun r' : list Fl.float => nth i r' Fl.f0)
                         (r :: rows))
             = length xp)
    by (intro i; now rewrite length_map).
  rewrite !fl_interp_Ok by (try assumption; apply Hcol). cbn [bind].
  unfold Fl.interpolate_angles.
  rewrite !fl_interp_Ok
    by (try assumption; rewrite fl_unwrap_length; apply Hcol).
  cbn [bind]. unfold Fl.np.remainder.
  repeat (rewrite fl_set_column_same
            by (now rewrite ?fl_set_column_rows_length, fl_zeros_length,
                  ?length_map);
          cbn [bind]).
  eauto.
Qed.

Lemma fl_arange_len_inv (start stop step : Fl.float) (n : nat) :
  Fl.np.arange_len start stop step = Ok n ->
  B64.is_finite (B64.div (B64.sub stop start) step) = true
  /\ n = Z.to_nat (Qceiling (B64.val (B64.div (B64.sub stop start) step))).
Proof.
  unfold Fl.np.arange_len.
  destruct (B64.div (B64.sub stop start) step); try discriminate.
  destruct (_ || _); [discriminate|].
  intro H. injection H as <-. split; reflexivity.
Qed.

Lemma resample_120 :
  exists out,
    Fl.resample_positions (Fl.rot_track (repeat 0 120)) (Fl.lit 60) 30 = Ok out
    /\ length out = 60%nat.
Proof. eexists. split; [vm_compute; reflexivity | reflexivity]. Qed.

Lemma resample_47 :
  exists out,
    Fl.resample_positions (Fl.rot_track (repeat 0 47)) (Fl.lit 60) 30 = Ok out
    /\ length out = 24%nat.
Proof. eexists. split; [vm_compute; reflexivity | reflexivity]. Qed.

(** ** Bounds of a rounded magnitude *)

Lemma rne_tie_even (z : Q) :
  Qabs (inject_Z (round_half_even z) - z) == 1 # 2 ->
  Z.even (round_half_even z) = true.
Proof.
  unfold round_half_even.
  pose proof (Qfloor_le z) as Hf. pose proof (Qlt_floor z) as Hc.
  rewrite inject_Z_plus in Hc. change (inject_Z 1) with 1 in Hc.
  destruct (Qcompare (z - inject_Z (Qfloor z)) (1 # 2)) eqn:C.
  - destruct (Z.even (Qfloor z)) eqn:E; [intros _; exact E|].
    intros _. rewrite Z.even_add, E. reflexivity.
  - apply Qlt_alt in C. intro H. exfalso.
    rewrite Qabs_neg in H by lra. lra.
  - apply Qgt_alt in C. intro H. exfalso.
    rewrite inject_Z_plus in H. change (inject_Z 1) with 1 in H.
    rewrite Qabs_pos in H by lra. lra.
Qed.

Lemma mag_lt_pow2 (M E : Z) :
  (M < 2 ^ 53)%Z -> B64.mag M E < B64.pow2 (53 + E).
Proof.
  intro H. pose proof (pow2_pos E) as Hp.
  rewrite pow2_plus, (pow2_Z 53) by lia. unfold B64.mag.
  apply Qmult_lt_compat_r; [assumption|]. now rewrite <- Zlt_Qlt.
Qed.

(** A magnitude below a float is rounded to a float that is not above
    it. *)
Lemma round_le_mag (s : bool) (q : Q) (M E : Z) :
  0 < q -> q <= B64.mag M E -> (M < 2 ^ 53)%Z -> (-1074 <= E <= 970)%Z ->
  exists m e,
    B64.round s q = B64.Fin s m e
    /\ 0 <= B64.mag m e /\ B64.mag m e <= B64.mag M E.
Proof.
  intros Hq Hn H53 HE.
  assert (Hl : (B64.ilog2 q < 53 + E)%Z).
  { apply pow2_lt_inv.
    apply (Qle_lt_trans _ q); [now apply ilog2_lower|].
    apply (Qle_lt_trans _ (B64.mag M E)); [assumption|].
    now apply mag_lt_pow2. }
  destruct (round_cases s q Hq) as [Hinf | (m & e & Hr & Hm)];
    [exfalso; revert Hinf; apply round_no_overflow; [assumption | lia]|].
  exists m, e. split; [assumption|].
  set (e0 := Z.max (B64.ilog2 q - 52) (-1074)) in *.
  assert (He0 : (e0 <= E)%Z) by (unfold e0; lia).
  pose proof (pow2_pos e0) as Hp.
  rewrite Hm. split.
  - apply Qmult_le_0_compat; [|lra].
    change 0 with (inject_Z 0). rewrite <- Zle_Qle.
    apply rne_ge_Z. apply Qle_shift_div_l; [assumption|].
    change (inject_Z 0) with 0. lra.
  - assert (HN : inject_Z (M * 2 ^ (E - e0)) == B64.mag M E / B64.pow2 e0).
    { rewrite inject_Z_mult, <- (pow2_Z (E - e0)) by lia.
      replace (E - e0)%Z with (E + - e0)%Z by lia.
      rewrite pow2_plus, pow2_opp. unfold B64.mag. field. lra. }
    assert (Hle : (round_half_even (q / B64.pow2 e0) <= M * 2 ^ (E - e0))%Z).
    { apply rne_le_Z. rewrite HN.
      apply Qmult_le_compat_r; [assumption|].
      apply Qinv_le_0_compat. lra. }
    rewrite Zle_Qle, HN in Hle.
    apply (Qmult_le_compat_r _ _ (B64.pow2 e0)) in Hle; [|lra].
    setoid_replace (B64.mag M E / B64.pow2 e0 * B64.pow2 e0)
      with (B64.mag M E) in Hle by (field; lra).
    exact Hle.
Qed.

(** A magnitude above a float is rounded to a float that is not below
    it. *)
Lemma round_ge_mag (s : bool) (q : Q) (M E : Z) :
  B64.mag M E <= q -> (0 < M < 2 ^ 53)%Z -> (-1074 <= E)%Z ->
  B64.round s q = B64.Inf s
  \/ exists m e,
       B64.round s q = B64.Fin s m e /\ B64.mag M E <= B64.mag m e.
Proof.
  intros H HM HE.
  pose proof (pow2_pos E) as HpE.
  assert (HME : 0 < B64.mag M E).
  { unfold B64.mag. apply Qmult_lt_0_compat; [|assumption].
    change 0 with (inject_Z 0). rewrite <- Zlt_Qlt. lia. }
  assert (Hq : 0 < q) by lra.
  destruct (round_cases s q Hq) as [Hinf | (m & e & Hr & Hm)];
    [now left | right].
  exists m, e. split; [assumption|].
  set (e0 := Z.max (B64.ilog2 q - 52) (-1074)) in *.
  pose proof (pow2_pos e0) as Hp.
  rewrite Hm.
  destruct (Z_le_gt_dec e0 E) as [He|He].
  - assert (HN : inject_Z (M * 2 ^ (E - e0)) == B64.mag M E / B64.pow2 e0).
    { rewrite inject_Z_mult, <- (pow2_Z (E - e0)) by lia.
      replace (E - e0)%Z with (E + - e0)%Z by lia.
      rewrite pow2_plus, pow2_opp. unfold B64.mag. field. lra. }
    assert (Hle : (M * 2 ^ (E - e0) <= round_half_even (q / B64.pow2 e0))%Z).
    { apply rne_ge_Z. rewrite HN.
      apply Qmult_le_compat_r; [assumption|].
      apply Qinv_le_0_compat. lra. }
    rewrite Zle_Qle, HN in Hle.
    apply (Qmult_le_compat_r _ _ (B64.pow2 e0)) in Hle; [|lra].
    setoid_replace (B64.mag M E / B64.pow2 e0 * B64.pow2 e0)
      with (B64.mag M E) in Hle by (field; lra).
    exact Hle.
  - assert (Ee : e0 = (B64.ilog2 q - 52)%Z) by (unfold e0 in *; lia).
    assert (H52 : (2 ^ 52 <= round_half_even (q / B64.pow2 e0))%Z).
    { apply rne_ge_Z. apply Qle_shift_div_l; [assumption|].
      rewrite <- (pow2_Z 52), <- pow2_plus by lia.
      replace (52 + e0)%Z with (B64.ilog2 q) by lia.
      now apply ilog2_lower. }
    rewrite Zle_Qle in H52.
    apply (Qle_trans _ (B64.pow2 (53 + E)));
      [apply Qlt_le_weak, mag_lt_pow2; lia|].
    apply (Qle_trans _ (inject_Z (2 ^ 52) * B64.pow2 e0)).
    + rewrite <- (pow2_Z 52), <- pow2_plus by lia. apply pow2_le. lia.
    + apply Qmult_le_compat_r; [assumption | lra].
Qed.

(** ** The target grid at usual rates *)

Lemma of_nat_bounds (k : nat) :
  (1 <= k)%nat -> (Z.of_nat k < 2 ^ 53)%Z ->
  exists m e,
    B64.of_nat k = B64.Fin false m e
    /\ 1 <= B64.mag m e /\ B64.mag m e <= inject_Z (Z.of_nat k).
Proof.
  intros Hk Hb.
  assert (H1 : 1 <= inject_Z (Z.of_nat k)).
  { change 1 with (inject_Z 1). rewrite <- Zle_Qle. lia. }
  destruct (of_nat_pos k Hk) as [Hinf | (m & e & Hr & Hm)].
  - exfalso. revert Hinf. unfold B64.of_nat, B64.of_Z, B64.of_Q.
    destruct (round_le_Z (Qltb (inject_Z (Z.of_nat k)) 0)
                (Qabs (inject_Z (Z.of_nat k))) (Z.of_nat k))
      as (m & e & Hr & _); [| |assumption|].
    + rewrite Qabs_pos by lra. lra.
    + rewrite Qabs_pos by lra. apply Qle_refl.
    + rewrite Hr. destruct (Qltb _ _); discriminate.
  - exists m, e. split; [assumption|]. split; [assumption|].
    revert Hr. unfold B64.of_nat, B64.of_Z, B64.of_Q.
    destruct (round_le_Z (Qltb (inject_Z (Z.of_nat k)) 0)
                (Qabs (inject_Z (Z.of_nat k))) (Z.of_nat k))
      as (m' & e' & Hr' & _ & Hle); [| |assumption|].
    + rewrite Qabs_pos by lra. lra.
    + rewrite Qabs_pos by lra. apply Qle_refl.
    + rewrite Hr'. intro E. injection E as _ <- <-. assumption.
Qed.

(** With a source rate of at least 1, at most [2^31] poses and a target rate
    from 1 to [2^31], the step and the target grid are computed. *)
Lemma fl_grid_defined (k : nat) (ms es t : Z) :
  (1 <= k)%nat -> (Z.of_nat k <= 2 ^ 31)%Z ->
  (0 < ms < 2 ^ 53)%Z -> (es <= 971)%Z -> 1 <= B64.mag ms es ->
  (0 < t <= 2 ^ 31)%Z ->
  exists step grid,
    Fl.int_div 1 t = Ok step
    /\ Fl.np.arange Fl.f0 (B64.div (B64.of_nat k) (B64.Fin false ms es)) step
       = Ok grid.
Proof.
  intros Hk Hkb Hm He Hs Ht.
  assert (Hk1 : 1 <= inject_Z (Z.of_nat k)).
  { change 1 with (inject_Z 1). rewrite <- Zle_Qle. lia. }
  (* the step *)
  assert (Hstep : exists m e,
             Fl.int_div 1 t = Ok (B64.Fin false m e)
             /\ B64.pow2 (-31) <= B64.mag m e).
  { unfold Fl.int_div.
    replace (t =? 0)%Z with false by (symmetry; apply Z.eqb_neq; lia).
    replace (t <? 0)%Z with false by (symmetry; apply Z.ltb_ge; lia).
    cbn [Z.ltb Z.compare xorb]. change (inject_Z 1) with 1.
    assert (H1 : 1 <= inject_Z t)
      by (change 1 with (inject_Z 1); rewrite <- Zle_Qle; lia).
    assert (H31 : inject_Z t <= B64.pow2 31)
      by (rewrite (pow2_Z 31) by lia; rewrite <- Zle_Qle; lia).
    assert (Hq0 : 0 < 1 / inject_Z t) by (apply Qlt_shift_div_l; lra).
    assert (Hq1 : 1 / inject_Z t <= 1) by (apply Qle_shift_div_r; lra).
    assert (Hq2 : B64.pow2 (-31) <= 1 / inject_Z t).
    { apply Qle_shift_div_l; [lra|].
      apply (Qle_trans _ (B64.pow2 (-31) * B64.pow2 31)).
      - apply Qmult_le_l; [apply pow2_pos | assumption].
      - rewrite <- pow2_plus. apply Qle_refl. }
    assert (Habs : Qabs (1 / inject_Z t) == 1 / inject_Z t)
      by (apply Qabs_pos; lra).
    destruct (round_le_Z false (Qabs (1 / inject_Z t)) 1)
      as (m & e & Hr & _); [lra | change (inject_Z 1) with 1; lra | lia |].
    destruct (round_ge_mag false (Qabs (1 / inject_Z t)) 1 (-31))
      as [Hinf | (m' & e' & Hr' & Hge)]; [| lia | lia | congruence |].
    { unfold B64.mag. change (inject_Z 1) with 1. lra. }
    rewrite Hr' in Hr. injection Hr as -> ->. rewrite Hr'.
    exists m, e. split; [reflexivity|].
    unfold B64.mag at 1 in Hge. change (inject_Z 1) with 1 in Hge. lra. }
  destruct Hstep as (m' & e' & Hstep & Hm').
  exists (B64.Fin false m' e'). rewrite Hstep.
  assert (Hm'0 : (m' =? 0)%Z = false).
  { apply Z.eqb_neq. intros ->. unfold B64.mag in Hm'.
    change (inject_Z 0) with 0 in Hm'. pose proof (pow2_pos (-31)). lra. }
  (* the last source time *)
  destruct (rate_mag ms es Hm He) as [Hs0 _].
  destruct (of_nat_bounds k Hk) as (mk & ek & Ek & Hk0 & Hk2); [lia|].
  assert (Hstop : exists m e,
             B64.div (B64.of_nat k) (B64.Fin false ms es) = B64.Fin false m e
             /\ 0 <= B64.mag m e /\ B64.mag m e <= inject_Z (Z.of_nat k)).
  { rewrite Ek. unfold B64.div.
    replace (ms =? 0)%Z with false by (symmetry; apply Z.eqb_neq; lia).
    cbn [xorb B64.val].
    assert (Hq0 : 0 < B64.mag mk ek / B64.mag ms es)
      by (apply Qlt_shift_div_l; lra).
    assert (Hq1 : B64.mag mk ek / B64.mag ms es <= inject_Z (Z.of_nat k)).
    { apply Qle_shift_div_r; [assumption|].
      apply (Qle_trans _ (inject_Z (Z.of_nat k) * 1)); [lra|].
      apply Qmult_le_l; lra. }
    apply round_le_Z; [| |lia]; rewrite Qabs_pos; lra. }
  destruct Hstop as (m1 & e1 & -> & H10 & H11).
  (* the difference with the start *)
  assert (Hsub : exists m e,
             B64.sub (B64.Fin false m1 e1) Fl.f0 = B64.Fin false m e
             /\ 0 <= B64.mag m e /\ B64.mag m e <= inject_Z (Z.of_nat k)).
  { unfold B64.sub, B64.add, Fl.f0, B64.zero, B64.opp.
    set (q := B64.val (B64.Fin false m1 e1)
              + B64.val (B64.Fin (negb false) 0 (-1074))).
    assert (Hq : q == B64.mag m1 e1).
    { unfold q. cbn [B64.val negb]. unfold B64.mag at 2.
      change (inject_Z 0) with 0. ring. }
    destruct (Qeq_bool q 0) eqn:E0.
    - exists 0%Z, (-1074)%Z. split; [reflexivity|]. unfold B64.mag.
      change (inject_Z 0) with 0. rewrite Qmult_0_l. split; lra.
    - apply Qeq_bool_neq in E0. unfold B64.of_Q.
      replace (Qltb q 0) with false
        by (symmetry; unfold Qltb; apply negb_false_iff, Qle_bool_iff; lra).
      apply round_le_Z; [| |lia]; rewrite Qabs_pos; lra. }
  unfold Fl.np.arange, Fl.np.arange_len.
  destruct Hsub as (m2 & e2 & -> & H20 & H21).
  unfold B64.div. rewrite Hm'0. cbn [xorb B64.val].
  assert (H31 : 0 < B64.pow2 (-31)) by apply pow2_pos.
  set (q := Qabs (B64.mag m2 e2 / B64.mag m' e')).
  assert (Hq0 : 0 <= B64.mag m2 e2 / B64.mag m' e').
  { apply Qle_shift_div_l; lra. }
  assert (Hq1 : q <= B64.mag (Z.of_nat k) 31).
  { unfold q. rewrite Qabs_pos by assumption.
    apply Qle_shift_div_r; [lra|]. unfold B64.mag at 2.
    apply (Qle_trans _ (inject_Z (Z.of_nat k) * (B64.pow2 31 * B64.pow2 (-31)))).
    - rewrite <- pow2_plus. change (B64.pow2 (31 + -31)) with 1. lra.
    - rewrite Qmult_assoc. apply Qmult_le_l; [|assumption].
      apply Qmult_lt_0_compat; [lra | apply pow2_pos]. }
  assert (Hfin : exists m e,
             B64.round false q = B64.Fin false m e
             /\ 0 <= B64.mag m e
             /\ B64.mag m e <= B64.mag (Z.of_nat k) 31).
  { destruct (Qeq_bool q 0) eqn:E0.
    - unfold B64.round. rewrite E0. exists 0%Z, (-1074)%Z.
      split; [reflexivity|]. unfold B64.mag at 1 2.
      change (inject_Z 0) with 0. rewrite Qmult_0_l.
      split; [lra|]. unfold B64.mag.
      apply Qmult_le_0_compat; [lra | apply Qlt_le_weak, pow2_pos].
    - apply Qeq_bool_neq in E0.
      apply round_le_mag; [|assumption|lia|lia].
      unfold q in *. rewrite Qabs_pos in * by assumption. lra. }
  destruct Hfin as (m3 & e3 & -> & H30 & H32).
  cbn [B64.val].
  assert (Hc : (0 <= Qceiling (B64.mag m3 e3) <= 2 ^ 62)%Z).
  { split.
    - pose proof (Qle_ceiling (B64.mag m3 e3)) as Hc.
      assert (Hz : inject_Z (-1) < inject_Z (Qceiling (B64.mag m3 e3))).
      { change (inject_Z (-1)) with (-1). lra. }
      rewrite <- Zlt_Qlt in Hz. lia.
    - assert (Hb : B64.mag m3 e3 <= inject_Z (2 ^ 62)).
      { apply (Qle_trans _ (B64.mag (Z.of_nat k) 31)); [assumption|].
        unfold B64.mag. rewrite (pow2_Z 31), <- inject_Z_mult by lia.
        rewrite <- Zle_Qle. nia. }
      apply Qceiling_resp_le in Hb. now rewrite Qceiling_Z in Hb. }
  replace (Qceiling (B64.mag m3 e3) <? - 2 ^ 63)%Z with false
    by (symmetry; apply Z.ltb_ge; lia).
  replace (2 ^ 63 <? Qceiling (B64.mag m3 e3))%Z with false
    by (symmetry; apply Z.ltb_ge; lia).
  cbn [orb bind]. eexists. split; reflexivity.
Qed.
